(** * Rule-based categorisation of bank transactions

    A shallow embedding of the categorisation core of the
    personal-finance dashboard: [utils.py] (text normalisation and keyword
    extraction), [storage.py] (the category / keyword tables),
    [categorization.py] (rule compilation, the vectorised rule engine and the
    fuzzy fallback) and the keyword-learning loop of [app.py].

    Text is modelled as [string] over 8-bit characters, with the case maps
    and the whitespace and digit classes of ASCII: this is Python's [str]
    on ASCII text, and a statement whose truth rests on those classes says
    so with [is_ascii]. The keyword extraction is also given over code
    points, for whatever the Unicode tables of the interpreter are
    ([Unicode]); on byte strings the two agree. *)

From Stdlib Require Import Strings.String Strings.Ascii Lists.List Bool.Bool.
From Stdlib Require Import Arith.PeanoNat ZArith.ZArith QArith.QArith Lia.
From Stdlib Require Import Sorting.Sorted Sorting.Permutation.
Import ListNotations.

Set Implicit Arguments.
Close Scope Q_scope.
Open Scope string_scope.
Open Scope list_scope.
Open Scope nat_scope.

(* ===================================================================== *)
(** * Text primitives (Python [str] methods used by the sources)          *)
(* ===================================================================== *)

Module Text.

(** [str.isspace] on one character of ASCII text: TAB, LF, VT, FF, CR, the
    four ASCII separators FS/GS/RS/US and the blank. The same class is what
    [\s] denotes in [re] for [str] patterns. *)
Definition is_space (c : ascii) : bool :=
  let n := nat_of_ascii c in
  ((9 <=? n) && (n <=? 13)) || ((28 <=? n) && (n <=? 32)).

(** [\d] on ASCII text. *)
Definition is_digit (c : ascii) : bool :=
  let n := nat_of_ascii c in (48 <=? n) && (n <=? 57).

Definition lower_char (c : ascii) : ascii :=
  let n := nat_of_ascii c in
  if (65 <=? n) && (n <=? 90) then ascii_of_nat (n + 32) else c.

Definition upper_char (c : ascii) : ascii :=
  let n := nat_of_ascii c in
  if (97 <=? n) && (n <=? 122) then ascii_of_nat (n - 32) else c.

Fixpoint map_chars (f : ascii -> ascii) (s : string) : string :=
  match s with
  | EmptyString => EmptyString
  | String c s' => String (f c) (map_chars f s')
  end.

(** [str.lower] and [str.upper] on ASCII text. *)
Definition lower : string -> string := map_chars lower_char.
Definition upper : string -> string := map_chars upper_char.

Fixpoint all_chars (p : ascii -> bool) (s : string) : bool :=
  match s with
  | EmptyString => true
  | String c s' => p c && all_chars p s'
  end.

Definition is_empty (s : string) : bool :=
  match s with EmptyString => true | _ => false end.

(** [str.lstrip], [str.rstrip] and [str.strip] with no argument. *)
Fixpoint lstrip (s : string) : string :=
  match s with
  | EmptyString => EmptyString
  | String c s' => if is_space c then lstrip s' else s
  end.

Fixpoint rstrip (s : string) : string :=
  match s with
  | EmptyString => EmptyString
  | String c s' =>
      let r := rstrip s' in
      if is_space c && is_empty r then EmptyString else String c r
  end.

Definition strip (s : string) : string := rstrip (lstrip s).

(** [p in s] for two strings. *)
Fixpoint is_infix (p s : string) : bool :=
  prefix p s ||
  match s with
  | EmptyString => false
  | String _ s' => is_infix p s'
  end.

(** [re.split(r"\s+", s)]: the pieces of [s] between maximal whitespace
    runs; a run at either end leaves an empty piece there, and the empty
    string splits into one empty piece. *)
Fixpoint re_split_ws (s : string) : list string :=
  match s with
  | EmptyString => [EmptyString]
  | String c s' =>
      if is_space c then
        match s' with
        | EmptyString => [EmptyString; EmptyString]
        | String c' _ =>
            if is_space c' then re_split_ws s'
            else EmptyString :: re_split_ws s'
        end
      else
        match re_split_ws s' with
        | t :: ts => String c t :: ts
        | [] => [String c EmptyString]
        end
  end.

(** Leading run of digits of [s] and what follows it. *)
Fixpoint span_digits (s : string) : string * string :=
  match s with
  | EmptyString => (EmptyString, EmptyString)
  | String c s' =>
      if is_digit c then
        let (d, r) := span_digits s' in (String c d, r)
      else (EmptyString, s)
  end.

(** [re.fullmatch(r"\d+(\.\d+)?", t)] as a truth value. *)
Definition fullmatch_number (t : string) : bool :=
  let (d, r) := span_digits t in
  negb (is_empty d) &&
  match r with
  | EmptyString => true
  | String c r' =>
      if Ascii.eqb c "."%char then
        let (d', r'') := span_digits r' in
        negb (is_empty d') && is_empty r''
      else false
  end.

End Text.

Import Text.

(* ===================================================================== *)
(** * utils.py                                                            *)
(* ===================================================================== *)

(** [normalize_text]: [str(text).strip().lower()]. *)
Definition normalize_text (text : string) : string := lower (strip text).

(** The comprehension filter of [extract_keyword_from_details]; on ASCII
    text [len] is the number of bytes. *)
Definition is_candidate (t : string) : bool :=
  (3 <=? String.length t) && negb (fullmatch_number t).

(** [max(best :: rest, key=len)]: the scan keeps the element seen first
    among those of greatest length. *)
Fixpoint max_by_len (best : string) (rest : list string) : string :=
  match rest with
  | [] => best
  | x :: rest' =>
      if String.length best <? String.length x
      then max_by_len x rest' else max_by_len best rest'
  end.

Definition extract_keyword_from_details (details : string) : option string :=
  if is_empty details then None
  else
    let tokens := re_split_ws (strip details) in
    let candidates := filter is_candidate tokens in
    match candidates with
    | [] => None
    | c :: cs => Some (upper (max_by_len c cs))
    end.

(* ===================================================================== *)
(** * utils.py on any text                                                *)
(* ===================================================================== *)

(** A Python [str] is a sequence of code points, and the interpreter's
    Unicode tables decide what [extract_keyword_from_details] sees in it:
    which code points are whitespace ([str.isspace], the class that
    [str.strip] removes and that [\s] denotes), which are decimal digits
    (the class of [\d]), and what [str.upper] returns, which can be longer
    than its argument. The keyword extraction is given here over any such
    tables; the byte strings of [Text] above are the case of ASCII text. *)
Module Unicode.

Definition str : Type := list N.

Class UnicodeData := {
  isspace : N -> bool;
  isdecimal : N -> bool;
  str_upper : str -> str
}.

(** The code point of [.]. *)
Definition full_stop : N := 46.

Definition is_nil (s : str) : bool :=
  match s with [] => true | _ => false end.

Section Utils.
Context {ucd : UnicodeData}.

(** [str.lstrip], [str.rstrip] and [str.strip] with no argument. *)
Fixpoint lstrip (s : str) : str :=
  match s with
  | [] => []
  | c :: s' => if isspace c then lstrip s' else s
  end.

Fixpoint rstrip (s : str) : str :=
  match s with
  | [] => []
  | c :: s' =>
      let r := rstrip s' in
      if isspace c && is_nil r then [] else c :: r
  end.

Definition strip (s : str) : str := rstrip (lstrip s).

(** [re.split(r"\s+", s)]. *)
Fixpoint re_split_ws (s : str) : list str :=
  match s with
  | [] => [[]]
  | c :: s' =>
      if isspace c then
        match s' with
        | [] => [[]; []]
        | c' :: _ =>
            if isspace c' then re_split_ws s' else [] :: re_split_ws s'
        end
      else
        match re_split_ws s' with
        | t :: ts => (c :: t) :: ts
        | [] => [[c]]
        end
  end.

(** [re.fullmatch(r"\d+(\.\d+)?", t)] as a truth value. [fraction] reads
    what follows a digit: more digits, or a full stop and then digits only,
    at least one, up to the end. *)
Fixpoint fraction (t : str) : bool :=
  match t with
  | [] => true
  | c :: t' =>
      (isdecimal c && fraction t') ||
      ((c =? full_stop)%N && negb (is_nil t') && forallb isdecimal t')
  end.

Definition fullmatch_number (t : str) : bool :=
  match t with
  | [] => false
  | c :: t' => isdecimal c && fraction t'
  end.

(** The comprehension filter; [len] counts code points. *)
Definition is_candidate (t : str) : bool :=
  (3 <=? List.length t) && negb (fullmatch_number t).

(** [max(best :: rest, key=len)]. *)
Fixpoint max_by_len (best : str) (rest : list str) : str :=
  match rest with
  | [] => best
  | x :: rest' =>
      if List.length best <? List.length x
      then max_by_len x rest' else max_by_len best rest'
  end.

Definition extract_keyword_from_details (details : str) : option str :=
  if is_nil details then None
  else
    let tokens := re_split_ws (strip details) in
    let candidates := filter is_candidate tokens in
    match candidates with
    | [] => None
    | c :: cs => Some (str_upper (max_by_len c cs))
    end.

End Utils.

(** The tables on the code points below 128 (no other code point is in a
    class or has an upper case here), for the examples. *)
Definition ascii_data : UnicodeData :=
  {| isspace := fun n =>
       (((9 <=? n) && (n <=? 13)) || ((28 <=? n) && (n <=? 32)))%N;
     isdecimal := fun n => ((48 <=? n) && (n <=? 57))%N;
     str_upper :=
       map (fun n => if ((97 <=? n) && (n <=? 122))%N then (n - 32)%N else n) |}.

(** The code points of an ASCII literal. *)
Definition codes (s : string) : str :=
  map N_of_ascii (list_ascii_of_string s).

End Unicode.

(* ===================================================================== *)
(** * storage.py                                                          *)
(* ===================================================================== *)

(** A row of table [categories] and a row of table [keywords]. *)
Record CategoryRow := {
  cat_id : Z;
  cat_name : string;
  cat_priority : Z
}.

Record KeywordRow := {
  kw_id : Z;
  kw_category_id : Z;
  kw_pattern : string;
  kw_is_regex : bool;
  kw_enabled : bool
}.

(** The SQLite file: both tables in rowid order, and the last rowid handed
    out for [keywords] (the AUTOINCREMENT counter). *)
Record Database := {
  categories : list CategoryRow;
  keywords : list KeywordRow;
  keywords_seq : Z
}.

(** The dictionaries returned by [get_categories_with_keywords]. *)
Record KeywordEntry := {
  id : Z;
  pattern : string;
  is_regex : bool;
  enabled : bool
}.

Record CategoryEntry := {
  category_id : Z;
  category_name : string;
  category_priority : Z;
  category_keywords : list KeywordEntry
}.

(** Stable insertion by a comparison, the model of SQL [ORDER BY] and of
    [list.sort(key=...)] (which is stable). *)
Section StableSort.
Variable A : Type.
Variable le : A -> A -> bool.

Fixpoint insert_sorted (x : A) (l : list A) : list A :=
  match l with
  | [] => [x]
  | y :: l' => if le x y then x :: l else y :: insert_sorted x l'
  end.

(** Elements are inserted from the right, so that among elements that
    compare equal the earlier one of the input stays first. *)
Fixpoint stable_sort (l : list A) : list A :=
  match l with
  | [] => []
  | x :: l' => insert_sorted x (stable_sort l')
  end.
End StableSort.

(** Comparison of two elements by an integer key. *)
Definition key_le (A : Type) (key : A -> Z) (a b : A) : bool :=
  (key a <=? key b)%Z.

(** [ORDER BY priority ASC, name ASC]. *)
Definition category_row_le (a b : CategoryRow) : bool :=
  (cat_priority a <? cat_priority b)%Z ||
  ((cat_priority a =? cat_priority b)%Z && (cat_name a <=? cat_name b)%string).

(** [ORDER BY id ASC]. *)
Definition keyword_row_le : KeywordRow -> KeywordRow -> bool := key_le kw_id.

Definition keyword_of_row (k : KeywordRow) : KeywordEntry :=
  {| id := kw_id k; pattern := kw_pattern k;
     is_regex := kw_is_regex k; enabled := kw_enabled k |}.

(** [categories_dict] is keyed by category id, a primary key: every fetched
    category gets the keyword rows that carry its id, in fetch order. *)
Definition get_categories_with_keywords (db : Database) : list CategoryEntry :=
  let categories_rows := stable_sort category_row_le (categories db) in
  let keywords_rows := stable_sort keyword_row_le (keywords db) in
  map (fun row =>
         {| category_id := cat_id row;
            category_name := cat_name row;
            category_priority := cat_priority row;
            category_keywords :=
              map keyword_of_row
                (filter (fun k => (kw_category_id k =? cat_id row)%Z) keywords_rows) |})
      categories_rows.

(** [add_keyword]: nothing is stored for a pattern that strips to the empty
    string; otherwise one enabled row is appended under a fresh id. *)
Definition add_keyword (db : Database) (category_id : Z) (pattern : string)
    (is_regex : bool) : Database :=
  let cleaned := strip pattern in
  if is_empty cleaned then db
  else
    let new_id := (keywords_seq db + 1)%Z in
    {| categories := categories db;
       keywords := keywords db ++
         [{| kw_id := new_id; kw_category_id := category_id;
             kw_pattern := cleaned; kw_is_regex := is_regex;
             kw_enabled := true |}];
       keywords_seq := new_id |}.

(** [get_category_id_by_name]: [SELECT id FROM categories WHERE name = ?]
    on the stripped name, first row. *)
Definition get_category_id_by_name (db : Database) (name : string) : option Z :=
  let cleaned := strip name in
  if is_empty cleaned then None
  else
    match find (fun row => (cat_name row =? cleaned)%string) (categories db) with
    | Some row => Some (cat_id row)
    | None => None
    end.

(* ===================================================================== *)
(** * The regular-expression engine behind [Series.str.contains]          *)
(* ===================================================================== *)

(** [re] is a library the sources call; the rule engine is defined over any
    implementation of the two calls [str.contains(..., regex=True)] makes:
    [re.compile(pat, flags=re.IGNORECASE)], which raises [re.error] on a
    malformed pattern ([None] here), and [compiled.search(x) is not None]. *)
Class RegexEngine := {
  re_pattern : Type;
  re_compile : string -> option re_pattern;
  re_search : re_pattern -> string -> bool
}.

(** An executable engine for a fragment of the pattern syntax, on ASCII
    text: literal characters, [.], the anchors [^] and [$], a backslash
    before a non-alphanumeric character, the classes [\d], [\D], [\s],
    [\S], [\w], [\W], and the greedy quantifiers [*], [+], [?] on a
    single-character atom. It reads the pattern the way [re]'s parser does,
    left to right, a repeat character acting on the item before it. *)
Module Sre.

(** The classes a backslash and a letter name. *)
Inductive category := Digit | Space | Word.

Inductive atom :=
| Lit (c : ascii)     (* a literal, compared ignoring case *)
| AnyChar             (* [.]: any character but a newline *)
| AtBeginning         (* [^] *)
| AtEnd               (* [$] *)
| Category (negated : bool) (k : category).
                      (* [\d], [\s], [\w]; negated: [\D], [\S], [\W] *)

Inductive quantifier := One | ZeroOrOne | ZeroOrMore | OneOrMore.

Definition item : Type := atom * quantifier.

Inductive token :=
| TChar (c : ascii)
| TDot
| TBol
| TEol
| TCategory (negated : bool) (k : category)
| TRepeat (q : quantifier)
| TOther         (* opens a construct outside the fragment *)
| TBadEscape.    (* a backslash that ends the pattern *)

Inductive parse_result :=
| Parsed (items : list item)
| Malformed       (* [re.compile] raises [re.error] *)
| NotInFragment.  (* syntax this engine does not cover *)

Definition is_alnum (c : ascii) : bool :=
  let n := nat_of_ascii c in
  ((48 <=? n) && (n <=? 57)) || ((65 <=? n) && (n <=? 90)) ||
  ((97 <=? n) && (n <=? 122)).

(** An unescaped character. *)
Definition token_of (c : ascii) : token :=
  if Ascii.eqb c "*" then TRepeat ZeroOrMore
  else if Ascii.eqb c "+" then TRepeat OneOrMore
  else if Ascii.eqb c "?" then TRepeat ZeroOrOne
  else if Ascii.eqb c "." then TDot
  else if Ascii.eqb c "^" then TBol
  else if Ascii.eqb c "$" then TEol
  else if Ascii.eqb c "(" || Ascii.eqb c ")" || Ascii.eqb c "[" ||
          Ascii.eqb c "{" || Ascii.eqb c "|" then TOther
  else TChar c.

(** The character after a backslash. A backslash makes a non-alphanumeric
    character a literal; before [d], [s], [w] it names a class and before
    [D], [S], [W] the complement of that class; before another letter or a
    digit it is an assertion, a reference or an error, which the fragment
    leaves out. *)
Definition escape_token (c : ascii) : token :=
  if Ascii.eqb c "d" then TCategory false Digit
  else if Ascii.eqb c "D" then TCategory true Digit
  else if Ascii.eqb c "s" then TCategory false Space
  else if Ascii.eqb c "S" then TCategory true Space
  else if Ascii.eqb c "w" then TCategory false Word
  else if Ascii.eqb c "W" then TCategory true Word
  else if is_alnum c then TOther
  else TChar c.

(** [escaped] tells that the character before was a backslash. *)
Fixpoint tokenize (escaped : bool) (s : string) : list token :=
  match s with
  | EmptyString => if escaped then [TBadEscape] else []
  | String c s' =>
      if escaped then escape_token c :: tokenize false s'
      else if Ascii.eqb c "\" then tokenize true s'
      else token_of c :: tokenize false s'
  end.

(** What the item before the current token is. *)
Inductive last_item := NoItem | Anchor | Repeatable | Repeated.

(** [rev_items] are the items read so far, last first. A repeat character
    needs an item that is not an anchor ("nothing to repeat"); after a
    repeat, [*] is "multiple repeat", while [?] and [+] would make the
    repeat lazy or possessive. *)
Fixpoint parse_tokens (ts : list token) (rev_items : list item)
    (last : last_item) : parse_result :=
  match ts with
  | [] => Parsed (rev rev_items)
  | TChar c :: ts' => parse_tokens ts' ((Lit c, One) :: rev_items) Repeatable
  | TDot :: ts' => parse_tokens ts' ((AnyChar, One) :: rev_items) Repeatable
  | TBol :: ts' => parse_tokens ts' ((AtBeginning, One) :: rev_items) Anchor
  | TEol :: ts' => parse_tokens ts' ((AtEnd, One) :: rev_items) Anchor
  | TCategory negated k :: ts' =>
      parse_tokens ts' ((Category negated k, One) :: rev_items) Repeatable
  | TRepeat q :: ts' =>
      match last, rev_items with
      | Repeatable, (a, _) :: items' => parse_tokens ts' ((a, q) :: items') Repeated
      | Repeated, _ =>
          match q with ZeroOrMore => Malformed | _ => NotInFragment end
      | _, _ => Malformed
      end
  | TOther :: _ => NotInFragment
  | TBadEscape :: _ => Malformed
  end.

Definition parse (pat : string) : parse_result :=
  parse_tokens (tokenize false pat) [] NoItem.

Definition newline : ascii := ascii_of_nat 10.

(** [\d] is a digit, [\s] a whitespace character, [\w] a letter, a digit
    or the underscore. *)
Definition in_category (k : category) (c : ascii) : bool :=
  match k with
  | Digit => is_digit c
  | Space => is_space c
  | Word => is_alnum c || Ascii.eqb c "_"
  end.

Definition atom_matches (a : atom) (c : ascii) : bool :=
  match a with
  | Lit l => Ascii.eqb (lower_char l) (lower_char c)
  | AnyChar => negb (Ascii.eqb c newline)
  | AtBeginning | AtEnd => false
  | Category negated k => xorb negated (in_category k c)
  end.

(** [$] holds at the end of the text and just before a final newline. *)
Definition at_end (s : string) : bool :=
  match s with
  | EmptyString => true
  | String c EmptyString => Ascii.eqb c newline
  | _ => false
  end.

(** Zero or more characters that [a] accepts, then the continuation [k];
    [bol] tells whether [s] starts at the beginning of the text. *)
Fixpoint star (a : atom) (k : bool -> string -> bool) (bol : bool) (s : string) : bool :=
  k bol s ||
  match s with
  | String c s' => atom_matches a c && star a k false s'
  | EmptyString => false
  end.

(** One character that [a] accepts, then [k]. *)
Definition one (a : atom) (k : bool -> string -> bool) (s : string) : bool :=
  match s with
  | String c s' => atom_matches a c && k false s'
  | EmptyString => false
  end.

(** Does the item list match a prefix of [s]? *)
Fixpoint match_here (items : list item) (bol : bool) (s : string) : bool :=
  match items with
  | [] => true
  | (AtBeginning, _) :: rest => bol && match_here rest bol s
  | (AtEnd, _) :: rest => at_end s && match_here rest bol s
  | (a, One) :: rest => one a (match_here rest) s
  | (a, ZeroOrOne) :: rest => match_here rest bol s || one a (match_here rest) s
  | (a, ZeroOrMore) :: rest => star a (match_here rest) bol s
  | (a, OneOrMore) :: rest => one a (star a (match_here rest)) s
  end.

(** [search]: a match starting at some position of the text. *)
Fixpoint search_from (items : list item) (bol : bool) (s : string) : bool :=
  match_here items bol s ||
  match s with
  | String _ s' => search_from items false s'
  | EmptyString => false
  end.

Definition compile (pat : string) : option (list item) :=
  match parse pat with
  | Parsed items => Some items
  | Malformed | NotInFragment => None
  end.

Definition search (items : list item) (s : string) : bool :=
  search_from items true s.









End Sre.

(** The fragment engine as an instance. It stands for [re] on the patterns
    that [Sre.parse] reads ([Parsed]) or finds [Malformed]; a pattern with
    syntax outside the fragment ([NotInFragment]) has no meaning here and is
    reported like one that does not compile, so nothing said of this
    instance about such a pattern is a statement about [re]. *)
Definition sre_engine : RegexEngine :=
  {| re_pattern := list Sre.item;
     re_compile := Sre.compile;
     re_search := Sre.search |}.

(* ===================================================================== *)
(** * categorization.py                                                   *)
(* ===================================================================== *)

Record CategoryRule := {
  name : string;
  priority : Z;
  patterns : list string;
  is_regex_flags : list bool
}.

(** The loop of [build_rules_from_storage] over the fetched categories. *)
Fixpoint collect_rules (categories : list CategoryEntry) : list CategoryRule :=
  match categories with
  | [] => []
  | cat :: rest =>
      if (category_name cat =? "Uncategorized")%string then collect_rules rest
      else
        let enabled_keywords := filter enabled (category_keywords cat) in
        match enabled_keywords with
        | [] => collect_rules rest
        | _ :: _ =>
            {| name := category_name cat;
               priority := category_priority cat;
               patterns := map pattern enabled_keywords;
               is_regex_flags := map is_regex enabled_keywords |}
            :: collect_rules rest
        end
  end.

(** [rules.sort(key=lambda r: r.priority)]. *)
Definition sort_rules (rules : list CategoryRule) : list CategoryRule :=
  stable_sort (key_le priority) rules.

(** The rule builder on a snapshot of the categories. *)
Definition build_rules (categories : list CategoryEntry) : list CategoryRule :=
  sort_rules (collect_rules categories).

Definition build_rules_from_storage (db : Database) : list CategoryRule :=
  build_rules (get_categories_with_keywords db).

(** A call either returns or raises [re.error] for the pattern named. *)
Inductive result (A : Type) :=
| Ok (a : A)
| ReError (pat : string).
Arguments Ok {A} a.
Arguments ReError {A} pat.

Definition bind {A B : Type} (r : result A) (k : A -> result B) : result B :=
  match r with
  | Ok a => k a
  | ReError p => ReError p
  end.

Notation "x <- r ;; k" := (bind r (fun x => k))
  (at level 61, r at next level, right associativity).

(** One transaction as the engine sees it: the text of its [Details] cell
    and its [Category] cell, [None] for a null cell. *)
Record Transaction := {
  Details : string;
  Category : option string
}.

(** The frame handed to the engine comes with or without a [Category]
    column. *)
Inductive DataFrame :=
| WithoutCategory (details : list string)
| WithCategory (rows : list Transaction).

Definition Uncategorized : string := "Uncategorized".

(** [df["Category"] == "Uncategorized"] on one cell. *)
Definition is_uncategorized (c : option string) : bool :=
  match c with
  | Some s => (s =? Uncategorized)%string
  | None => false
  end.

(** Element-wise [|] and [&] of two masks over the same index. *)
Fixpoint mask_or (a b : list bool) : list bool :=
  match a, b with
  | x :: a', y :: b' => (x || y) :: mask_or a' b'
  | _, _ => []
  end.

Fixpoint mask_and (a b : list bool) : list bool :=
  match a, b with
  | x :: a', y :: b' => (x && y) :: mask_and a' b'
  | _, _ => []
  end.

(** [df.loc[mask, "Category"] = value]. *)
Fixpoint loc_assign (mask : list bool) (value : string)
    (column : list (option string)) : list (option string) :=
  match mask, column with
  | m :: mask', c :: column' =>
      (if m then Some value else c) :: loc_assign mask' value column'
  | _, _ => column
  end.

Section Engine.
Context {engine : RegexEngine}.

(** [details_norm.str.contains(pat, case=False, regex=..., na=False)]:
    with [regex=False] pandas tests [pat.upper() in x.upper()]; with
    [regex=True] it compiles [pat] with [re.IGNORECASE] once and searches
    every cell. *)
Definition str_contains (details_norm : list string) (pat : string)
    (regex : bool) : result (list bool) :=
  if regex then
    match re_compile pat with
    | Some compiled => Ok (map (re_search compiled) details_norm)
    | None => ReError pat
    end
  else
    let upper_pat := upper pat in
    Ok (map (fun x => is_infix upper_pat (upper x)) details_norm).

(** The mask [m] of one pattern: the two branches on [is_regex]. *)
Definition pattern_mask (details_norm : list string) (pattern : string)
    (is_regex : bool) : result (list bool) :=
  if is_regex then str_contains details_norm pattern true
  else
    let escaped := lower pattern in
    str_contains details_norm escaped false.

(** The inner loop over [zip(rule.patterns, rule.is_regex_flags)]. *)
Fixpoint pattern_loop (details_norm : list string)
    (zipped : list (string * bool)) (category_mask : list bool)
    : result (list bool) :=
  match zipped with
  | [] => Ok category_mask
  | (pattern, is_regex) :: rest =>
      if is_empty pattern then pattern_loop details_norm rest category_mask
      else
        m <- pattern_mask details_norm pattern is_regex ;;
        pattern_loop details_norm rest (mask_or category_mask m)
  end.

(** The outer loop over the rules, on the [Category] column. *)
Fixpoint rule_loop (details_norm : list string)
    (column : list (option string)) (rules : list CategoryRule)
    : result (list (option string)) :=
  match rules with
  | [] => Ok column
  | rule :: rest =>
      let uncategorized_mask := map is_uncategorized column in
      if negb (existsb (fun b => b) uncategorized_mask) then Ok column
      else
        category_mask <-
          pattern_loop details_norm
            (combine (patterns rule) (is_regex_flags rule))
            (map (fun _ => false) details_norm) ;;
        let final_mask := mask_and uncategorized_mask category_mask in
        rule_loop details_norm (loc_assign final_mask (name rule) column) rest
  end.

Definition details_column (df : DataFrame) : list string :=
  match df with
  | WithoutCategory details => details
  | WithCategory rows => map Details rows
  end.

(** The [Category] column after [if "Category" not in df.columns: ...]. *)
Definition category_column (df : DataFrame) : list (option string) :=
  match df with
  | WithoutCategory details => map (fun _ => Some Uncategorized) details
  | WithCategory rows => map Category rows
  end.

Fixpoint with_categories (details : list string)
    (column : list (option string)) : list Transaction :=
  match details, column with
  | d :: details', c :: column' =>
      {| Details := d; Category := c |} :: with_categories details' column'
  | _, _ => []
  end.

Definition apply_rules_vectorized (df : DataFrame) (rules : list CategoryRule)
    : result (list Transaction) :=
  let details_norm := map lower (details_column df) in
  column <- rule_loop details_norm (category_column df) rules ;;
  Ok (with_categories (details_column df) column).

Definition categorize_transactions (db : Database) (df : DataFrame)
    : result (list Transaction) :=
  apply_rules_vectorized df (build_rules_from_storage db).

End Engine.

(** ** The optional fuzzy fallback *)

(** [rapidfuzz] is optional: whether its import succeeded, and the scorer
    [fuzz.token_sort_ratio] (a score between 0 and 100). *)
Class Rapidfuzz := {
  HAS_RAPIDFUZZ : bool;
  token_sort_ratio : string -> string -> Q
}.

Section Fuzzy.
Context {rapidfuzz : Rapidfuzz}.

(** [process.extractOne(query, choices, scorer=...)] scans the choices and
    keeps the one seen first among those of greatest score; it returns
    the choice, its score and its index. *)
Fixpoint extractOne_scan (query : string) (best : string * Q * nat)
    (index : nat) (choices : list string) : string * Q * nat :=
  match choices with
  | [] => best
  | choice :: rest =>
      let score := token_sort_ratio query choice in
      let '(_, best_score, _) := best in
      if Qlt_le_dec best_score score
      then extractOne_scan query (choice, score, index) (S index) rest
      else extractOne_scan query best (S index) rest
  end.

Definition extractOne (query : string) (choices : list string)
    : option (string * Q * nat) :=
  match choices with
  | [] => None
  | choice :: rest =>
      Some (extractOne_scan query (choice, token_sort_ratio query choice, 0) 1 rest)
  end.

Definition fuzzy_categorize_single_details (details : string)
    (candidate_categories : list string) (threshold : Z) : option string :=
  if negb HAS_RAPIDFUZZ then None
  else
    let text := normalize_text details in
    if is_empty text || (match candidate_categories with [] => true | _ => false end)
    then None
    else
      match extractOne text candidate_categories with
      | Some (best_match, score, _) =>
          if Qle_bool (inject_Z threshold) score then Some best_match else None
      | None => None
      end.

(** The default [threshold=80]. *)
Definition fuzzy_categorize_single_details_default (details : string)
    (candidate_categories : list string) : option string :=
  fuzzy_categorize_single_details details candidate_categories 80.

End Fuzzy.

(* ===================================================================== *)
(** * app.py: learning keywords from the edited table                     *)
(* ===================================================================== *)

(** A row of [merged]: the details, the category shown and the category the
    editor returned. *)
Record MergedRow := {
  m_Details : string;
  m_Category : string;
  m_NewCategory : string
}.

(** The body of the loop over the changed rows. *)
Definition learn_row (db : Database) (row : MergedRow) : Database :=
  let details := m_Details row in
  let new_cat_name := m_NewCategory row in
  match extract_keyword_from_details details with
  | Some keyword =>
      if is_empty keyword then db
      else
        match get_category_id_by_name db new_cat_name with
        | Some cat_id => add_keyword db cat_id keyword false
        | None => db
        end
  | None => db
  end.

(** [changed = merged[merged["Category"] != merged["NewCategory"]]] and the
    loop over its rows. *)
Definition learn_keywords (db : Database) (merged : list MergedRow) : Database :=
  let changed :=
    filter (fun row => negb (m_Category row =? m_NewCategory row)%string) merged in
  fold_left learn_row changed db.

(* ===================================================================== *)
(** * storage.py, the other operations                                    *)
(* ===================================================================== *)

(** [delete_keyword]: [DELETE FROM keywords WHERE id = ?]. *)
Definition delete_keyword (db : Database) (keyword_id : Z) : Database :=
  {| categories := categories db;
     keywords := filter (fun k => negb (kw_id k =? keyword_id)%Z) (keywords db);
     keywords_seq := keywords_seq db |}.

(** [toggle_keyword_enabled]: [UPDATE keywords SET enabled = ? WHERE id = ?]. *)
Definition toggle_keyword_enabled (db : Database) (keyword_id : Z)
    (enabled : bool) : Database :=
  {| categories := categories db;
     keywords :=
       map (fun k =>
              if (kw_id k =? keyword_id)%Z then
                {| kw_id := kw_id k; kw_category_id := kw_category_id k;
                   kw_pattern := kw_pattern k; kw_is_regex := kw_is_regex k;
                   kw_enabled := enabled |}
              else k) (keywords db);
     keywords_seq := keywords_seq db |}.

(** The driver binds a Python [int] to an SQLite INTEGER of 64 bits; for any
    other [int] it raises [OverflowError] and the statement does not run. *)
Definition fits_int64 (n : Z) : bool :=
  (- 2 ^ 63 <=? n)%Z && (n <? 2 ^ 63)%Z.

(** [update_category_priority]: [UPDATE categories SET priority = ? WHERE id = ?];
    [None] when binding one of the two parameters raises [OverflowError]. *)
Definition update_category_priority (db : Database) (category_id : Z)
    (priority : Z) : option Database :=
  if fits_int64 priority && fits_int64 category_id then
    Some
      {| categories :=
           map (fun row =>
                  if (cat_id row =? category_id)%Z then
                    {| cat_id := cat_id row; cat_name := cat_name row;
                       cat_priority := priority |}
                  else row) (categories db);
         keywords := keywords db;
         keywords_seq := keywords_seq db |}
  else None.

(** [delete_category]: [DELETE FROM categories WHERE id = ?]. The keyword
    rows of the category go with it ([ON DELETE CASCADE]) only where SQLite
    enforces foreign keys; [get_connection] does not set that pragma, so
    [foreign_keys] is the default of the SQLite library in use. *)
Definition delete_category (foreign_keys : bool) (db : Database)
    (category_id : Z) : Database :=
  {| categories :=
       filter (fun row => negb (cat_id row =? category_id)%Z) (categories db);
     keywords :=
       if foreign_keys then
         filter (fun k => negb (kw_category_id k =? category_id)%Z) (keywords db)
       else keywords db;
     keywords_seq := keywords_seq db |}.

(** The store with the AUTOINCREMENT counter of [categories] (its row in
    [sqlite_sequence]) beside the tables. *)
Record Store := {
  tables : Database;
  categories_seq : Z
}.

Definition empty_store : Store :=
  {| tables := {| categories := []; keywords := []; keywords_seq := 0 |};
     categories_seq := 0 |}.

(** [INSERT OR IGNORE INTO categories (name, priority) VALUES (?, ?)]: the
    row is left out when the name, which is UNIQUE, is already there. SQLite
    takes the new id from the counter before it checks the constraint, so
    the counter moves in both cases. *)
Definition insert_or_ignore_category (st : Store) (name : string)
    (priority : Z) : Store :=
  let new_id := (categories_seq st + 1)%Z in
  if existsb (fun row => (cat_name row =? name)%string) (categories (tables st))
  then {| tables := tables st; categories_seq := new_id |}
  else
    {| tables :=
         {| categories := categories (tables st) ++
              [{| cat_id := new_id; cat_name := name; cat_priority := priority |}];
            keywords := keywords (tables st);
            keywords_seq := keywords_seq (tables st) |};
       categories_seq := new_id |}.

(** [add_category], with its default [priority=100] in
    [add_category_default]; [None] when binding the priority raises
    [OverflowError], which leaves the store as it is. *)
Definition add_category (st : Store) (name : string) (priority : Z)
    : option Store :=
  let cleaned := strip name in
  if is_empty cleaned then Some st
  else if fits_int64 priority
       then Some (insert_or_ignore_category st cleaned priority)
       else None.

Definition add_category_default (st : Store) (name : string) : option Store :=
  add_category st name 100.

(** [add_keyword] on the store. *)
Definition store_add_keyword (st : Store) (category_id : Z) (pattern : string)
    (is_regex : bool) : Store :=
  {| tables := add_keyword (tables st) category_id pattern is_regex;
     categories_seq := categories_seq st |}.

(** What [migrate_from_json_if_present] finds at [JSON_PATH]: no file, a
    file that does not load, a JSON value that is not an object, or an
    object; a value of the object is a list of keywords (each given by its
    [str]) or something else ([None]). *)
Inductive json_file :=
| NoFile
| Corrupt
| NotAnObject
| JsonObject (items : list (string * option (list string))).

(** [SELECT COUNT( * ) FROM categories WHERE name != 'Uncategorized'] is
    positive. *)
Definition has_user_category (db : Database) : bool :=
  existsb (fun row => negb (cat_name row =? "Uncategorized")%string) (categories db).

(** The inner loop of the migration over the keywords of one category. *)
Definition migrate_keywords (st : Store) (cat_id : Z) (keywords : list string) : Store :=
  fold_left
    (fun st kw =>
       let cleaned_kw := strip kw in
       if is_empty cleaned_kw then st
       else store_add_keyword st cat_id cleaned_kw false)
    keywords st.

(** The body of the loop over [data.items()]; [None] when a call raises. *)
Definition migrate_item (st : Store) (item : string * option (list string))
    : option Store :=
  let (name, keywords) := item in
  let cleaned_name := strip name in
  if is_empty cleaned_name || (cleaned_name =? "Uncategorized")%string then Some st
  else
    match add_category_default st cleaned_name with
    | None => None
    | Some st =>
        match get_category_id_by_name (tables st) cleaned_name with
        | None => Some st
        | Some cat_id =>
            match keywords with
            | Some keywords => Some (migrate_keywords st cat_id keywords)
            | None => Some st
            end
        end
    end.

(** The loop over [data.items()]. *)
Fixpoint migrate_items (st : Store)
    (items : list (string * option (list string))) : option Store :=
  match items with
  | [] => Some st
  | item :: rest =>
      match migrate_item st item with
      | Some st' => migrate_items st' rest
      | None => None
      end
  end.

(** [migrate_from_json_if_present]; [None] when [data.items()] raises
    because the JSON value is not an object, or a call of the loop raises. *)
Definition migrate_from_json_if_present (file : json_file) (st : Store)
    : option Store :=
  match file with
  | NoFile => Some st
  | Corrupt | NotAnObject | JsonObject _ =>
      if has_user_category (tables st) then Some st
      else
        match file with
        | JsonObject items => migrate_items st items
        | NotAnObject => None
        | NoFile | Corrupt => Some st
        end
  end.

(** [init_db]: the tables are created if they are missing (an absent table
    is an empty one here), the default category is inserted if it is not
    there, and the migration runs. *)
Definition init_db (file : json_file) (st : Store) : option Store :=
  migrate_from_json_if_present file
    (insert_or_ignore_category st "Uncategorized" 999).

(* ===================================================================== *)
(** * data_loader.py                                                      *)
(* ===================================================================== *)

Definition REQUIRED_COLUMNS : list string :=
  ["Date"; "Amount"; "Details"; "Debit/Credit"].

(** [', '.join(names)]. *)
Fixpoint join_comma (names : list string) : string :=
  match names with
  | [] => ""
  | [n] => n
  | n :: rest => (n ++ ", " ++ join_comma rest)%string
  end.

(** The outcome of a validation: it returns, or raises [ValueError] with a
    message. *)
Inductive validation :=
| Valid
| ValueError (message : string).

(** [validate_columns] on the column names of the frame; the required
    columns that are missing are named in sorted order. *)
Definition validate_columns (columns : list string) : validation :=
  let missing :=
    filter (fun c => negb (existsb (String.eqb c) columns)) REQUIRED_COLUMNS in
  match missing with
  | [] => Valid
  | _ :: _ =>
      ValueError
        ("El CSV no contiene las columnas obligatorias: " ++
         join_comma (stable_sort String.leb missing))
  end.

(** The first steps of [load_transactions] on the header of the file: the
    column names are stripped, then validated. *)
Definition validate_header (header : list string) : validation :=
  validate_columns (map strip header).

(* ===================================================================== *)
(** * Specification vocabulary                                            *)
(* ===================================================================== *)

(** A string made of whitespace only, and one with no whitespace in it. *)
Definition blank (s : string) : Prop := all_chars is_space s = true.
Definition solid (s : string) : Prop :=
  all_chars (fun c => negb (is_space c)) s = true.
Definition digits (s : string) : Prop :=
  s <> "" /\ all_chars is_digit s = true.

Definition starts_blank (s : string) : Prop :=
  match s with
  | EmptyString => True
  | String c _ => is_space c = true
  end.

(** [Words s ws]: [ws] are the maximal whitespace-free runs of [s], left to
    right. *)
Inductive Words : string -> list string -> Prop :=
| Words_blank sp : blank sp -> Words sp []
| Words_word sp w rest ws :
    blank sp -> w <> "" -> solid w -> starts_blank rest -> Words rest ws ->
    Words (sp ++ w ++ rest) (w :: ws).

(** Digits, optionally followed by one decimal point and digits. *)
Inductive Numeric : string -> Prop :=
| Numeric_int d : digits d -> Numeric d
| Numeric_dec d1 d2 : digits d1 -> digits d2 -> Numeric (d1 ++ "." ++ d2).

(** A token the extraction keeps. *)
Definition Candidate (t : string) : Prop :=
  3 <= String.length t /\ ~ Numeric t.

(** [x] occurs in [s] when case is ignored. *)
Definition contains_nocase (x s : string) : Prop :=
  exists a b, lower s = (a ++ lower x ++ b)%string.



(** Text of ASCII characters only (code points below 128). On such text
    the character classes and the case maps of [Text] are those of Python's
    [str]; a statement that needs them to be carries this as a hypothesis. *)
Definition is_ascii (s : string) : Prop :=
  all_chars (fun c => nat_of_ascii c <? 128) s = true.

(** One of the letters [a] to [z]. *)
Definition is_lower_letter (c : ascii) : bool :=
  (97 <=? nat_of_ascii c) && (nat_of_ascii c <=? 122).

(** One of the letters [A] to [Z]. *)
Definition is_upper_letter (c : ascii) : bool :=
  (65 <=? nat_of_ascii c) && (nat_of_ascii c <=? 90).

(** Does [s] begin with a whitespace character? *)
Definition starts_space (s : string) : bool :=
  match s with
  | EmptyString => false
  | String c _ => is_space c
  end.

(** ** The engine, one transaction at a time *)

Section RowWise.
Context {engine : RegexEngine}.

(** What one pattern says about one normalised details text [x]; an empty
    pattern and a pattern that does not compile say nothing. *)
Definition pattern_matches (x : string) (p : string * bool) : bool :=
  let (pattern, is_regex) := p in
  negb (is_empty pattern) &&
  (if is_regex then
     match re_compile pattern with
     | Some compiled => re_search compiled x
     | None => false
     end
   else is_infix (upper (lower pattern)) (upper x)).

(** A rule matches when one of its patterns does. *)
Definition rule_matches (rule : CategoryRule) (x : string) : bool :=
  existsb (pattern_matches x) (combine (patterns rule) (is_regex_flags rule)).

(** The effect of one rule, then of a rule list, on one category cell. *)
Definition step_cell (rule : CategoryRule) (x : string) (c : option string)
    : option string :=
  if is_uncategorized c && rule_matches rule x then Some (name rule) else c.

Definition classify_cell (rules : list CategoryRule) (x : string)
    (c : option string) : option string :=
  fold_left (fun c rule => step_cell rule x c) rules c.

Definition classify (rules : list CategoryRule) (t : Transaction) : Transaction :=
  {| Details := Details t;
     Category := classify_cell rules (lower (Details t)) (Category t) |}.

(** First match wins: an uncategorized transaction takes the name of the
    first rule of the list that matches its details; any other
    transaction is left as it is. *)
Definition first_match (rules : list CategoryRule) (t : Transaction) : Transaction :=
  if is_uncategorized (Category t) then
    match find (fun rule => rule_matches rule (lower (Details t))) rules with
    | Some rule => {| Details := Details t; Category := Some (name rule) |}
    | None => t
    end
  else t.

(** Every pattern the engine would hand to [re.compile] compiles. *)
Definition pattern_compiles (p : string * bool) : bool :=
  let (pattern, is_regex) := p in
  is_empty pattern || negb is_regex ||
  match re_compile pattern with Some _ => true | None => false end.

Definition rule_compiles (rule : CategoryRule) : bool :=
  forallb pattern_compiles (combine (patterns rule) (is_regex_flags rule)).

Definition rules_compile (rules : list CategoryRule) : bool :=
  forallb rule_compiles rules.
End RowWise.

(** The transactions of a frame as the engine starts on them. *)
Definition initial_rows (df : DataFrame) : list Transaction :=
  match df with
  | WithoutCategory details =>
      map (fun d => {| Details := d; Category := Some Uncategorized |}) details
  | WithCategory rows => rows
  end.

(** No rule carries the name of the default category. *)
Definition no_default_rule (rules : list CategoryRule) : Prop :=
  Forall (fun rule => name rule <> Uncategorized) rules.

(** How the engine may change one transaction: the details stay, a
    category other than "Uncategorized" stays, a category never becomes
    null, and a transaction that no rule matches keeps what it had. *)
Definition classified_from {engine : RegexEngine} (rules : list CategoryRule)
    (t t' : Transaction) : Prop :=
  Details t' = Details t /\
  (Category t <> None -> Category t' <> None) /\
  (Category t <> Some Uncategorized -> Category t' = Category t) /\
  ((forall r, In r rules -> rule_matches r (lower (Details t)) = false) ->
   Category t' = Category t).

(** ** The rule builder, one category at a time *)

(** A category yields a rule when it is not the default one and has an
    enabled keyword. *)
Definition survives (cat : CategoryEntry) : bool :=
  negb (category_name cat =? Uncategorized)%string &&
  existsb enabled (category_keywords cat).

(** The rule of a category: its enabled keywords, in the order given. *)
Definition rule_of_category (cat : CategoryEntry) : CategoryRule :=
  {| name := category_name cat;
     priority := category_priority cat;
     patterns := map pattern (filter enabled (category_keywords cat));
     is_regex_flags := map is_regex (filter enabled (category_keywords cat)) |}.

Definition has_priority (p : Z) (rule : CategoryRule) : bool :=
  (priority rule =? p)%Z.

(** ** The fuzzy fallback *)

(** The score of a candidate against the normalised details. *)
Definition score_of {rapidfuzz : Rapidfuzz} (details candidate : string) : Q :=
  token_sort_ratio (normalize_text details) candidate.

(** [best] is the leftmost candidate of greatest score. *)
Definition best_candidate {rapidfuzz : Rapidfuzz} (details : string)
    (candidates : list string) (best : string) : Prop :=
  exists pre post,
    candidates = pre ++ best :: post /\
    (forall c, In c pre -> (score_of details c < score_of details best)%Q) /\
    (forall c, In c post -> (score_of details c <= score_of details best)%Q).

(** ** The learning loop *)

(** The store after one keyword more. *)
Definition with_keyword (db : Database) (category_id : Z) (keyword : string) : Database :=
  {| categories := categories db;
     keywords := keywords db ++
       [{| kw_id := (keywords_seq db + 1)%Z; kw_category_id := category_id;
           kw_pattern := keyword; kw_is_regex := false; kw_enabled := true |}];
     keywords_seq := (keywords_seq db + 1)%Z |}.

(** ** The snapshot, one category row at a time *)

(** The keyword rows of category [category_id], in the order fetched. *)
Definition keyword_rows_of (db : Database) (category_id : Z) : list KeywordRow :=
  filter (fun k => (kw_category_id k =? category_id)%Z)
         (stable_sort keyword_row_le (keywords db)).

(** The dictionary of one category row. *)
Definition category_entry (db : Database) (row : CategoryRow) : CategoryEntry :=
  {| category_id := cat_id row;
     category_name := cat_name row;
     category_priority := cat_priority row;
     category_keywords := map keyword_of_row (keyword_rows_of db (cat_id row)) |}.

(** The primary keys and the UNIQUE constraint of the schema, and the
    AUTOINCREMENT counter above every id in use. *)
Definition store_ok (st : Store) : Prop :=
  NoDup (map cat_name (categories (tables st))) /\
  NoDup (map cat_id (categories (tables st))) /\
  Forall (fun row => (cat_id row <= categories_seq st)%Z) (categories (tables st)).

(** The order of the snapshot and of the rules: by priority, then by name. *)
Definition entry_before (a b : CategoryEntry) : Prop :=
  (category_priority a < category_priority b)%Z \/
  (category_priority a = category_priority b /\
   (category_name a <=? category_name b)%string = true).

Definition rule_before (a b : CategoryRule) : Prop :=
  (priority a < priority b)%Z \/
  (priority a = priority b /\ (name a <=? name b)%string = true).

(** What one learnt keyword row is: enabled, plain, made of the details of a
    changed row of the batch and filed under the id that the new category
    name of that row has in the store. *)
Definition learnt_from (db : Database) (merged : list MergedRow) (k : KeywordRow) : Prop :=
  kw_enabled k = true /\ kw_is_regex k = false /\
  exists row,
    In row merged /\ m_Category row <> m_NewCategory row /\
    extract_keyword_from_details (m_Details row) = Some (kw_pattern k) /\
    get_category_id_by_name db (m_NewCategory row) = Some (kw_category_id k).

(** [db'] holds the rows of [db], in place, and possibly more after them. *)
Definition extends (db db' : Database) : Prop :=
  (exists more, categories db' = categories db ++ more) /\
  (exists more, keywords db' = keywords db ++ more).

(** The dictionary of a category after [update_category_priority]. *)
Definition reprioritized (cid : Z) (priority : Z) (c : CategoryEntry) : CategoryEntry :=
  if (category_id c =? cid)%Z then
    {| category_id := category_id c; category_name := category_name c;
       category_priority := priority; category_keywords := category_keywords c |}
  else c.

(** The required column names in sorted order. *)
Definition sorted_required : list string :=
  ["Amount"; "Date"; "Debit/Credit"; "Details"].

Definition missing_message : string :=
  "El CSV no contiene las columnas obligatorias: ".

(** ** Words and numbers of a text of code points *)

Module UnicodeSpec.
Import Unicode.

Section Vocabulary.
Context {ucd : UnicodeData}.

(** A text made of whitespace only, and one with no whitespace in it. *)
Definition blank (s : str) : Prop := forallb isspace s = true.
Definition solid (s : str) : Prop :=
  forallb (fun c => negb (isspace c)) s = true.
Definition decimals (s : str) : Prop :=
  s <> [] /\ forallb isdecimal s = true.

Definition starts_blank (s : str) : Prop :=
  match s with
  | [] => True
  | c :: _ => isspace c = true
  end.

Definition starts_space (s : str) : bool :=
  match s with
  | [] => false
  | c :: _ => isspace c
  end.

(** [Words s ws]: [ws] are the maximal whitespace-free runs of [s], left to
    right. *)
Inductive Words : str -> list str -> Prop :=
| Words_blank sp : blank sp -> Words sp []
| Words_word sp w rest ws :
    blank sp -> w <> [] -> solid w -> starts_blank rest -> Words rest ws ->
    Words (sp ++ w ++ rest) (w :: ws).

(** Digits, optionally followed by one full stop and digits. *)
Inductive Numeric : str -> Prop :=
| Numeric_int d : decimals d -> Numeric d
| Numeric_dec d1 d2 :
    decimals d1 -> decimals d2 -> Numeric (d1 ++ full_stop :: d2).

(** A token the extraction keeps: three code points or more, not a
    number. *)
Definition Candidate (t : str) : Prop :=
  3 <= List.length t /\ ~ Numeric t.

End Vocabulary.
End UnicodeSpec.

(** ** Concrete rules and batches used in the examples *)

Module Scenario.

Definition rule (n : string) (prio : Z) (pats : list (string * bool)) : CategoryRule :=
  {| name := n; priority := prio;
     patterns := map fst pats; is_regex_flags := map snd pats |}.

Definition supermercado := rule "Supermercado" 1 [("LULU", false)].
Definition entretenimiento := rule "Entretenimiento" 2 [("NETFLIX", false)].
Definition two_rules := [supermercado; entretenimiento].
Definition two_transactions :=
  WithoutCategory ["COMPRA LULU HYPERMARKET"; "PAGO NETFLIX"].

(** A rule that carries the name of the default category. *)
Definition default_named := rule "Uncategorized" 0 [("LULU", false)].

(** A rule whose first pattern is a malformed regular expression
    ("nothing to repeat"), followed by a plain keyword. *)
Definition starred := rule "Entretenimiento" 2 [("*NETFLIX", true); ("NETFLIX", false)].

(** A rule with an empty pattern only. *)
Definition hollow := rule "Varios" 1 [("", false)].

(** A batch that comes with its [Category] column. *)
Definition categorized :=
  WithCategory [ {| Details := "ENTRADA CINE"; Category := Some "Ocio" |};
                 {| Details := "CAJERO"; Category := None |} ].


(** A store with the default category and one user category. *)
Definition store : Database :=
  {| categories :=
       [ {| cat_id := 1; cat_name := "Uncategorized"; cat_priority := 999 |};
         {| cat_id := 2; cat_name := "Supermercado"; cat_priority := 10 |} ];
     keywords := [];
     keywords_seq := 0 |}.

(** A snapshot with one category and one enabled keyword. *)
Definition snapshot (kw : string) : list CategoryEntry :=
  [ {| category_id := 2; category_name := "Supermercado";
       category_priority := 10;
       category_keywords :=
         [ {| id := 1; pattern := kw; is_regex := false; enabled := true |} ] |} ].

(** A snapshot with the default category, a category whose only keyword
    is disabled, and two categories of one priority. *)
Definition kw (i : Z) (p : string) (on : bool) : KeywordEntry :=
  {| id := i; pattern := p; is_regex := false; enabled := on |}.

Definition mixed_snapshot : list CategoryEntry :=
  [ {| category_id := 4; category_name := "Ocio"; category_priority := 20;
       category_keywords := [kw 5 "CINE" true; kw 6 "TEATRO" false; kw 7 "NETFLIX" true] |};
    {| category_id := 2; category_name := "Supermercado"; category_priority := 10;
       category_keywords := [kw 1 "LULU" true] |};
    {| category_id := 3; category_name := "Transporte"; category_priority := 10;
       category_keywords := [kw 2 "TAXI" true] |};
    {| category_id := 5; category_name := "Viajes"; category_priority := 5;
       category_keywords := [kw 3 "HOTEL" false] |};
    {| category_id := 1; category_name := "Uncategorized"; category_priority := 999;
       category_keywords := [kw 4 "VARIOS" true] |} ].

(** An edit of the table: one transaction moved to a category of the
    store, one moved to a category the store does not have. *)
Definition edit_known : MergedRow :=
  {| m_Details := "COMPRA CARREFOUR EXPRESS";
     m_Category := "Uncategorized"; m_NewCategory := "Supermercado" |}.

Definition edit_unknown : MergedRow :=
  {| m_Details := "COMPRA CARREFOUR EXPRESS";
     m_Category := "Uncategorized"; m_NewCategory := "Farmacia" |}.

(** A scorer for the examples: 100 for equal strings, 0 otherwise. *)
Definition exact_scorer (available : bool) : Rapidfuzz :=
  {| HAS_RAPIDFUZZ := available;
     token_sort_ratio := fun a b => if (a =? b)%string then 100%Q else 0%Q |}.

End Scenario.

(* ===================================================================== *)
(** * Facts about the text primitives                                     *)
(* ===================================================================== *)

Ltac by_cases_on_char c :=
  destruct c as [[] [] [] [] [] [] [] []]; vm_compute; try reflexivity; try discriminate.

Lemma upper_lower_char c : upper_char (lower_char c) = upper_char c.
Proof. by_cases_on_char c. Qed.

Lemma lower_upper_char c : lower_char (upper_char c) = lower_char c.
Proof. by_cases_on_char c. Qed.

Lemma lower_char_idem c : lower_char (lower_char c) = lower_char c.
Proof. by_cases_on_char c. Qed.

Lemma is_space_upper_char c : is_space (upper_char c) = is_space c.
Proof. by_cases_on_char c. Qed.

Lemma map_chars_map_chars f g s :
  map_chars f (map_chars g s) = map_chars (fun c => f (g c)) s.
Proof. induction s; simpl; congruence. Qed.

Lemma map_chars_ext f g s :
  (forall c, f c = g c) -> map_chars f s = map_chars g s.
Proof. intros E; induction s; simpl; congruence. Qed.

Lemma map_chars_app f a b :
  map_chars f (a ++ b)%string = (map_chars f a ++ map_chars f b)%string.
Proof. induction a; simpl; congruence. Qed.

Lemma upper_lower s : upper (lower s) = upper s.
Proof.
  unfold upper, lower. rewrite map_chars_map_chars.
  apply map_chars_ext, upper_lower_char.
Qed.

Lemma lower_upper s : lower (upper s) = lower s.
Proof.
  unfold upper, lower. rewrite map_chars_map_chars.
  apply map_chars_ext, lower_upper_char.
Qed.

Lemma is_empty_true s : is_empty s = true <-> s = "".
Proof. destruct s; simpl; split; congruence. Qed.

Lemma is_empty_false s : is_empty s = false <-> s <> "".
Proof. destruct s; simpl; split; congruence. Qed.

Lemma is_empty_map_chars f s : is_empty (map_chars f s) = is_empty s.
Proof. now destruct s. Qed.

Lemma app_empty_r (s : string) : (s ++ "")%string = s.
Proof. induction s; simpl; congruence. Qed.

Lemma solid_upper s : solid s -> solid (upper s).
Proof.
  unfold solid. induction s; simpl; auto.
  rewrite is_space_upper_char. intros H. apply andb_true_iff in H as [-> H].
  simpl. auto.
Qed.

(** ** Containment *)

Lemma prefix_spec p s : prefix p s = true <-> exists b, s = (p ++ b)%string.
Proof.
  revert s. induction p as [|c p IH]; intros s.
  - split; [intros _; now exists s | intros _; now destruct s].
  - destruct s as [|d s]; simpl.
    + split; [discriminate | intros [b H]; discriminate].
    + destruct (ascii_dec c d) as [->|N].
      * rewrite IH. split; intros [b H]; exists b; congruence.
      * split; [discriminate | intros [b H]; congruence].
Qed.

Lemma is_infix_nil p : is_infix p "" = prefix p "".
Proof. simpl. apply orb_false_r. Qed.

Lemma is_infix_cons p c s :
  is_infix p (String c s) = prefix p (String c s) || is_infix p s.
Proof. reflexivity. Qed.

Lemma is_infix_spec p s :
  is_infix p s = true <-> exists a b, s = (a ++ p ++ b)%string.
Proof.
  induction s as [|c s IH].
  - rewrite is_infix_nil, prefix_spec. split.
    + intros [b H]. exists "", b. exact H.
    + intros [a [b H]]. destruct a; simpl in H; [eauto | discriminate].
  - rewrite is_infix_cons, orb_true_iff, IH, prefix_spec. split.
    + intros [[b H] | [a [b H]]].
      * exists "", b. exact H.
      * exists (String c a), b. simpl. congruence.
    + intros [a [b H]]. destruct a as [|d a]; simpl in H.
      * left. eauto.
      * right. exists a, b. congruence.
Qed.

(** ** Stripping *)

Lemma blank_cons c s : blank (String c s) <-> is_space c = true /\ blank s.
Proof. unfold blank; simpl. apply andb_true_iff. Qed.

Lemma solid_cons c s : solid (String c s) <-> is_space c = false /\ solid s.
Proof.
  unfold solid; simpl. rewrite andb_true_iff, negb_true_iff. reflexivity.
Qed.

Lemma lstrip_blank_app sp x : blank sp -> lstrip (sp ++ x) = lstrip x.
Proof.
  induction sp as [|c sp IH]; simpl; auto.
  intros H. apply blank_cons in H as [-> H]. auto.
Qed.

Lemma lstrip_solid w : solid w -> lstrip w = w.
Proof.
  destruct w as [|c w]; simpl; auto.
  intros H. apply solid_cons in H as [-> _]. reflexivity.
Qed.

Lemma lstrip_solid_app w x : w <> "" -> solid w -> lstrip (w ++ x) = (w ++ x)%string.
Proof.
  destruct w as [|c w]; [congruence|]. simpl.
  intros _ H. apply solid_cons in H as [-> _]. reflexivity.
Qed.

Lemma rstrip_blank sp : blank sp -> rstrip sp = "".
Proof.
  induction sp as [|c sp IH]; simpl; auto.
  intros H. apply blank_cons in H as [-> H]. now rewrite IH.
Qed.

Lemma rstrip_solid_app w x : solid w -> rstrip (w ++ x) = (w ++ rstrip x)%string.
Proof.
  induction w as [|c w IH]; simpl; auto.
  intros H. apply solid_cons in H as [-> H]. simpl. now rewrite IH.
Qed.

Lemma rstrip_blank_app sp x :
  rstrip x <> "" -> rstrip (sp ++ x) = (sp ++ rstrip x)%string.
Proof.
  intros N. induction sp as [|c sp IH]; simpl; auto.
  rewrite IH. destruct (sp ++ rstrip x)%string eqn:E.
  - destruct sp; simpl in E; [congruence | discriminate].
  - simpl. now rewrite andb_false_r.
Qed.

Lemma rstrip_solid w : solid w -> rstrip w = w.
Proof.
  intros H. rewrite <- (app_empty_r w) at 1.
  rewrite rstrip_solid_app by assumption. simpl. apply app_empty_r.
Qed.

Lemma strip_solid w : solid w -> strip w = w.
Proof.
  intros H. unfold strip. rewrite lstrip_solid by assumption.
  now apply rstrip_solid.
Qed.

(** ** Splitting on whitespace runs *)

Lemma re_split_ws_not_nil s : re_split_ws s <> [].
Proof.
  induction s as [|c s IH]; simpl; [discriminate|].
  destruct (is_space c).
  - destruct s as [|c' s']; [discriminate|].
    destruct (is_space c'); [exact IH | discriminate].
  - destruct (re_split_ws s); discriminate.
Qed.

Lemma re_split_ws_solid_app w z :
  solid w ->
  exists t ts, re_split_ws z = t :: ts /\
               re_split_ws (w ++ z) = (w ++ t)%string :: ts.
Proof.
  induction w as [|c w IH]; intros H.
  - destruct (re_split_ws z) as [|t ts] eqn:E.
    + now apply re_split_ws_not_nil in E.
    + exists t, ts. simpl. auto.
  - apply solid_cons in H as [Hc H].
    destruct (IH H) as (t & ts & E1 & E2).
    exists t, ts. split; [exact E1|].
    simpl. rewrite Hc, E2. reflexivity.
Qed.

Lemma re_split_ws_space c s :
  is_space c = true ->
  re_split_ws (String c s) =
  match s with
  | EmptyString => [EmptyString; EmptyString]
  | String c' _ =>
      if is_space c' then re_split_ws s else EmptyString :: re_split_ws s
  end.
Proof. intros H. simpl. now rewrite H. Qed.

Lemma re_split_ws_blank_app sp y :
  blank sp -> starts_space y = false -> y <> "" ->
  re_split_ws (sp ++ y) =
  if is_empty sp then re_split_ws y else "" :: re_split_ws y.
Proof.
  intros Hb Hy Ny. induction sp as [|c sp IH]; [reflexivity|].
  apply blank_cons in Hb as [Hc Hb]. specialize (IH Hb).
  change (String c sp ++ y)%string with (String c (sp ++ y)).
  rewrite re_split_ws_space by assumption.
  destruct sp as [|c' sp'].
  - destruct y as [|d y]; [congruence|].
    simpl in Hy. change ("" ++ String d y)%string with (String d y).
    cbv iota. now rewrite Hy.
  - apply blank_cons in Hb as [Hc' _].
    change (String c' sp' ++ y)%string with (String c' (sp' ++ y)) in *.
    cbv iota. rewrite Hc'. exact IH.
Qed.

Lemma Words_nil_blank s : Words s [] -> blank s.
Proof. now inversion 1. Qed.

Lemma Words_cons_not_empty s w ws : Words s (w :: ws) -> s <> "".
Proof.
  inversion 1; subst. destruct sp; simpl; [|discriminate].
  destruct w; [congruence | discriminate].
Qed.

Lemma starts_space_solid_app w x :
  w <> "" -> solid w -> starts_space (w ++ x) = false.
Proof.
  destruct w as [|c w]; [congruence|]. intros _ H.
  apply solid_cons in H as [H _]. exact H.
Qed.

Lemma Words_split_rstrip s ws :
  Words s ws -> ws <> [] ->
  re_split_ws (rstrip s) = if starts_space s then "" :: ws else ws.
Proof.
  induction 1 as [sp Hb | sp w rest ws Hb Nw Hw Hr HW IH]; [congruence|].
  intros _.
  assert (Erest : re_split_ws (rstrip rest) = "" :: ws \/
                  (rstrip rest = "" /\ ws = [])).
  { destruct ws as [|w' ws'].
    - right. split; [|reflexivity].
      apply rstrip_blank. now apply Words_nil_blank.
    - left. rewrite IH by discriminate.
      apply Words_cons_not_empty in HW.
      destruct rest as [|c rest']; [congruence|].
      simpl in Hr |- *. now rewrite Hr. }
  assert (Ew : re_split_ws (w ++ rstrip rest) = w :: ws).
  { destruct (re_split_ws_solid_app (rstrip rest) Hw) as (t & ts & E1 & E2).
    rewrite E2. destruct Erest as [E | [E ->]].
    - rewrite E in E1. injection E1 as <- <-. now rewrite app_empty_r.
    - rewrite E in E1. simpl in E1. injection E1 as <- <-.
      now rewrite app_empty_r. }
  assert (Nz : (w ++ rstrip rest)%string <> "").
  { destruct w; [congruence | discriminate]. }
  rewrite rstrip_blank_app; rewrite rstrip_solid_app by assumption; auto.
  rewrite re_split_ws_blank_app; auto.
  - rewrite Ew. destruct sp as [|c sp]; simpl.
    + now rewrite starts_space_solid_app.
    + now apply blank_cons in Hb as [-> _].
  - now apply starts_space_solid_app.
Qed.

(** The tokens of the extraction are the words of the details. *)
Lemma re_split_ws_strip_Words s w ws :
  Words s (w :: ws) -> re_split_ws (strip s) = w :: ws.
Proof.
  intros H. inversion H as [|sp w' rest ws' Hb Nw Hw Hr HW]; subst.
  unfold strip. rewrite lstrip_blank_app by assumption.
  rewrite lstrip_solid_app by assumption.
  assert (H' : Words ("" ++ w ++ rest) (w :: ws)).
  { apply Words_word; auto. reflexivity. }
  simpl in H'. rewrite (Words_split_rstrip H') by discriminate.
  now rewrite starts_space_solid_app.
Qed.

Lemma re_split_ws_strip_blank s : Words s [] -> re_split_ws (strip s) = [""].
Proof.
  intros H. apply Words_nil_blank in H. unfold strip.
  rewrite <- (app_empty_r s), lstrip_blank_app by assumption. reflexivity.
Qed.

(** Every string has its words. *)
Lemma Words_total s : exists ws, Words s ws.
Proof.
  induction s as [|c s [ws IH]].
  - exists []. now constructor.
  - destruct (is_space c) eqn:Hc.
    + inversion IH as [sp Hb | sp w rest ws' Hb Nw Hw Hr HW]; subst.
      * exists []. constructor. now apply blank_cons.
      * exists (w :: ws').
        change (Words (String c sp ++ w ++ rest) (w :: ws')).
        constructor; auto. now apply blank_cons.
    + inversion IH as [sp Hb | sp w rest ws' Hb Nw Hw Hr HW]; subst.
      * exists [String c ""].
        change (Words ("" ++ String c "" ++ s) [String c ""]).
        constructor; auto; try reflexivity; try discriminate.
        -- apply solid_cons. split; [exact Hc | reflexivity].
        -- destruct s; simpl; auto. now apply blank_cons in Hb as [? _].
      * destruct sp as [|c' sp'].
        -- exists (String c w :: ws').
           change (Words ("" ++ String c w ++ rest) (String c w :: ws')).
           constructor; auto; try reflexivity; try discriminate.
           apply solid_cons. auto.
        -- exists (String c "" :: w :: ws').
           change (Words ("" ++ String c "" ++ (String c' sp' ++ w ++ rest))
                         (String c "" :: w :: ws')).
           constructor; auto; try reflexivity; try discriminate.
           ++ apply solid_cons. split; [exact Hc | reflexivity].
           ++ simpl. now apply blank_cons in Hb as [? _].
Qed.

Lemma Words_solid s ws : Words s ws -> Forall (fun w => w <> "" /\ solid w) ws.
Proof. induction 1; constructor; auto. Qed.

(** ** Numeric tokens *)

Lemma span_digits_spec t d r :
  span_digits t = (d, r) ->
  t = (d ++ r)%string /\ all_chars is_digit d = true /\
  match r with String c _ => is_digit c = false | EmptyString => True end.
Proof.
  revert d r. induction t as [|c t IH]; simpl; intros d r E.
  - injection E as <- <-. auto.
  - destruct (is_digit c) eqn:Hc.
    + destruct (span_digits t) as [d' r'].
      injection E as <- <-. destruct (IH _ _ eq_refl) as (-> & Hd & Hr).
      simpl. rewrite Hc. auto.
    + injection E as <- <-. auto.
Qed.

Lemma span_digits_app d r :
  all_chars is_digit d = true ->
  match r with String c _ => is_digit c = false | EmptyString => True end ->
  span_digits (d ++ r) = (d, r).
Proof.
  intros Hd Hr. induction d as [|c d IH]; simpl.
  - destruct r as [|c r]; [reflexivity|]. simpl. now rewrite Hr.
  - simpl in Hd. apply andb_true_iff in Hd as [-> Hd]. now rewrite IH.
Qed.

Lemma fullmatch_number_spec t : fullmatch_number t = true <-> Numeric t.
Proof.
  unfold fullmatch_number. split.
  - destruct (span_digits t) as [d r] eqn:E.
    apply span_digits_spec in E as (-> & Hd & Hr).
    intros H. apply andb_true_iff in H as [Nd H].
    apply negb_true_iff, is_empty_false in Nd.
    destruct r as [|c r'].
    + rewrite app_empty_r. now constructor.
    + destruct (Ascii.eqb_spec c ".") as [->|]; [|discriminate].
      destruct (span_digits r') as [d' r''] eqn:E'.
      apply span_digits_spec in E' as (-> & Hd' & _).
      apply andb_true_iff in H as [Nd' Er].
      apply negb_true_iff, is_empty_false in Nd'.
      apply is_empty_true in Er. subst r''. rewrite app_empty_r.
      now apply (Numeric_dec (d1 := d) (d2 := d')).
  - intros [d [Nd Hd] | d1 d2 [N1 H1] [N2 H2]].
    + rewrite <- (app_empty_r d), span_digits_app by auto.
      apply is_empty_false in Nd. now rewrite Nd.
    + rewrite span_digits_app by (simpl; auto).
      apply is_empty_false in N1. rewrite N1.
      change ("." ++ d2)%string with (String "."%char d2). cbv iota.
      rewrite Ascii.eqb_refl.
      rewrite <- (app_empty_r d2), span_digits_app by auto.
      apply is_empty_false in N2. now rewrite N2.
Qed.

Lemma is_candidate_spec t : is_candidate t = true <-> Candidate t.
Proof.
  unfold is_candidate, Candidate.
  rewrite andb_true_iff, Nat.leb_le, negb_true_iff.
  rewrite <- fullmatch_number_spec. now rewrite not_true_iff_false.
Qed.

(** ** The longest candidate *)

Lemma max_by_len_spec rest : forall b,
  exists pre post,
    b :: rest = pre ++ max_by_len b rest :: post /\
    (forall c, In c pre -> String.length c < String.length (max_by_len b rest)) /\
    (forall c, In c post -> String.length c <= String.length (max_by_len b rest)) /\
    String.length b <= String.length (max_by_len b rest).
Proof.
  induction rest as [|x rest IH]; intros b; simpl.
  - exists [], []. simpl. repeat split; auto; contradiction.
  - destruct (String.length b <? String.length x) eqn:L.
    + apply Nat.ltb_lt in L.
      destruct (IH x) as (pre & post & E & Hpre & Hpost & Hx).
      remember (max_by_len x rest) as m.
      exists (b :: pre), post. rewrite E.
      split; [reflexivity|]. split; [|split; [exact Hpost | lia]].
      intros c [<- | Hc]; [lia | auto].
    + apply Nat.ltb_ge in L.
      destruct (IH b) as (pre & post & E & Hpre & Hpost & Hb).
      remember (max_by_len b rest) as m.
      destruct pre as [|b' pre]; simpl in E; injection E as Eb Er.
      * exists [], (x :: rest). subst b.
        split; [reflexivity|]. split; [intros c []|]. split; [|lia].
        intros c [<- | Hc]; [lia|]. apply Hpost. now rewrite <- Er.
      * exists (b :: x :: pre), post. subst b' rest.
        split; [reflexivity|]. split; [|split; [exact Hpost | exact Hb]].
        intros c [<- | [<- | Hc]].
        -- apply Hpre. now left.
        -- specialize (Hpre b (or_introl eq_refl)). lia.
        -- apply Hpre. now right.
Qed.

Lemma filter_split (A : Type) (f : A -> bool) l : forall a x b,
  filter f l = a ++ x :: b ->
  exists a' b', l = a' ++ x :: b' /\ filter f a' = a /\ filter f b' = b /\ f x = true.
Proof.
  induction l as [|y l IH]; intros a x b E; simpl in E.
  - destruct a; discriminate.
  - destruct (f y) eqn:Fy.
    + destruct a as [|a0 a]; simpl in E; injection E as -> E.
      * exists [], l. auto.
      * destruct (IH _ _ _ E) as (a' & b' & -> & <- & <- & Fx).
        exists (a0 :: a'), b'. simpl. rewrite Fy. auto.
    + destruct (IH _ _ _ E) as (a' & b' & -> & <- & <- & Fx).
      exists (y :: a'), b'. simpl. rewrite Fy. auto.
Qed.

Lemma extract_keyword_tokens details :
  extract_keyword_from_details details =
  match filter is_candidate (re_split_ws (strip details)) with
  | [] => None
  | c :: cs => Some (upper (max_by_len c cs))
  end.
Proof.
  unfold extract_keyword_from_details. now destruct details.
Qed.

Lemma extract_keyword_words details words :
  Words details words ->
  extract_keyword_from_details details =
  match filter is_candidate words with
  | [] => None
  | c :: cs => Some (upper (max_by_len c cs))
  end.
Proof.
  intros H. rewrite extract_keyword_tokens. destruct words as [|w ws].
  - now rewrite (re_split_ws_strip_blank H).
  - now rewrite (re_split_ws_strip_Words H).
Qed.

(** The extraction on the byte strings of [Text], as used by the store and
    the learning loop: the keyword is the leftmost longest word of the
    details among those of at least three characters that are not numeric,
    in upper case, and there is none exactly when no word qualifies. *)
Lemma extract_keyword_ascii_spec :
  (forall details words,
     Words details words ->
     (extract_keyword_from_details details = None <->
      forall w, In w words -> ~ Candidate w) /\
     (forall keyword,
        extract_keyword_from_details details = Some keyword ->
        exists pre best post,
          words = pre ++ best :: post /\ Candidate best /\
          keyword = upper best /\
          (forall c, In c pre -> Candidate c ->
                     String.length c < String.length best) /\
          (forall c, In c post -> Candidate c ->
                     String.length c <= String.length best))) /\
  extract_keyword_from_details "COMPRA LULU HYPERMARKET 45.67"
    = Some "HYPERMARKET".
Proof.
  split; [|reflexivity].
  intros details words HW. rewrite (extract_keyword_words HW).
  destruct (filter is_candidate words) as [|c cs] eqn:F.
  - split.
    + split; [|reflexivity]. intros _ w Hw Cw.
      apply is_candidate_spec in Cw.
      assert (Hin : In w (filter is_candidate words)) by (apply filter_In; auto).
      now rewrite F in Hin.
    + discriminate.
  - split.
    + split; [discriminate|]. intros H. exfalso.
      assert (Hin : In c (filter is_candidate words)) by (rewrite F; now left).
      apply filter_In in Hin as [Hin Cc]. apply (H c Hin).
      now apply is_candidate_spec.
    + intros keyword E. injection E as <-.
      destruct (max_by_len_spec cs c) as (pre & post & E & Hpre & Hpost & _).
      rewrite E in F.
      destruct (filter_split _ _ _ _ _ F) as (pre' & post' & -> & <- & <- & Fx).
      exists pre', (max_by_len c cs), post'.
      split; [reflexivity|]. split; [now apply is_candidate_spec|].
      split; [reflexivity|]. split.
      * intros k Hk Ck. apply Hpre, filter_In. split; auto.
        now apply is_candidate_spec.
      * intros k Hk Ck. apply Hpost, filter_In. split; auto.
        now apply is_candidate_spec.
Qed.

Ltac words_step sp w rest :=
  refine (@Words_word sp w rest _ _ _ _ _ _);
  [ reflexivity | discriminate | reflexivity | reflexivity | ].

Lemma Words_hypermarket :
  Words "COMPRA LULU HYPERMARKET 45.67" ["COMPRA"; "LULU"; "HYPERMARKET"; "45.67"].
Proof.
  words_step "" "COMPRA" " LULU HYPERMARKET 45.67".
  words_step " " "LULU" " HYPERMARKET 45.67".
  words_step " " "HYPERMARKET" " 45.67".
  words_step " " "45.67" "".
  apply Words_blank. reflexivity.
Defined.

Lemma extract_keyword_ascii_spec_witness :
  exists pre best post,
    ["COMPRA"; "LULU"; "HYPERMARKET"; "45.67"] = pre ++ best :: post /\
    Candidate best /\ "HYPERMARKET" = upper best /\
    (forall c, In c pre -> Candidate c -> String.length c < String.length best) /\
    (forall c, In c post -> Candidate c -> String.length c <= String.length best).
Proof.
  exact (proj2 (proj1 extract_keyword_ascii_spec
                  "COMPRA LULU HYPERMARKET 45.67"
                  ["COMPRA"; "LULU"; "HYPERMARKET"; "45.67"]
                  Words_hypermarket)
               "HYPERMARKET" eq_refl).
Defined.

(* ===================================================================== *)
(** * The vectorised engine, row by row                                   *)
(* ===================================================================== *)

Section MaskFacts.
Variable A : Type.

Lemma mask_or_map (f g : A -> bool) l :
  mask_or (map f l) (map g l) = map (fun x => f x || g x) l.
Proof. induction l; simpl; congruence. Qed.

Lemma mask_and_map (f g : A -> bool) l :
  mask_and (map f l) (map g l) = map (fun x => f x && g x) l.
Proof. induction l; simpl; congruence. Qed.

Lemma loc_assign_map (m : A -> bool) (c : A -> option string) v l :
  loc_assign (map m l) v (map c l) = map (fun x => if m x then Some v else c x) l.
Proof. induction l; simpl; congruence. Qed.

Lemma with_categories_map (d : A -> string) (c : A -> option string) l :
  with_categories (map d l) (map c l) =
  map (fun x => {| Details := d x; Category := c x |}) l.
Proof. induction l; simpl; congruence. Qed.

Lemma existsb_map_false (f : A -> bool) l :
  existsb (fun b => b) (map f l) = false -> forall x, In x l -> f x = false.
Proof.
  induction l as [|y l IH]; simpl; [contradiction|].
  intros H x [<- | Hx]; apply orb_false_iff in H as [H1 H2]; auto.
Qed.

Lemma existsb_map_true (f : A -> bool) l x :
  In x l -> f x = true -> existsb (fun b => b) (map f l) = true.
Proof.
  intros Hx Fx. induction l as [|y l IH]; simpl; [contradiction|].
  destruct Hx as [<- | Hx]; [now rewrite Fx|].
  rewrite IH by assumption. apply orb_true_r.
Qed.
End MaskFacts.

Lemma loc_assign_all_false (A : Type) (l : list A) v column :
  loc_assign (map (fun _ => false) l) v column = column.
Proof.
  revert column. induction l as [|x l IH]; intros [|c column]; simpl; auto.
  now rewrite IH.
Qed.

Lemma mask_and_all_false (A : Type) (l : list A) mask :
  exists k : list unit, mask_and mask (map (fun _ => false) l) = map (fun _ => false) k.
Proof.
  revert mask. induction l as [|x l IH]; intros [|m mask]; simpl;
    try (exists []; reflexivity).
  destruct (IH mask) as [k ->]. exists (tt :: k). simpl.
  now rewrite andb_false_r.
Qed.

Section EngineFacts.
Context {engine : RegexEngine}.

Lemma pattern_mask_cases dn pattern is_regex :
  is_empty pattern = false ->
  (pattern_mask dn pattern is_regex = ReError pattern /\
   is_regex = true /\ re_compile pattern = None) \/
  pattern_mask dn pattern is_regex =
    Ok (map (fun x => pattern_matches x (pattern, is_regex)) dn).
Proof.
  intros N. unfold pattern_mask, str_contains, pattern_matches.
  rewrite N. simpl. destruct is_regex.
  - destruct (re_compile pattern); auto.
  - auto.
Qed.

Lemma pattern_matches_empty x pattern is_regex :
  is_empty pattern = true -> pattern_matches x (pattern, is_regex) = false.
Proof. intros H. simpl. now rewrite H. Qed.

Lemma pattern_loop_cases (A : Type) (nrm : A -> string) rows zipped :
  forall f : A -> bool,
  (exists e, pattern_loop (map nrm rows) zipped (map f rows) = ReError e) \/
  pattern_loop (map nrm rows) zipped (map f rows) =
    Ok (map (fun t => f t || existsb (pattern_matches (nrm t)) zipped) rows).
Proof.
  induction zipped as [|[pattern is_regex] rest IH]; intros f.
  - right. simpl. f_equal. apply map_ext. intros t. now rewrite orb_false_r.
  - cbn [pattern_loop existsb]. destruct (is_empty pattern) eqn:N.
    + destruct (IH f) as [E | E]; [now left | right].
      rewrite E. f_equal. apply map_ext. intros t.
      now rewrite pattern_matches_empty.
    + destruct (pattern_mask_cases (map nrm rows) pattern is_regex N)
        as [(E & _ & _) | E]; rewrite E; unfold bind.
      * left. eauto.
      * rewrite map_map, mask_or_map.
        destruct (IH (fun t => f t || pattern_matches (nrm t) (pattern, is_regex)))
          as [E' | E']; [now left | right].
        rewrite E'. f_equal. apply map_ext. intros t.
        now rewrite orb_assoc.
Qed.

Lemma pattern_loop_compiles dn zipped :
  forallb pattern_compiles zipped = true ->
  forall mask, exists m, pattern_loop dn zipped mask = Ok m.
Proof.
  induction zipped as [|[pattern is_regex] rest IH]; intros C mask.
  - simpl. eauto.
  - simpl in C. apply andb_true_iff in C as [C1 C2].
    cbn [pattern_loop]. destruct (is_empty pattern) eqn:N; [now apply IH|].
    unfold pattern_mask, str_contains.
    destruct is_regex; simpl in *; [|now apply IH].
    destruct (re_compile pattern); [|discriminate]. now apply IH.
Qed.

Lemma pattern_loop_raises dn zipped pattern :
  In (pattern, true) zipped -> pattern <> "" -> re_compile pattern = None ->
  forall mask, exists e, pattern_loop dn zipped mask = ReError e.
Proof.
  intros Hin N C.
  induction zipped as [|[p r] rest IH]; intros mask; [contradiction|].
  cbn [pattern_loop]. destruct Hin as [E | Hin].
  - injection E as -> ->. apply is_empty_false in N. rewrite N.
    unfold pattern_mask, str_contains. rewrite C. simpl. eauto.
  - destruct (is_empty p); [now apply IH|].
    destruct (pattern_mask dn p r); simpl; [now apply IH | eauto].
Qed.

Lemma step_cell_fixed rule x c :
  is_uncategorized c = false -> step_cell rule x c = c.
Proof. intros H. unfold step_cell. now rewrite H. Qed.

Lemma classify_cell_fixed rules x c :
  is_uncategorized c = false -> classify_cell rules x c = c.
Proof.
  intros H. unfold classify_cell.
  induction rules as [|rule rest IH]; simpl; auto.
  now rewrite step_cell_fixed.
Qed.

Lemma classify_cell_cons rule rest x c :
  classify_cell (rule :: rest) x c = classify_cell rest x (step_cell rule x c).
Proof. reflexivity. Qed.

Lemma rule_loop_step (A : Type) (cat : A -> option string)
    rows rule m :
  loc_assign
    (mask_and (map is_uncategorized (map cat rows)) (map m rows))
    (name rule) (map cat rows) =
  map (fun t => if is_uncategorized (cat t) && m t then Some (name rule) else cat t)
      rows.
Proof.
  rewrite map_map, mask_and_map.
  apply (loc_assign_map (fun t => is_uncategorized (cat t) && m t) cat).
Qed.

(** The loop over the rules either raises or leaves in every cell what the
    row-wise fold computes. *)
Lemma rule_loop_cases (A : Type) (nrm : A -> string) rows rules :
  forall cat : A -> option string,
  (exists e, rule_loop (map nrm rows) (map cat rows) rules = ReError e) \/
  rule_loop (map nrm rows) (map cat rows) rules =
    Ok (map (fun t => classify_cell rules (nrm t) (cat t)) rows).
Proof.
  induction rules as [|rule rest IH]; intros cat.
  - right. reflexivity.
  - cbn [rule_loop].
    destruct (existsb (fun b => b) (map is_uncategorized (map cat rows))) eqn:U;
      cbn [negb].
    + rewrite (map_map nrm (fun _ : string => false) rows).
      destruct (pattern_loop_cases nrm rows
                  (combine (patterns rule) (is_regex_flags rule))
                  (fun _ => false)) as [[e E] | E]; rewrite E; unfold bind.
      * left. eauto.
      * rewrite rule_loop_step.
        destruct (IH (fun t => step_cell rule (nrm t) (cat t))) as [E' | E'].
        -- left. exact E'.
        -- right. exact E'.
    + right. f_equal. rewrite map_map in U. apply map_ext_in. intros t Ht.
      symmetry. apply classify_cell_fixed.
      apply (existsb_map_false _ _ U t Ht).
Qed.

Lemma rule_loop_compiles rules :
  rules_compile rules = true ->
  forall dn column, exists c, rule_loop dn column rules = Ok c.
Proof.
  induction rules as [|rule rest IH]; intros C dn column.
  - simpl. eauto.
  - apply andb_true_iff in C as [C1 C2]. cbn [rule_loop].
    destruct (negb _); [eauto|].
    destruct (pattern_loop_compiles dn _ C1 (map (fun _ => false) dn)) as [m ->].
    simpl. now apply IH.
Qed.

Lemma initial_rows_details df :
  map Details (initial_rows df) = details_column df.
Proof.
  destruct df; simpl; auto. rewrite map_map. simpl. apply map_id.
Qed.

Lemma initial_rows_category df :
  map Category (initial_rows df) = category_column df.
Proof. destruct df; simpl; auto. now rewrite map_map. Qed.

(** [apply_rules_vectorized] raises, or returns the row-wise
    classification of the frame. *)
Lemma apply_rules_cases df rules :
  (exists e, apply_rules_vectorized df rules = ReError e) \/
  apply_rules_vectorized df rules = Ok (map (classify rules) (initial_rows df)).
Proof.
  unfold apply_rules_vectorized.
  rewrite <- initial_rows_details, <- initial_rows_category, map_map.
  destruct (rule_loop_cases (fun t => lower (Details t)) (initial_rows df)
              rules Category) as [[e E] | E]; rewrite E; simpl.
  - left. eauto.
  - right. f_equal. apply with_categories_map.
Qed.

(** It returns when every regular expression of the rules compiles. *)
Lemma apply_rules_returns df rules :
  rules_compile rules = true ->
  apply_rules_vectorized df rules = Ok (map (classify rules) (initial_rows df)).
Proof.
  intros C. destruct (apply_rules_cases df rules) as [[e E] | E]; [|exact E].
  exfalso. unfold apply_rules_vectorized in E.
  destruct (rule_loop_compiles rules C (map lower (details_column df))
              (category_column df)) as [c Ec].
  rewrite Ec in E. discriminate.
Qed.

Lemma apply_rules_Ok_inv df rules out :
  apply_rules_vectorized df rules = Ok out ->
  out = map (classify rules) (initial_rows df).
Proof.
  intros E. destruct (apply_rules_cases df rules) as [[e E'] | E']; congruence.
Qed.

Lemma is_uncategorized_true c :
  is_uncategorized c = true <-> c = Some Uncategorized.
Proof.
  destruct c as [s|]; simpl.
  - rewrite String.eqb_eq. split; congruence.
  - split; discriminate.
Qed.

Lemma is_uncategorized_name rule :
  name rule <> Uncategorized -> is_uncategorized (Some (name rule)) = false.
Proof. intros N. simpl. now apply String.eqb_neq. Qed.

Lemma classify_first_match rules t :
  no_default_rule rules -> classify rules t = first_match rules t.
Proof.
  intros ND. unfold classify, first_match.
  destruct t as [d c]; simpl.
  destruct (is_uncategorized c) eqn:U; [|now rewrite classify_cell_fixed].
  induction ND as [|rule rest N ND IH]; [reflexivity|].
  rewrite classify_cell_cons. unfold step_cell at 1. rewrite U.
  cbn [find andb]. destruct (rule_matches rule (lower d)).
  - now rewrite classify_cell_fixed by now apply is_uncategorized_name.
  - exact IH.
Qed.

End EngineFacts.

(* ===================================================================== *)
(** * Classification: first match, failure, totality, empty patterns     *)
(* ===================================================================== *)

(** C1 (as amended): when every regular expression of the rules compiles
    and no rule is named "Uncategorized", a transaction is reassigned only
    if its category is "Uncategorized", and then takes the name of the
    first rule in list order one of whose non-empty patterns matches its
    details, so that later rules do not see it; the two-rule scenario gives
    ["Supermercado"; "Entretenimiento"]. *)
Theorem apply_rules_first_match_wins :
  (forall (engine : RegexEngine) df rules,
     rules_compile rules = true ->
     no_default_rule rules ->
     apply_rules_vectorized df rules =
       Ok (map (first_match rules) (initial_rows df))) /\
  apply_rules_vectorized (engine := sre_engine)
      Scenario.two_transactions Scenario.two_rules =
    Ok [ {| Details := "COMPRA LULU HYPERMARKET"; Category := Some "Supermercado" |};
         {| Details := "PAGO NETFLIX"; Category := Some "Entretenimiento" |} ].
Proof.
  split; [|reflexivity].
  intros engine df rules C ND. rewrite apply_rules_returns by assumption.
  f_equal. apply map_ext. intros t. now apply classify_first_match.
Qed.

Lemma apply_rules_first_match_wins_witness :
  rules_compile (engine := sre_engine) Scenario.two_rules = true /\
  no_default_rule Scenario.two_rules /\
  apply_rules_vectorized (engine := sre_engine)
      Scenario.two_transactions Scenario.two_rules =
    Ok (map (first_match (engine := sre_engine) Scenario.two_rules)
            (initial_rows Scenario.two_transactions)).
Proof.
  assert (ND : no_default_rule Scenario.two_rules).
  { repeat constructor; discriminate. }
  split; [reflexivity|]. split; [exact ND|].
  apply (proj1 apply_rules_first_match_wins sre_engine
           Scenario.two_transactions Scenario.two_rules eq_refl ND).
Defined.

(** C1 as stated fails on a rule list that holds a rule named
    "Uncategorized": the transaction it matches stays in the running and
    ends with the name of a later rule. *)
Lemma apply_rules_default_named_rule :
  find (fun r => rule_matches (engine := sre_engine) r (lower "COMPRA LULU"))
       [Scenario.default_named; Scenario.supermercado]
    = Some Scenario.default_named /\
  apply_rules_vectorized (engine := sre_engine)
      (WithoutCategory ["COMPRA LULU"])
      [Scenario.default_named; Scenario.supermercado]
    = Ok [ {| Details := "COMPRA LULU"; Category := Some "Supermercado" |} ] /\
  apply_rules_vectorized (engine := sre_engine)
      (WithoutCategory ["COMPRA LULU"])
      [Scenario.default_named; Scenario.supermercado]
    <> Ok (map (first_match (engine := sre_engine)
                  [Scenario.default_named; Scenario.supermercado])
               (initial_rows (WithoutCategory ["COMPRA LULU"]))).
Proof. repeat split; try reflexivity. vm_compute. discriminate. Qed.

Section EngineFailure.
Context {engine : RegexEngine}.

Lemma rule_loop_raises (A : Type) (nrm : A -> string) rows rule rules2
    pattern t rules1 :
  In (pattern, true) (combine (patterns rule) (is_regex_flags rule)) ->
  pattern <> "" -> re_compile pattern = None ->
  In t rows ->
  (forall r, In r rules1 -> rule_matches r (nrm t) = false) ->
  forall cat : A -> option string,
  cat t = Some Uncategorized ->
  exists e,
    rule_loop (map nrm rows) (map cat rows) (rules1 ++ rule :: rules2) = ReError e.
Proof.
  intros Hp N C Ht.
  induction rules1 as [|r rules1 IH]; intros NM cat Hc.
  - cbn [app rule_loop]. rewrite map_map.
    rewrite (existsb_map_true (fun x => is_uncategorized (cat x)) rows t Ht)
      by now apply is_uncategorized_true.
    cbn [negb].
    destruct (pattern_loop_raises (map nrm rows) _ Hp N C
                (map (fun _ => false) (map nrm rows))) as [e ->].
    unfold bind. eauto.
  - cbn [app rule_loop]. rewrite (map_map cat is_uncategorized).
    rewrite (existsb_map_true (fun x => is_uncategorized (cat x)) rows t Ht)
      by now apply is_uncategorized_true.
    cbn [negb]. rewrite (map_map nrm (fun _ : string => false) rows).
    destruct (pattern_loop_cases nrm rows
                (combine (patterns r) (is_regex_flags r))
                (fun _ => false)) as [[e E] | E]; rewrite E; unfold bind.
    + eauto.
    + rewrite <- (map_map cat is_uncategorized), rule_loop_step.
      apply (IH (fun r' Hr' => NM r' (or_intror Hr'))
                (fun x => step_cell r (nrm x) (cat x))).
      unfold step_cell. rewrite (NM r (or_introl eq_refl)).
      now rewrite andb_false_r.
Qed.

Lemma rule_loop_nothing_to_do dn column rules :
  existsb (fun b => b) (map is_uncategorized column) = false ->
  rule_loop dn column rules = Ok column.
Proof. intros U. destruct rules; simpl; auto. now rewrite U. Qed.

Lemma pattern_loop_all_empty dn zipped mask :
  (forall p, In p zipped -> fst p = "") ->
  pattern_loop dn zipped mask = Ok mask.
Proof.
  induction zipped as [|[p r] rest IH]; intros H; [reflexivity|].
  cbn [pattern_loop]. rewrite (H (p, r) (or_introl eq_refl) : p = "").
  simpl. apply IH. intros q Hq. apply H. now right.
Qed.

Lemma rule_loop_hollow_rule dn rule rules2 rules1 :
  (forall p, In p (patterns rule) -> p = "") ->
  forall column,
  rule_loop dn column (rules1 ++ rule :: rules2) =
  rule_loop dn column (rules1 ++ rules2).
Proof.
  intros H. induction rules1 as [|r rules1 IH]; intros column.
  - cbn [app rule_loop].
    destruct (existsb (fun b => b) (map is_uncategorized column)) eqn:U;
      cbn [negb].
    + rewrite pattern_loop_all_empty.
      * unfold bind.
        destruct (mask_and_all_false dn (map is_uncategorized column)) as [k ->].
        now rewrite loc_assign_all_false.
      * intros [p r] Hp. apply in_combine_l in Hp. now apply H.
    + now rewrite rule_loop_nothing_to_do.
  - cbn [app rule_loop]. destruct (negb _); [reflexivity|].
    destruct (pattern_loop dn _ _); unfold bind; auto.
Qed.
End EngineFailure.

(** C3 (as amended): a malformed regular expression is not isolated. Once
    its rule is reached with a transaction still "Uncategorized",
    [apply_rules_vectorized] raises the error of [re.compile] and returns no
    batch; the malformed pattern goes unnoticed only when every transaction
    already has another category, in which case the batch comes back
    unchanged. *)
Theorem malformed_regex_aborts_batch :
  forall (engine : RegexEngine) df rules1 rule rules2 pattern t,
    In (pattern, true) (combine (patterns rule) (is_regex_flags rule)) ->
    pattern <> "" ->
    re_compile pattern = None ->
    (In t (initial_rows df) ->
     Category t = Some Uncategorized ->
     (forall r, In r rules1 -> rule_matches r (lower (Details t)) = false) ->
     exists e,
       apply_rules_vectorized df (rules1 ++ rule :: rules2) = ReError e) /\
    ((forall t', In t' (initial_rows df) -> Category t' <> Some Uncategorized) ->
     apply_rules_vectorized df (rules1 ++ rule :: rules2) = Ok (initial_rows df)).
Proof.
  intros engine df rules1 rule rules2 pattern t Hp N C. split.
  - intros Ht Hc NM. unfold apply_rules_vectorized.
    rewrite <- initial_rows_details, <- initial_rows_category, map_map.
    destruct (@rule_loop_raises engine _ (fun x => lower (Details x))
                (initial_rows df) rule rules2 pattern t rules1
                Hp N C Ht NM Category Hc) as [e ->].
    unfold bind. eauto.
  - intros H. unfold apply_rules_vectorized.
    rewrite rule_loop_nothing_to_do.
    + unfold bind. rewrite <- initial_rows_details, <- initial_rows_category.
      rewrite with_categories_map. rewrite <- (map_id (initial_rows df)) at 2.
      f_equal. apply map_ext. now intros [].
    + rewrite <- initial_rows_category, map_map.
      destruct (existsb _ _) eqn:E; [|reflexivity]. exfalso.
      apply existsb_exists in E as [b [Hb ->]].
      apply in_map_iff in Hb as [t' [Hu Ht']].
      apply is_uncategorized_true in Hu. now apply (H t').
Qed.

Lemma malformed_regex_aborts_batch_witness :
  exists e,
    apply_rules_vectorized (engine := sre_engine)
      (WithoutCategory ["PAGO NETFLIX"]) ([] ++ Scenario.starred :: []) = ReError e.
Proof.
  refine (proj1 (malformed_regex_aborts_batch sre_engine
            (WithoutCategory ["PAGO NETFLIX"]) [] Scenario.starred []
            (pattern := "*NETFLIX")
            {| Details := "PAGO NETFLIX"; Category := Some Uncategorized |}
            _ _ _) _ _ _).
  - simpl. now left.
  - discriminate.
  - reflexivity.
  - simpl. now left.
  - reflexivity.
  - intros r [].
Defined.

(** C3 as stated fails: with the malformed pattern ["*NETFLIX"] ahead of
    the keyword ["NETFLIX"] in one rule, the call raises and the transaction
    that the keyword matches is not classified. *)
Lemma malformed_regex_not_isolated :
  Sre.parse "*NETFLIX" = Sre.Malformed /\
  apply_rules_vectorized (engine := sre_engine)
      (WithoutCategory ["PAGO NETFLIX"]) [Scenario.starred]
    = ReError "*NETFLIX" /\
  ~ exists out,
      apply_rules_vectorized (engine := sre_engine)
        (WithoutCategory ["PAGO NETFLIX"]) [Scenario.starred] = Ok out.
Proof.
  repeat split; try reflexivity. intros [out H]. vm_compute in H. discriminate.
Qed.

Section Totality.
Context {engine : RegexEngine}.

Lemma step_cell_not_null rule x c : c <> None -> step_cell rule x c <> None.
Proof. unfold step_cell. destruct (_ && _); [discriminate | auto]. Qed.

Lemma classify_cell_not_null rules x :
  forall c, c <> None -> classify_cell rules x c <> None.
Proof.
  induction rules as [|rule rest IH]; intros c H; [exact H|].
  rewrite classify_cell_cons. apply IH. now apply step_cell_not_null.
Qed.

Lemma classify_cell_no_match rules x :
  (forall r, In r rules -> rule_matches r x = false) ->
  forall c, classify_cell rules x c = c.
Proof.
  induction rules as [|rule rest IH]; intros NM c; [reflexivity|].
  rewrite classify_cell_cons. unfold step_cell.
  rewrite (NM rule (or_introl eq_refl)), andb_false_r.
  apply IH. intros r Hr. apply NM. now right.
Qed.
End Totality.

(** C4 (as amended): on a batch that has no [Category] column the call
    returns whenever the regular expressions of the rules compile, and
    whenever it returns every transaction carries a non-null category, which
    is "Uncategorized" for each transaction that no rule matches; on a batch
    that brings its own [Category] column, each transaction that no rule
    matches, and each whose category is not "Uncategorized", keeps the cell
    it came with. *)
Theorem apply_rules_total_with_default :
  forall (engine : RegexEngine) rules,
    (forall details,
       (rules_compile rules = true ->
        exists out,
          apply_rules_vectorized (WithoutCategory details) rules = Ok out) /\
       (forall out,
          apply_rules_vectorized (WithoutCategory details) rules = Ok out ->
          map Details out = details /\
          Forall (fun t =>
                    (exists c, Category t = Some c) /\
                    ((forall r, In r rules ->
                                rule_matches r (lower (Details t)) = false) ->
                     Category t = Some Uncategorized)) out)) /\
    (forall df out,
       apply_rules_vectorized df rules = Ok out ->
       Forall2 (classified_from rules) (initial_rows df) out).
Proof.
  intros engine rules. split.
  - intros details. split.
    + intros C. rewrite apply_rules_returns by assumption. eauto.
    + intros out E. apply apply_rules_Ok_inv in E. subst out. simpl. split.
      * rewrite !map_map. simpl. apply map_id.
      * apply Forall_forall. intros t Ht.
        apply in_map_iff in Ht as [t0 [<- Ht0]].
        apply in_map_iff in Ht0 as [d [<- _]]. simpl. split.
        -- destruct (classify_cell rules (lower d) (Some Uncategorized)) as [c|] eqn:E.
           ++ eauto.
           ++ exfalso. revert E. now apply classify_cell_not_null.
        -- intros NM. now apply classify_cell_no_match.
  - intros df out E. apply apply_rules_Ok_inv in E. subst out.
    induction (initial_rows df) as [|t rows IH]; simpl; constructor; auto.
    unfold classified_from, classify. simpl. repeat split.
    + apply classify_cell_not_null.
    + intros H. apply classify_cell_fixed.
      destruct (is_uncategorized (Category t)) eqn:U; [|reflexivity].
      now apply is_uncategorized_true in U.
    + intros NM. now apply classify_cell_no_match.
Qed.

Lemma apply_rules_total_with_default_witness :
  exists out,
    apply_rules_vectorized (engine := sre_engine)
      Scenario.two_transactions Scenario.two_rules = Ok out.
Proof.
  exact (proj1 (proj1 (apply_rules_total_with_default sre_engine Scenario.two_rules)
                  ["COMPRA LULU HYPERMARKET"; "PAGO NETFLIX"]) eq_refl).
Defined.

(** C4 as stated fails on a batch that comes with a [Category] column: no
    rule matches, and the transactions end with the category "Ocio" and
    with a null category. *)
Lemma apply_rules_keeps_given_category :
  apply_rules_vectorized (engine := sre_engine)
      Scenario.categorized Scenario.two_rules
    = Ok [ {| Details := "ENTRADA CINE"; Category := Some "Ocio" |};
           {| Details := "CAJERO"; Category := None |} ] /\
  (forall r d, In r Scenario.two_rules -> In d ["ENTRADA CINE"; "CAJERO"] ->
               rule_matches (engine := sre_engine) r (lower d) = false) /\
  ~ (forall df out,
       apply_rules_vectorized (engine := sre_engine) df Scenario.two_rules = Ok out ->
       Forall (fun t =>
                 (exists c, Category t = Some c) /\
                 ((forall r, In r Scenario.two_rules ->
                             rule_matches (engine := sre_engine) r (lower (Details t)) = false) ->
                  Category t = Some Uncategorized)) out).
Proof.
  split; [reflexivity|]. split.
  - intros r d [<- | [<- | []]] [<- | [<- | []]]; reflexivity.
  - intros H. specialize (H Scenario.categorized _ eq_refl).
    inversion H as [|? ? _ H2]. inversion H2 as [|? ? [[c Hc] _] _].
    discriminate Hc.
Qed.

(** C10: an empty pattern is skipped, whatever its flag; a rule whose
    patterns are all empty changes nothing, so that dropping it from the
    list leaves the outcome of the call the same; yet the containment test
    itself holds of the empty pattern on every details text. *)
Theorem empty_patterns_match_nothing :
  forall (engine : RegexEngine),
    (forall dn is_regex rest mask,
       pattern_loop dn (("", is_regex) :: rest) mask = pattern_loop dn rest mask) /\
    (forall df rules1 rule rules2,
       (forall p, In p (patterns rule) -> p = "") ->
       apply_rules_vectorized df (rules1 ++ rule :: rules2) =
       apply_rules_vectorized df (rules1 ++ rules2)) /\
    (forall dn, str_contains dn "" false = Ok (map (fun _ => true) dn)).
Proof.
  intros engine. split; [reflexivity|]. split.
  - intros df rules1 rule rules2 H. unfold apply_rules_vectorized.
    now rewrite rule_loop_hollow_rule.
  - intros dn. unfold str_contains. f_equal. apply map_ext.
    intros x. now destruct x.
Qed.

Lemma empty_patterns_match_nothing_witness :
  apply_rules_vectorized (engine := sre_engine) Scenario.two_transactions
    ([Scenario.supermercado] ++ Scenario.hollow :: [Scenario.entretenimiento]) =
  apply_rules_vectorized (engine := sre_engine) Scenario.two_transactions
    ([Scenario.supermercado] ++ [Scenario.entretenimiento]).
Proof.
  apply (proj1 (proj2 (empty_patterns_match_nothing sre_engine))
           Scenario.two_transactions [Scenario.supermercado] Scenario.hollow
           [Scenario.entretenimiento]).
  intros p [<- | []]. reflexivity.
Defined.

(* ===================================================================== *)
(** * Matching semantics                                                  *)
(* ===================================================================== *)

Lemma is_infix_nocase p d :
  is_infix (upper (lower p)) (upper (lower d)) = true <-> contains_nocase p d.
Proof.
  rewrite is_infix_spec, !upper_lower. unfold contains_nocase. split.
  - intros (a & b & E). exists (lower a), (lower b).
    rewrite <- (lower_upper d), E. unfold lower at 1.
    rewrite !map_chars_app. fold (lower a) (lower (upper p)) (lower b).
    now rewrite lower_upper.
  - intros (a & b & E). exists (upper a), (upper b).
    rewrite <- (upper_lower d), E. unfold upper at 1.
    rewrite !map_chars_app. fold (upper a) (upper (lower p)) (upper b).
    now rewrite upper_lower.
Qed.

Module SreFacts.
Import Sre.
















(** ** Literal words and the anchors *)

















End SreFacts.

Section DetailsCase.
Context {engine : RegexEngine}.



End DetailsCase.






(* ===================================================================== *)
(** * Trimming of patterns                                                *)
(* ===================================================================== *)

Lemma starts_space_lstrip s : starts_space (lstrip s) = false.
Proof.
  induction s as [|c s IH]; simpl; auto.
  destruct (is_space c) eqn:E; [exact IH | exact E].
Qed.

Lemma starts_space_rstrip s :
  starts_space s = false -> starts_space (rstrip s) = false.
Proof.
  destruct s as [|c s]; simpl; auto. intros H.
  destruct (is_space c && is_empty (rstrip s)); auto.
Qed.

Lemma lstrip_not_starts_space s : starts_space s = false -> lstrip s = s.
Proof. destruct s as [|c s]; simpl; auto. now intros ->. Qed.

Lemma rstrip_idem s : rstrip (rstrip s) = rstrip s.
Proof.
  induction s as [|c s IH]; simpl; auto.
  destruct (is_space c && is_empty (rstrip s)) eqn:E; simpl; auto.
  now rewrite IH, E.
Qed.

Lemma strip_idem s : strip (strip s) = strip s.
Proof.
  unfold strip.
  rewrite (lstrip_not_starts_space (rstrip (lstrip s))).
  - apply rstrip_idem.
  - apply starts_space_rstrip, starts_space_lstrip.
Qed.

(** C7 (as amended): a pattern is trimmed where it is stored, by
    [add_keyword]: storing a pattern and storing the trimmed pattern leave
    the same store, hence the same rules and the same classification, and
    every pattern [add_keyword] stores is trimmed and not empty. The rule
    builder and the engine take the stored text as it is, so that white
    space inside a pattern has to be found in the details as written. *)
Theorem pattern_trimmed_when_stored :
  (forall db category_id pattern is_regex,
     add_keyword db category_id pattern is_regex =
     add_keyword db category_id (strip pattern) is_regex) /\
  (forall (engine : RegexEngine) db category_id pattern is_regex df,
     categorize_transactions (add_keyword db category_id pattern is_regex) df =
     categorize_transactions (add_keyword db category_id (strip pattern) is_regex) df) /\
  (forall db category_id pattern is_regex k,
     In k (keywords (add_keyword db category_id pattern is_regex)) ->
     In k (keywords db) \/
     (kw_pattern k = strip pattern /\ strip (kw_pattern k) = kw_pattern k /\
      kw_pattern k <> "")) /\
  categorize_transactions (engine := sre_engine)
      (add_keyword Scenario.store 2 " LULU " false) (WithoutCategory ["COMPRA LULU"])
    = Ok [ {| Details := "COMPRA LULU"; Category := Some "Supermercado" |} ] /\
  categorize_transactions (engine := sre_engine)
      (add_keyword Scenario.store 2 "LULU  HYPER" false)
      (WithoutCategory ["COMPRA LULU HYPERMARKET"])
    = Ok [ {| Details := "COMPRA LULU HYPERMARKET"; Category := Some "Uncategorized" |} ].
Proof.
  assert (A : forall db category_id pattern is_regex,
             add_keyword db category_id pattern is_regex =
             add_keyword db category_id (strip pattern) is_regex).
  { intros. unfold add_keyword. now rewrite strip_idem. }
  split; [exact A|]. split; [|split; [|split; reflexivity]].
  - intros. now rewrite A.
  - intros db category_id pattern is_regex k. unfold add_keyword.
    destruct (is_empty (strip pattern)) eqn:E; [now left|].
    simpl. intros H. apply in_app_or in H as [H | [<- | []]]; [now left|].
    right. simpl. split; [reflexivity|]. split; [apply strip_idem|].
    now apply is_empty_false.
Qed.

Lemma pattern_trimmed_when_stored_witness :
  In {| kw_id := 1; kw_category_id := 2; kw_pattern := "LULU";
        kw_is_regex := false; kw_enabled := true |}
     (keywords Scenario.store) \/
  ("LULU" = strip " LULU " /\ strip "LULU" = "LULU" /\ "LULU" <> "").
Proof.
  apply (proj1 (proj2 (proj2 pattern_trimmed_when_stored))
           Scenario.store 2%Z " LULU " false
           {| kw_id := 1; kw_category_id := 2; kw_pattern := "LULU";
              kw_is_regex := false; kw_enabled := true |}).
  simpl. now left.
Defined.

(** C7 as stated fails in the rule builder and the engine: a keyword [" LULU "] of the snapshot enters the rule as it
    is and does not match ["COMPRA LULU"], which the keyword ["LULU"]
    matches. *)
Lemma pattern_not_trimmed_by_builder :
  map patterns (build_rules (Scenario.snapshot " LULU ")) = [[" LULU "]] /\
  apply_rules_vectorized (engine := sre_engine)
      (WithoutCategory ["COMPRA LULU"]) (build_rules (Scenario.snapshot " LULU "))
    = Ok [ {| Details := "COMPRA LULU"; Category := Some "Uncategorized" |} ] /\
  apply_rules_vectorized (engine := sre_engine)
      (WithoutCategory ["COMPRA LULU"]) (build_rules (Scenario.snapshot "LULU"))
    = Ok [ {| Details := "COMPRA LULU"; Category := Some "Supermercado" |} ] /\
  apply_rules_vectorized (engine := sre_engine)
      (WithoutCategory ["COMPRA LULU"]) (build_rules (Scenario.snapshot " LULU "))
    <> apply_rules_vectorized (engine := sre_engine)
      (WithoutCategory ["COMPRA LULU"]) (build_rules (Scenario.snapshot "LULU")).
Proof. repeat split; try reflexivity. vm_compute. discriminate. Qed.

(* ===================================================================== *)
(** * Rule compilation                                                    *)
(* ===================================================================== *)

Section StableSortFacts.
Variable A : Type.
Variable key : A -> Z.

Lemma insert_sorted_perm x l : Permutation (insert_sorted (key_le key) x l) (x :: l).
Proof.
  induction l as [|y l IH]; simpl; auto.
  destruct (key_le key x y); auto.
  rewrite IH. apply perm_swap.
Qed.

Lemma stable_sort_perm l : Permutation (stable_sort (key_le key) l) l.
Proof.
  induction l as [|x l IH]; simpl; auto.
  rewrite insert_sorted_perm. now constructor.
Qed.

Lemma insert_sorted_sorted x l :
  StronglySorted (fun a b => (key a <= key b)%Z) l ->
  StronglySorted (fun a b => (key a <= key b)%Z) (insert_sorted (key_le key) x l).
Proof.
  induction 1 as [|y l S IH F]; simpl.
  - repeat constructor.
  - unfold key_le at 1. destruct (Z.leb_spec (key x) (key y)) as [L | L].
    + constructor; [now constructor|]. constructor; [exact L|].
      eapply Forall_impl; [|exact F]. simpl. intros; lia.
    + constructor; [exact IH|].
      apply (Permutation_Forall (Permutation_sym (insert_sorted_perm x l))).
      constructor; [lia | exact F].
Qed.

Lemma stable_sort_sorted l :
  StronglySorted (fun a b => (key a <= key b)%Z) (stable_sort (key_le key) l).
Proof.
  induction l as [|x l IH]; simpl; [constructor|].
  now apply insert_sorted_sorted.
Qed.

(** Stability: the elements of one key keep their order. *)
Lemma insert_sorted_filter p x l :
  filter (fun a => (key a =? p)%Z) (insert_sorted (key_le key) x l) =
  filter (fun a => (key a =? p)%Z) (x :: l).
Proof.
  induction l as [|y l IH]; [reflexivity|].
  cbn [insert_sorted]. unfold key_le at 1.
  destruct (Z.leb_spec (key x) (key y)) as [L | L]; [reflexivity|].
  cbn [filter] in *. rewrite IH.
  destruct (Z.eqb_spec (key x) p), (Z.eqb_spec (key y) p); auto. lia.
Qed.

Lemma stable_sort_filter p l :
  filter (fun a => (key a =? p)%Z) (stable_sort (key_le key) l) =
  filter (fun a => (key a =? p)%Z) l.
Proof.
  induction l as [|x l IH]; [reflexivity|].
  cbn [stable_sort]. rewrite insert_sorted_filter. cbn [filter].
  now rewrite IH.
Qed.
End StableSortFacts.

Lemma collect_rules_spec categories :
  collect_rules categories = map rule_of_category (filter survives categories).
Proof.
  induction categories as [|cat rest IH]; [reflexivity|].
  cbn [collect_rules filter]. unfold survives at 1.
  change Uncategorized with "Uncategorized".
  destruct (category_name cat =? "Uncategorized")%string; [exact IH|].
  cbn [negb andb].
  destruct (filter enabled (category_keywords cat)) as [|k ks] eqn:F.
  - assert (E : existsb enabled (category_keywords cat) = false).
    { destruct (existsb _ _) eqn:E; auto.
      apply existsb_exists in E as [k [Hk Ek]].
      assert (In k (filter enabled (category_keywords cat)))
        by (apply filter_In; auto).
      now rewrite F in *. }
    now rewrite E.
  - assert (E : existsb enabled (category_keywords cat) = true).
    { apply existsb_exists. exists k.
      apply (filter_In enabled k (category_keywords cat)).
      rewrite F. now left. }
    rewrite E. cbn [map]. rewrite IH. f_equal.
    unfold rule_of_category. now rewrite F.
Qed.

(** C2: the rules built are, one for one, the rules of the categories that
    are not "Uncategorized" and have an enabled keyword, each with its
    enabled keywords as patterns in their given order; they come in
    ascending order of priority, rules of equal priority in the order of
    their categories. *)
Theorem build_rules_spec :
  forall categories,
    Permutation (build_rules categories)
                (map rule_of_category (filter survives categories)) /\
    StronglySorted (fun a b => (priority a <= priority b)%Z)
                   (build_rules categories) /\
    (forall p,
       filter (has_priority p) (build_rules categories) =
       filter (has_priority p) (map rule_of_category (filter survives categories))) /\
    (forall cat,
       survives cat = true <->
       category_name cat <> "Uncategorized" /\
       exists k, In k (category_keywords cat) /\ enabled k = true) /\
    (forall rule,
       In rule (build_rules categories) ->
       name rule <> "Uncategorized" /\ patterns rule <> []).
Proof.
  intros categories. unfold build_rules, sort_rules.
  rewrite collect_rules_spec.
  split; [apply stable_sort_perm|]. split; [apply stable_sort_sorted|].
  split; [intros p; apply (stable_sort_filter priority)|].
  assert (S : forall cat,
             survives cat = true <->
             category_name cat <> "Uncategorized" /\
             exists k, In k (category_keywords cat) /\ enabled k = true).
  { intros cat. unfold survives.
    rewrite andb_true_iff, negb_true_iff, String.eqb_neq, existsb_exists.
    reflexivity. }
  split; [exact S|].
  intros rule H.
  apply (Permutation_in _ (stable_sort_perm priority _)) in H.
  apply in_map_iff in H as [cat [<- H]]. apply filter_In in H as [Hc Hs].
  apply S in Hs as [N [k [Hk Ek]]]. simpl. split; [exact N|].
  assert (Hin : In k (filter enabled (category_keywords cat)))
    by (apply filter_In; auto).
  destruct (filter enabled (category_keywords cat)); [contradiction | discriminate].
Qed.

Example build_rules_mixed :
  map (fun r => (name r, priority r, patterns r)) (build_rules Scenario.mixed_snapshot) =
  [ ("Supermercado", 10%Z, ["LULU"]);
    ("Transporte", 10%Z, ["TAXI"]);
    ("Ocio", 20%Z, ["CINE"; "NETFLIX"]) ].
Proof. reflexivity. Qed.

Lemma build_rules_spec_witness :
  name (Scenario.rule "Supermercado" 10 [("LULU", false)]) <> "Uncategorized" /\
  patterns (Scenario.rule "Supermercado" 10 [("LULU", false)]) <> [].
Proof.
  apply (proj2 (proj2 (proj2 (proj2 (build_rules_spec (Scenario.snapshot "LULU")))))
           (Scenario.rule "Supermercado" 10 [("LULU", false)])).
  simpl. now left.
Defined.

(* ===================================================================== *)
(** * Learning keywords                                                   *)
(* ===================================================================== *)

Lemma max_by_len_In c cs : In (max_by_len c cs) (c :: cs).
Proof.
  destruct (max_by_len_spec cs c) as (pre & post & E & _).
  rewrite E. apply in_elt.
Qed.

(** An extracted keyword has no whitespace in it and is not empty. *)
Lemma extract_keyword_solid details keyword :
  extract_keyword_from_details details = Some keyword ->
  solid keyword /\ keyword <> "".
Proof.
  destruct (Words_total details) as [ws HW].
  rewrite (extract_keyword_words HW).
  destruct (filter is_candidate ws) as [|c cs] eqn:F; [discriminate|].
  intros E. injection E as <-.
  assert (Hin : In (max_by_len c cs) ws).
  { apply (proj1 (filter_In is_candidate _ ws)). rewrite F.
    apply max_by_len_In. }
  destruct (proj1 (Forall_forall _ ws) (Words_solid HW) _ Hin) as [N S].
  split; [now apply solid_upper|].
  apply is_empty_false. unfold upper. rewrite is_empty_map_chars.
  now apply is_empty_false.
Qed.

Lemma add_keyword_solid db category_id keyword :
  solid keyword -> keyword <> "" ->
  add_keyword db category_id keyword false = with_keyword db category_id keyword.
Proof.
  intros S N. unfold add_keyword. rewrite strip_solid by assumption.
  apply is_empty_false in N. now rewrite N.
Qed.

Lemma get_category_id_by_name_Some db name cid :
  get_category_id_by_name db name = Some cid ->
  exists row, In row (categories db) /\ cat_id row = cid /\
              cat_name row = strip name.
Proof.
  unfold get_category_id_by_name.
  destruct (is_empty (strip name)); [discriminate|].
  destruct (find _ (categories db)) as [row|] eqn:F; [|discriminate].
  intros E. injection E as <-. apply find_some in F as [Hin Hn].
  exists row. repeat split; auto. now apply String.eqb_eq.
Qed.

Lemma learn_keywords_changed db row :
  m_Category row <> m_NewCategory row ->
  learn_keywords db [row] = learn_row db row.
Proof.
  intros N. unfold learn_keywords. cbn [filter].
  apply String.eqb_neq in N. now rewrite N.
Qed.

(** C8: a row whose category was changed has its details searched for a
    keyword; when there is one and the new name is that of a category of
    the store, the store gains exactly one keyword row, enabled, not a
    regular expression, with that pattern and that category id; when the
    name is not found, or no keyword is found, the store is left as it
    was, its categories included. Rows whose category was not changed are
    not looked at, and a batch of edits is handled row by row. *)
Theorem learn_keywords_spec :
  (forall db row keyword,
     m_Category row <> m_NewCategory row ->
     extract_keyword_from_details (m_Details row) = Some keyword ->
     (forall cid,
        get_category_id_by_name db (m_NewCategory row) = Some cid ->
        (exists c, In c (categories db) /\ cat_id c = cid /\
                   cat_name c = strip (m_NewCategory row)) /\
        learn_keywords db [row] = with_keyword db cid keyword) /\
     (get_category_id_by_name db (m_NewCategory row) = None ->
      learn_keywords db [row] = db)) /\
  (forall db row,
     m_Category row <> m_NewCategory row ->
     extract_keyword_from_details (m_Details row) = None ->
     learn_keywords db [row] = db) /\
  (forall db row,
     m_Category row = m_NewCategory row -> learn_keywords db [row] = db) /\
  (forall db row rows,
     learn_keywords db (row :: rows) =
     learn_keywords (learn_keywords db [row]) rows) /\
  learn_keywords Scenario.store [Scenario.edit_known] =
    with_keyword Scenario.store 2 "CARREFOUR" /\
  learn_keywords Scenario.store [Scenario.edit_unknown] = Scenario.store.
Proof.
  split; [|split; [|split; [|split; [|split; reflexivity]]]].
  - intros db row keyword N E.
    destruct (extract_keyword_solid _ E) as [S NE].
    rewrite (@learn_keywords_changed db row N). unfold learn_row. rewrite E.
    apply is_empty_false in NE. rewrite NE. split.
    + intros cid G. rewrite G. split.
      * now apply get_category_id_by_name_Some.
      * apply add_keyword_solid; auto. now apply is_empty_false.
    + now intros ->.
  - intros db row N E. rewrite (@learn_keywords_changed db row N).
    unfold learn_row. now rewrite E.
  - intros db row E. unfold learn_keywords. cbn [filter].
    apply String.eqb_eq in E. now rewrite E.
  - intros db row rows. unfold learn_keywords. cbn [filter].
    destruct (negb _); reflexivity.
Qed.

Lemma learn_keywords_spec_witness :
  learn_keywords Scenario.store [Scenario.edit_known] =
    with_keyword Scenario.store 2 "CARREFOUR".
Proof.
  refine (proj2 (proj1 (proj1 learn_keywords_spec Scenario.store Scenario.edit_known
                          "CARREFOUR" _ eq_refl) 2%Z eq_refl)).
  discriminate.
Defined.

(* ===================================================================== *)
(** * The fuzzy fallback                                                  *)
(* ===================================================================== *)

Section FuzzyFacts.
Context {rapidfuzz : Rapidfuzz}.
Variable query : string.

Lemma extractOne_scan_spec choices : forall best i j,
  exists c k pre post,
    extractOne_scan query (best, token_sort_ratio query best, i) j choices = (c, token_sort_ratio query c, k) /\
    best :: choices = pre ++ c :: post /\
    (forall x, In x pre -> (token_sort_ratio query x < token_sort_ratio query c)%Q) /\
    (forall x, In x post -> (token_sort_ratio query x <= token_sort_ratio query c)%Q) /\
    (token_sort_ratio query best <= token_sort_ratio query c)%Q.
Proof.
  induction choices as [|x choices IH]; intros best i j.
  - exists best, i, [], []. simpl. repeat split; try contradiction.
    apply Qle_refl.
  - cbn [extractOne_scan].
    destruct (Qlt_le_dec (token_sort_ratio query best) (token_sort_ratio query x)) as [L | L].
    + destruct (IH x j (S j)) as (c & k & pre & post & E & El & Hpre & Hpost & Hx).
      exists c, k, (best :: pre), post. rewrite E, El.
      split; [reflexivity|]. split; [reflexivity|].
      split; [|split; [exact Hpost|]].
      * intros y [<- | Hy]; [|now apply Hpre].
        now apply (Qlt_le_trans _ (token_sort_ratio query x)).
      * apply Qlt_le_weak. now apply (Qlt_le_trans _ (token_sort_ratio query x)).
    + destruct (IH best i (S j)) as (c & k & pre & post & E & El & Hpre & Hpost & Hb).
      rewrite E. destruct pre as [|b pre]; simpl in El; injection El as Eb Ec.
      * subst c. exists best, k, [], (x :: choices).
        split; [reflexivity|]. split; [reflexivity|].
        split; [intros y []|]. split; [|apply Qle_refl].
        intros y [<- | Hy]; [exact L|]. apply Hpost. now rewrite <- Ec.
      * subst b choices. exists c, k, (best :: x :: pre), post.
        split; [reflexivity|]. split; [reflexivity|].
        split; [|split; [exact Hpost | exact Hb]].
        intros y [<- | [<- | Hy]].
        -- apply Hpre. now left.
        -- apply (Qle_lt_trans _ (token_sort_ratio query best)); [exact L|].
           apply Hpre. now left.
        -- apply Hpre. now right.
Qed.
End FuzzyFacts.

(** C9: there is no result when the similarity library is missing, when
    the details normalise to the empty string, or when there is no
    candidate; otherwise the leftmost candidate of greatest score is the
    result if its score is at least the threshold, and there is no result
    if it is not, in which case no candidate reaches the threshold. The
    default threshold is 80. *)
Theorem fuzzy_categorize_single_details_spec :
  forall (rapidfuzz : Rapidfuzz) details candidates threshold,
    (HAS_RAPIDFUZZ = false ->
     fuzzy_categorize_single_details details candidates threshold = None) /\
    (normalize_text details = "" ->
     fuzzy_categorize_single_details details candidates threshold = None) /\
    (candidates = [] ->
     fuzzy_categorize_single_details details candidates threshold = None) /\
    (HAS_RAPIDFUZZ = true -> normalize_text details <> "" -> candidates <> [] ->
     exists best,
       best_candidate details candidates best /\
       ((inject_Z threshold <= score_of details best)%Q ->
        fuzzy_categorize_single_details details candidates threshold = Some best) /\
       ((score_of details best < inject_Z threshold)%Q ->
        fuzzy_categorize_single_details details candidates threshold = None /\
        forall c, In c candidates -> (score_of details c < inject_Z threshold)%Q)) /\
    fuzzy_categorize_single_details_default details candidates =
      fuzzy_categorize_single_details details candidates 80.
Proof.
  intros rapidfuzz details candidates threshold.
  unfold fuzzy_categorize_single_details.
  split; [now intros ->|]. split; [|split; [|split; [|reflexivity]]].
  - intros ->. now destruct HAS_RAPIDFUZZ.
  - intros ->. destruct HAS_RAPIDFUZZ; simpl; auto. now rewrite orb_true_r.
  - intros -> N C. apply is_empty_false in N. rewrite N.
    destruct candidates as [|c0 rest]; [congruence|]. cbn [negb orb extractOne].
    destruct (extractOne_scan_spec (normalize_text details) rest c0 0 1)
      as (best & k & pre & post & E & El & Hpre & Hpost & _).
    rewrite E. exists best. split; [|split].
    + exists pre, post. auto.
    + intros T. apply Qle_bool_iff in T. unfold score_of in T. now rewrite T.
    + intros T. split.
      * destruct (Qle_bool _ _) eqn:B; [|reflexivity].
        apply Qle_bool_iff in B. exfalso.
        apply (Qlt_irrefl (token_sort_ratio (normalize_text details) best)).
        now apply (Qlt_le_trans _ (inject_Z threshold)).
      * intros c Hc. rewrite El in Hc.
        apply in_app_or in Hc as [Hc | [<- | Hc]]; [|exact T|].
        -- apply Qlt_trans with (score_of details best);
             [exact (Hpre c Hc) | exact T].
        -- apply Qle_lt_trans with (score_of details best);
             [exact (Hpost c Hc) | exact T].
Qed.

Lemma fuzzy_categorize_single_details_spec_witness :
  fuzzy_categorize_single_details (rapidfuzz := Scenario.exact_scorer false)
    " Supermercado " ["ocio"; "supermercado"] 80 = None /\
  exists best,
    best_candidate (rapidfuzz := Scenario.exact_scorer true)
      " Supermercado " ["ocio"; "supermercado"] best /\
    ((inject_Z 80 <=
      score_of (rapidfuzz := Scenario.exact_scorer true) " Supermercado " best)%Q ->
     fuzzy_categorize_single_details (rapidfuzz := Scenario.exact_scorer true)
       " Supermercado " ["ocio"; "supermercado"] 80 = Some best) /\
    ((score_of (rapidfuzz := Scenario.exact_scorer true) " Supermercado " best <
      inject_Z 80)%Q ->
     fuzzy_categorize_single_details (rapidfuzz := Scenario.exact_scorer true)
       " Supermercado " ["ocio"; "supermercado"] 80 = None /\
     forall c, In c ["ocio"; "supermercado"] ->
       (score_of (rapidfuzz := Scenario.exact_scorer true) " Supermercado " c <
        inject_Z 80)%Q).
Proof.
  split.
  - exact (proj1 (fuzzy_categorize_single_details_spec (Scenario.exact_scorer false)
                    " Supermercado " ["ocio"; "supermercado"] 80) eq_refl).
  - apply (proj1 (proj2 (proj2 (proj2
             (fuzzy_categorize_single_details_spec (Scenario.exact_scorer true)
                " Supermercado " ["ocio"; "supermercado"] 80))))).
    + reflexivity.
    + discriminate.
    + discriminate.
Defined.

Example fuzzy_exact_match :
  fuzzy_categorize_single_details_default (rapidfuzz := Scenario.exact_scorer true)
    " Supermercado " ["ocio"; "supermercado"] = Some "supermercado" /\
  fuzzy_categorize_single_details_default (rapidfuzz := Scenario.exact_scorer true)
    "Farmacia" ["ocio"; "supermercado"] = None.
Proof. split; reflexivity. Qed.


(* ===================================================================== *)
(** * More on the engine: composition, idempotence, priorities            *)
(* ===================================================================== *)

Section EngineComposition.
Context {engine : RegexEngine}.

Lemma loc_assign_length mask value : forall column,
  List.length (loc_assign mask value column) = List.length column.
Proof.
  induction mask as [|m mask IH]; intros [|c column]; simpl; auto.
Qed.

Lemma rule_loop_length dn rules : forall column c,
  rule_loop dn column rules = Ok c -> List.length c = List.length column.
Proof.
  induction rules as [|rule rest IH]; intros column c.
  - simpl. intros E. now injection E as <-.
  - cbn [rule_loop]. destruct (negb _).
    + intros E. now injection E as <-.
    + destruct (pattern_loop dn _ _) as [m|e]; unfold bind; [|discriminate].
      intros E. apply IH in E. now rewrite E, loc_assign_length.
Qed.

Lemma rule_loop_app dn rules1 rules2 : forall column,
  rule_loop dn column (rules1 ++ rules2) =
  (c <- rule_loop dn column rules1 ;; rule_loop dn c rules2).
Proof.
  induction rules1 as [|rule rest IH]; intros column; [reflexivity|].
  cbn [app rule_loop].
  destruct (existsb (fun b => b) (map is_uncategorized column)) eqn:U; cbn [negb].
  - destruct (pattern_loop dn _ _) as [m|e]; unfold bind; [|reflexivity].
    apply IH.
  - unfold bind. now rewrite rule_loop_nothing_to_do.
Qed.

Lemma with_categories_columns details : forall column,
  List.length column = List.length details ->
  map Details (with_categories details column) = details /\
  map Category (with_categories details column) = column.
Proof.
  induction details as [|d details IH]; intros [|c column] L; try discriminate.
  - auto.
  - simpl in L. injection L as L. destruct (IH column L) as [E1 E2].
    simpl. now rewrite E1, E2.
Qed.

Lemma columns_same_length df :
  List.length (category_column df) = List.length (details_column df).
Proof. destruct df; simpl; now rewrite !length_map. Qed.

Lemma classify_cell_idem rules x c :
  classify_cell rules x (classify_cell rules x c) = classify_cell rules x c.
Proof.
  destruct (is_uncategorized c) eqn:U.
  - apply is_uncategorized_true in U. subst c.
    destruct (is_uncategorized (classify_cell rules x (Some Uncategorized))) eqn:U'.
    + apply is_uncategorized_true in U'. now rewrite !U'.
    + now apply classify_cell_fixed.
  - now rewrite !(@classify_cell_fixed _ rules x c U).
Qed.

Lemma classify_cell_uncategorized rules x c :
  is_uncategorized (classify_cell rules x c) = true -> is_uncategorized c = true.
Proof.
  destruct (is_uncategorized c) eqn:U; auto.
  now rewrite (@classify_cell_fixed _ rules x c U), U.
Qed.

Lemma classified_column_order rules (rows : list Transaction) :
  Forall2 (fun c1 c2 => is_uncategorized c2 = true -> is_uncategorized c1 = true)
          (map Category rows)
          (map (fun t => classify_cell rules (lower (Details t)) (Category t)) rows).
Proof.
  induction rows; simpl; constructor; auto.
  apply classify_cell_uncategorized.
Qed.

(** A column with fewer transactions left to classify does not raise where
    a column with more of them does not. *)
Lemma loc_assign_keeps_order value : forall column1 column2,
  Forall2 (fun c1 c2 => is_uncategorized c2 = true -> is_uncategorized c1 = true)
          column1 column2 ->
  forall m,
  Forall2 (fun c1 c2 => is_uncategorized c2 = true -> is_uncategorized c1 = true)
          (loc_assign (mask_and (map is_uncategorized column1) m) value column1)
          (loc_assign (mask_and (map is_uncategorized column2) m) value column2).
Proof.
  induction 1 as [|c1 c2 column1 column2 H F IH]; intros m.
  - simpl. constructor.
  - destruct m as [|b m]; simpl.
    + constructor; auto.
    + constructor; [|apply IH].
      destruct (is_uncategorized c2) eqn:U2; simpl.
      * rewrite (H eq_refl). simpl. destruct b; auto.
      * rewrite U2. discriminate.
Qed.

Lemma rule_loop_returns_mono dn rules : forall column1 column2,
  Forall2 (fun c1 c2 => is_uncategorized c2 = true -> is_uncategorized c1 = true)
          column1 column2 ->
  (exists c, rule_loop dn column1 rules = Ok c) ->
  exists c, rule_loop dn column2 rules = Ok c.
Proof.
  induction rules as [|rule rest IH]; intros column1 column2 F [c E].
  - simpl. eauto.
  - cbn [rule_loop] in *.
    destruct (existsb (fun b => b) (map is_uncategorized column2)) eqn:U2;
      cbn [negb]; [|eauto].
    assert (U1 : existsb (fun b => b) (map is_uncategorized column1) = true).
    { clear -F U2. induction F as [|c1 c2 l1 l2 H F IH]; simpl in *; auto.
      apply orb_true_iff in U2 as [U | U].
      - now rewrite (H U).
      - rewrite (IH U). apply orb_true_r. }
    rewrite U1 in E. cbn [negb] in E.
    destruct (pattern_loop dn _ _) as [m|e]; unfold bind in *; [|discriminate].
    apply (IH _ _ (loc_assign_keeps_order (name rule) F m)). eauto.
Qed.

End EngineComposition.

(** A rule list may be applied in two parts: applying [rules1 ++ rules2]
    is applying [rules1] and then, to the batch that comes back, [rules2];
    if the first part raises, so does the whole. *)
Theorem apply_rules_in_two_parts :
  forall (engine : RegexEngine) df rules1 rules2,
    apply_rules_vectorized df (rules1 ++ rules2) =
    (out <- apply_rules_vectorized df rules1 ;;
     apply_rules_vectorized (WithCategory out) rules2).
Proof.
  intros engine df rules1 rules2. unfold apply_rules_vectorized.
  rewrite rule_loop_app.
  destruct (rule_loop (map lower (details_column df)) (category_column df) rules1)
    as [c|e] eqn:E; unfold bind; [|reflexivity].
  apply rule_loop_length in E. rewrite columns_same_length in E.
  destruct (with_categories_columns (details_column df) c E) as [E1 E2].
  cbn [details_column category_column]. now rewrite E1, E2.
Qed.

(** Classifying a classified batch again with the same rules gives the
    batch back: a second run neither raises nor changes a category. *)
Theorem apply_rules_idempotent :
  forall (engine : RegexEngine) df rules out,
    apply_rules_vectorized df rules = Ok out ->
    apply_rules_vectorized (WithCategory out) rules = Ok out.
Proof.
  intros engine df rules out E.
  assert (Eout := apply_rules_Ok_inv _ _ E).
  destruct (apply_rules_cases (WithCategory out) rules) as [[e E2] | E2].
  - exfalso. unfold apply_rules_vectorized in E, E2.
    destruct (rule_loop (map lower (details_column df)) (category_column df) rules)
      as [c1|e1] eqn:R1; unfold bind in E; [|discriminate].
    assert (M : exists c, rule_loop (map lower (details_column (WithCategory out)))
                            (category_column (WithCategory out)) rules = Ok c).
    { apply (rule_loop_returns_mono _ rules (column1 := category_column df)).
      - cbn [category_column]. rewrite Eout, <- initial_rows_category, map_map.
        cbn [classify Category]. apply classified_column_order.
      - cbn [details_column].
        rewrite Eout, (map_map (classify rules) Details). cbn [classify Details].
        rewrite <- initial_rows_details in R1. exists c1. exact R1. }
    destruct M as [c M]. rewrite M in E2. discriminate.
  - rewrite E2. f_equal. cbn [initial_rows]. rewrite Eout, map_map.
    apply map_ext. intros t. unfold classify. simpl.
    now rewrite classify_cell_idem.
Qed.

Lemma apply_rules_idempotent_witness :
  apply_rules_vectorized (engine := sre_engine)
    (WithCategory
       [ {| Details := "COMPRA LULU HYPERMARKET"; Category := Some "Supermercado" |};
         {| Details := "PAGO NETFLIX"; Category := Some "Entretenimiento" |} ])
    Scenario.two_rules =
  Ok [ {| Details := "COMPRA LULU HYPERMARKET"; Category := Some "Supermercado" |};
       {| Details := "PAGO NETFLIX"; Category := Some "Entretenimiento" |} ].
Proof.
  apply (apply_rules_idempotent sre_engine Scenario.two_transactions
           Scenario.two_rules).
  reflexivity.
Defined.


(* ===================================================================== *)
(** * Sorting by a total preorder                                         *)
(* ===================================================================== *)

Section SortFacts.
Variable A : Type.
Variable le : A -> A -> bool.

Lemma insert_sorted_permutation x l : Permutation (insert_sorted le x l) (x :: l).
Proof.
  induction l as [|y l IH]; simpl; auto.
  destruct (le x y); auto. rewrite IH. apply perm_swap.
Qed.

Lemma stable_sort_permutation l : Permutation (stable_sort le l) l.
Proof.
  induction l as [|x l IH]; simpl; auto.
  rewrite insert_sorted_permutation. now constructor.
Qed.

Lemma stable_sort_In x l : In x (stable_sort le l) <-> In x l.
Proof.
  split; apply Permutation_in;
    [|apply Permutation_sym]; apply stable_sort_permutation.
Qed.

Lemma stable_sort_map (g : A -> A) l :
  (forall a b, le (g a) (g b) = le a b) ->
  stable_sort le (map g l) = map g (stable_sort le l).
Proof.
  intros G. induction l as [|x l IH]; [reflexivity|].
  simpl. rewrite IH. generalize (stable_sort le l). clear IH.
  induction l0 as [|y l0 IH]; [reflexivity|].
  simpl. rewrite G. destruct (le x y); simpl; congruence.
Qed.

Hypothesis le_total : forall a b, le a b = true \/ le b a = true.
Hypothesis le_trans : forall a b c, le a b = true -> le b c = true -> le a c = true.

Lemma insert_sorted_StronglySorted x l :
  StronglySorted (fun a b => le a b = true) l ->
  StronglySorted (fun a b => le a b = true) (insert_sorted le x l).
Proof.
  induction 1 as [|y l S IH F]; simpl.
  - repeat constructor.
  - destruct (le x y) eqn:L.
    + constructor; [now constructor|]. constructor; [exact L|].
      eapply Forall_impl; [|exact F]. intros z. now apply le_trans.
    + constructor; [exact IH|].
      apply (Permutation_Forall (Permutation_sym (insert_sorted_permutation x l))).
      constructor; [|exact F].
      destruct (le_total x y) as [T | T]; [congruence | exact T].
Qed.

Lemma stable_sort_StronglySorted l :
  StronglySorted (fun a b => le a b = true) (stable_sort le l).
Proof.
  induction l as [|x l IH]; simpl; [constructor|].
  now apply insert_sorted_StronglySorted.
Qed.

Lemma insert_sorted_filter_comm f x l :
  StronglySorted (fun a b => le a b = true) l ->
  filter f (insert_sorted le x l) =
  if f x then insert_sorted le x (filter f l) else filter f l.
Proof.
  induction 1 as [|y l S IH F]; simpl.
  - now destruct (f x).
  - destruct (le x y) eqn:L; simpl.
    + destruct (f x) eqn:Fx; [|reflexivity].
      destruct (f y) eqn:Fy; simpl; [now rewrite L|].
      clear IH. induction l as [|z l IHl]; [reflexivity|].
      inversion F as [|? ? Hz F']; subst. inversion S; subst.
      simpl. destruct (f z); simpl; auto.
      now rewrite (le_trans L Hz).
    + rewrite IH. destruct (f x), (f y); simpl; auto. now rewrite L.
Qed.

Lemma stable_sort_filter_comm f l :
  stable_sort le (filter f l) = filter f (stable_sort le l).
Proof.
  induction l as [|x l IH]; [reflexivity|].
  simpl. rewrite insert_sorted_filter_comm by apply stable_sort_StronglySorted.
  destruct (f x); simpl; now rewrite IH.
Qed.

End SortFacts.

Lemma ascii_compare_spec a b :
  CompareSpec (a = b) (N_of_ascii a < N_of_ascii b)%N
              (N_of_ascii b < N_of_ascii a)%N (Ascii.compare a b).
Proof.
  unfold Ascii.compare. destruct (N.compare_spec (N_of_ascii a) (N_of_ascii b)) as [E|L|L];
    constructor; auto.
  rewrite <- (ascii_N_embedding a), <- (ascii_N_embedding b). now rewrite E.
Qed.

Lemma string_leb_trans a : forall b c,
  (a <=? b)%string = true -> (b <=? c)%string = true -> (a <=? c)%string = true.
Proof.
  unfold String.leb.
  induction a as [|x a IH]; intros [|y b] [|z c]; simpl; auto; try discriminate.
  specialize (IH b c).
  destruct (ascii_compare_spec x y) as [E1|L1|L1];
    destruct (ascii_compare_spec y z) as [E2|L2|L2];
    destruct (ascii_compare_spec x z) as [E3|L3|L3];
    subst; auto; try discriminate; lia.
Qed.

Lemma category_row_le_total a b :
  category_row_le a b = true \/ category_row_le b a = true.
Proof.
  unfold category_row_le.
  destruct (Z.ltb_spec (cat_priority a) (cat_priority b)); [now left|].
  destruct (Z.ltb_spec (cat_priority b) (cat_priority a)); [now right|].
  assert (E : cat_priority a = cat_priority b) by lia.
  rewrite E, Z.eqb_refl. simpl.
  apply String.leb_total.
Qed.

Lemma category_row_le_trans a b c :
  category_row_le a b = true -> category_row_le b c = true ->
  category_row_le a c = true.
Proof.
  unfold category_row_le. intros H1 H2.
  apply orb_true_iff in H1 as [H1 | H1]; apply orb_true_iff in H2 as [H2 | H2];
    try apply Z.ltb_lt in H1; try apply Z.ltb_lt in H2;
    try (apply andb_true_iff in H1 as [E1 L1]; apply Z.eqb_eq in E1);
    try (apply andb_true_iff in H2 as [E2 L2]; apply Z.eqb_eq in E2);
    apply orb_true_iff.
  - left. apply Z.ltb_lt. lia.
  - left. apply Z.ltb_lt. lia.
  - left. apply Z.ltb_lt. lia.
  - right. apply andb_true_iff. split; [apply Z.eqb_eq; lia|].
    now apply (string_leb_trans _ (cat_name b)).
Qed.

Lemma keyword_row_le_total a b :
  keyword_row_le a b = true \/ keyword_row_le b a = true.
Proof.
  unfold keyword_row_le, key_le.
  destruct (Z.leb_spec (kw_id a) (kw_id b)); [now left|].
  right. apply Z.leb_le. lia.
Qed.

Lemma keyword_row_le_trans a b c :
  keyword_row_le a b = true -> keyword_row_le b c = true ->
  keyword_row_le a c = true.
Proof.
  unfold keyword_row_le, key_le. rewrite !Z.leb_le. lia.
Qed.


(* ===================================================================== *)
(** * The snapshot of the store and the rules built from it               *)
(* ===================================================================== *)

Lemma get_categories_with_keywords_entries db :
  get_categories_with_keywords db =
  map (category_entry db) (stable_sort category_row_le (categories db)).
Proof. reflexivity. Qed.

Lemma filter_map_comm (A B : Type) (g : A -> B) (f : B -> bool) l :
  filter f (map g l) = map g (filter (fun x => f (g x)) l).
Proof.
  induction l as [|x l IH]; [reflexivity|].
  simpl. destruct (f (g x)); simpl; now rewrite IH.
Qed.

Lemma filter_filter (A : Type) (f g : A -> bool) l :
  filter f (filter g l) = filter (fun x => g x && f x) l.
Proof.
  induction l as [|x l IH]; [reflexivity|].
  simpl. destruct (g x); simpl; [destruct (f x)|]; now rewrite IH.
Qed.

(** The rules depend on the keywords of a category through the enabled
    ones only. *)
Lemma collect_rules_enabled_only cats1 cats2 :
  Forall2 (fun c1 c2 =>
             category_name c1 = category_name c2 /\
             category_priority c1 = category_priority c2 /\
             filter enabled (category_keywords c1) =
             filter enabled (category_keywords c2)) cats1 cats2 ->
  collect_rules cats1 = collect_rules cats2.
Proof.
  induction 1 as [|c1 c2 l1 l2 (En & Ep & Ek) F IH]; [reflexivity|].
  cbn [collect_rules]. rewrite En, Ep, Ek, IH. reflexivity.
Qed.

Lemma Forall2_map_same (A B : Type) (R : B -> B -> Prop) (g h : A -> B) l :
  (forall x, In x l -> R (g x) (h x)) -> Forall2 R (map g l) (map h l).
Proof.
  induction l as [|x l IH]; intros H; simpl; constructor.
  - apply H. now left.
  - apply IH. intros y Hy. apply H. now right.
Qed.

Lemma keyword_rows_of_delete_category foreign_keys db cid other :
  other <> cid ->
  keyword_rows_of (delete_category foreign_keys db cid) other =
  keyword_rows_of db other.
Proof.
  intros N. unfold keyword_rows_of, delete_category. cbn [keywords].
  destruct foreign_keys; [|reflexivity].
  rewrite (@stable_sort_filter_comm _ keyword_row_le keyword_row_le_total keyword_row_le_trans).
  rewrite filter_filter. apply filter_ext. intros k.
  destruct (Z.eqb_spec (kw_category_id k) other) as [->|]; [|apply andb_false_r].
  rewrite andb_true_r. apply negb_true_iff. now apply Z.eqb_neq.
Qed.

(** Deleting a category takes its dictionary, and nothing else, out of the
    snapshot, whether or not its keyword rows are deleted with it. *)
Theorem delete_category_snapshot :
  forall foreign_keys db cid,
    get_categories_with_keywords (delete_category foreign_keys db cid) =
    filter (fun c => negb (category_id c =? cid)%Z)
           (get_categories_with_keywords db).
Proof.
  intros foreign_keys db cid.
  rewrite !get_categories_with_keywords_entries.
  rewrite filter_map_comm. cbn [category_entry category_id].
  change (categories (delete_category foreign_keys db cid))
    with (filter (fun row => negb (cat_id row =? cid)%Z) (categories db)).
  rewrite (@stable_sort_filter_comm _ category_row_le category_row_le_total category_row_le_trans).
  apply map_ext_in. intros row Hrow. apply filter_In in Hrow as [_ Hrow].
  apply negb_true_iff, Z.eqb_neq in Hrow.
  unfold category_entry. f_equal. f_equal.
  now apply keyword_rows_of_delete_category.
Qed.

Lemma keyword_rows_of_toggle_delete db kid cid :
  filter enabled
    (map keyword_of_row (keyword_rows_of (toggle_keyword_enabled db kid false) cid)) =
  filter enabled
    (map keyword_of_row (keyword_rows_of (delete_keyword db kid) cid)).
Proof.
  unfold keyword_rows_of, toggle_keyword_enabled, delete_keyword. cbn [keywords].
  rewrite stable_sort_map
    by (intros a b; unfold keyword_row_le, key_le;
        now destruct (kw_id a =? kid)%Z, (kw_id b =? kid)%Z).
  rewrite (@stable_sort_filter_comm _ keyword_row_le keyword_row_le_total
             keyword_row_le_trans).
  induction (stable_sort keyword_row_le (keywords db)) as [|k l IH]; [reflexivity|].
  cbn [map filter].
  destruct (Z.eqb_spec (kw_id k) kid) as [E | N]; cbn [negb kw_category_id filter].
  - destruct (kw_category_id k =? cid)%Z; cbn [map filter keyword_of_row enabled kw_enabled];
      exact IH.
  - destruct (kw_category_id k =? cid)%Z; cbn [map filter]; [|exact IH].
    destruct (enabled (keyword_of_row k)); now rewrite IH.
Qed.

(** Disabling a keyword and deleting it give the same rules. *)
Theorem disabled_keyword_is_as_deleted :
  forall db keyword_id,
    build_rules_from_storage (toggle_keyword_enabled db keyword_id false) =
    build_rules_from_storage (delete_keyword db keyword_id).
Proof.
  intros db kid. unfold build_rules_from_storage, build_rules. f_equal.
  rewrite !get_categories_with_keywords_entries.
  apply collect_rules_enabled_only.
  change (categories (toggle_keyword_enabled db kid false)) with (categories db).
  change (categories (delete_keyword db kid)) with (categories db).
  apply Forall2_map_same. intros row _. cbn [category_entry category_name
    category_priority category_keywords].
  repeat split. apply keyword_rows_of_toggle_delete.
Qed.

(** Toggling a keyword touches the [enabled] flag of the rows of that id and
    nothing else: setting the flag a keyword already has leaves the store as
    it is, and so does switching it and switching it back. *)
Theorem toggle_keyword_enabled_round_trip :
  forall db keyword_id flag,
    (forall k, In k (keywords db) -> kw_id k = keyword_id -> kw_enabled k = flag) ->
    toggle_keyword_enabled db keyword_id flag = db /\
    toggle_keyword_enabled (toggle_keyword_enabled db keyword_id (negb flag))
      keyword_id flag = db.
Proof.
  intros [cats kws seq] kid flag H. unfold toggle_keyword_enabled.
  cbn [categories keywords keywords_seq] in *.
  rewrite map_map. split; f_equal.
  - rewrite <- (map_id kws) at 2. apply map_ext_in. intros k Hk.
    destruct (Z.eqb_spec (kw_id k) kid) as [E | N]; [|reflexivity].
    rewrite <- (H k Hk E). now destruct k.
  - rewrite <- (map_id kws) at 2. apply map_ext_in. intros k Hk.
    destruct (Z.eqb_spec (kw_id k) kid) as [E | N].
    + cbn [kw_id]. rewrite (proj2 (Z.eqb_eq _ _) E).
      rewrite <- (H k Hk E). now destruct k.
    + now rewrite (proj2 (Z.eqb_neq _ _) N).
Qed.

Lemma toggle_keyword_enabled_round_trip_witness :
  toggle_keyword_enabled (add_keyword Scenario.store 2 "LULU" false) 1 true =
    add_keyword Scenario.store 2 "LULU" false /\
  toggle_keyword_enabled
    (toggle_keyword_enabled (add_keyword Scenario.store 2 "LULU" false) 1 (negb true))
    1 true = add_keyword Scenario.store 2 "LULU" false.
Proof.
  apply (@toggle_keyword_enabled_round_trip
           (add_keyword Scenario.store 2 "LULU" false) 1%Z true).
  intros k [<- | []] _. reflexivity.
Defined.

Lemma stable_sort_sorted_id (A : Type) (le : A -> A -> bool) l :
  StronglySorted (fun a b => le a b = true) l -> stable_sort le l = l.
Proof.
  induction 1 as [|x l S IH F]; [reflexivity|].
  simpl. rewrite IH. destruct l as [|y l]; [reflexivity|].
  simpl. inversion F as [|? ? L _]; subst. now rewrite L.
Qed.

Lemma StronglySorted_map (A B : Type) (R : A -> A -> Prop) (Q : B -> B -> Prop)
    (g : A -> B) l :
  (forall a b, R a b -> Q (g a) (g b)) ->
  StronglySorted R l -> StronglySorted Q (map g l).
Proof.
  intros H. induction 1 as [|x l S IH F]; simpl; constructor; auto.
  apply Forall_map. eapply Forall_impl; [|exact F]. intros a. apply H.
Qed.

Lemma StronglySorted_filter (A : Type) (R : A -> A -> Prop) (f : A -> bool) l :
  StronglySorted R l -> StronglySorted R (filter f l).
Proof.
  induction 1 as [|x l S IH F]; simpl; [constructor|].
  destruct (f x); auto. constructor; auto.
  apply Forall_forall. intros y Hy. apply filter_In in Hy as [Hy _].
  now apply (proj1 (Forall_forall _ _) F).
Qed.

Lemma StronglySorted_weaken (A : Type) (R Q : A -> A -> Prop) l :
  (forall a b, R a b -> Q a b) -> StronglySorted R l -> StronglySorted Q l.
Proof.
  intros H. induction 1 as [|x l S IH F]; constructor; auto.
  eapply Forall_impl; [|exact F]. intros a. apply H.
Qed.

Lemma category_row_le_before db a b :
  category_row_le a b = true ->
  entry_before (category_entry db a) (category_entry db b).
Proof.
  unfold category_row_le, entry_before. simpl. intros H.
  apply orb_true_iff in H as [H | H].
  - left. now apply Z.ltb_lt.
  - apply andb_true_iff in H as [E L]. right. split; auto. now apply Z.eqb_eq.
Qed.

Lemma snapshot_sorted db :
  StronglySorted entry_before (get_categories_with_keywords db).
Proof.
  rewrite get_categories_with_keywords_entries.
  apply StronglySorted_map with (R := fun a b => category_row_le a b = true);
    [apply category_row_le_before|].
  apply stable_sort_StronglySorted.
  - apply category_row_le_total.
  - apply category_row_le_trans.
Qed.

Lemma collected_rules_sorted db :
  StronglySorted rule_before (collect_rules (get_categories_with_keywords db)).
Proof.
  rewrite collect_rules_spec.
  apply StronglySorted_map with (R := entry_before).
  - intros a b H. exact H.
  - apply StronglySorted_filter, snapshot_sorted.
Qed.

Lemma rule_before_key_le a b : rule_before a b -> key_le priority a b = true.
Proof. unfold rule_before, key_le. intros [H | [H _]]; apply Z.leb_le; lia. Qed.

Lemma build_rules_from_storage_eq db :
  build_rules_from_storage db =
  map rule_of_category (filter survives (get_categories_with_keywords db)).
Proof.
  unfold build_rules_from_storage, build_rules, sort_rules.
  rewrite stable_sort_sorted_id; [apply collect_rules_spec|].
  generalize (collected_rules_sorted db).
  apply StronglySorted_weaken. apply rule_before_key_le.
Qed.

Lemma build_rules_from_storage_sorted db :
  StronglySorted rule_before (build_rules_from_storage db).
Proof.
  rewrite build_rules_from_storage_eq, <- collect_rules_spec.
  apply collected_rules_sorted.
Qed.

(** The rules built from the store are the rules of its categories in the
    order of the snapshot, by priority and, for equal priorities, by name:
    the final sort finds them in order. *)
Theorem rules_from_storage_in_order :
  forall db,
    build_rules_from_storage db =
      map rule_of_category (filter survives (get_categories_with_keywords db)) /\
    StronglySorted rule_before (build_rules_from_storage db).
Proof.
  intros db. split.
  - apply build_rules_from_storage_eq.
  - apply build_rules_from_storage_sorted.
Qed.

Lemma find_split (A : Type) (f : A -> bool) l x :
  find f l = Some x ->
  exists l1 l2, l = l1 ++ x :: l2 /\ f x = true /\ forall y, In y l1 -> f y = false.
Proof.
  induction l as [|y l IH]; [discriminate|]. simpl.
  destruct (f y) eqn:Fy.
  - intros E. injection E as <-. exists [], l. repeat split; auto. intros ? [].
  - intros E. destruct (IH E) as (l1 & l2 & -> & Fx & H).
    exists (y :: l1), l2. repeat split; auto.
    intros z [<- | Hz]; auto.
Qed.

Lemma string_leb_refl s : (s <=? s)%string = true.
Proof. now destruct (String.leb_total s s). Qed.

Lemma no_default_rule_from_storage db :
  no_default_rule (build_rules_from_storage db).
Proof.
  rewrite build_rules_from_storage_eq.
  apply Forall_forall. intros rule H.
  apply in_map_iff in H as [cat [<- H]]. apply filter_In in H as [_ H].
  unfold survives in H. apply andb_true_iff in H as [H _].
  apply negb_true_iff in H. simpl. now apply String.eqb_neq.
Qed.

(** Classification from the store: when the regular expressions of the
    stored keywords compile, every transaction that is "Uncategorized" on
    entry and matched by some rule gets the category that comes first by
    priority and then by name among the categories whose rules match it. *)
Theorem categorize_lowest_priority_wins :
  forall (engine : RegexEngine) db df,
    rules_compile (build_rules_from_storage db) = true ->
    categorize_transactions db df =
      Ok (map (first_match (build_rules_from_storage db)) (initial_rows df)) /\
    forall t winner,
      find (fun r => rule_matches r (lower (Details t)))
           (build_rules_from_storage db) = Some winner ->
      rule_matches winner (lower (Details t)) = true /\
      forall other,
        In other (build_rules_from_storage db) ->
        rule_matches other (lower (Details t)) = true ->
        rule_before winner other.
Proof.
  intros engine db df C. split.
  - unfold categorize_transactions. rewrite apply_rules_returns by assumption.
    f_equal. apply map_ext. intros t.
    apply classify_first_match, no_default_rule_from_storage.
  - intros t winner F.
    destruct (find_split _ _ F) as (l1 & l2 & E & M & NM).
    split; [exact M|]. intros other Hin Mo.
    assert (S := build_rules_from_storage_sorted db). rewrite E in *.
    apply in_app_or in Hin as [Hin | [<- | Hin]].
    + rewrite (NM other Hin) in Mo. discriminate.
    + right. split; [reflexivity | apply string_leb_refl].
    + clear -S Hin. induction l1 as [|y l1 IH]; simpl in S.
      * inversion S as [|? ? _ Fa]; subst.
        now apply (proj1 (Forall_forall _ _) Fa).
      * inversion S; subst. auto.
Qed.

Lemma categorize_lowest_priority_wins_witness :
  categorize_transactions (engine := sre_engine)
    (add_keyword Scenario.store 2 "LULU" false) Scenario.two_transactions =
  Ok (map (first_match (engine := sre_engine)
             (build_rules_from_storage (add_keyword Scenario.store 2 "LULU" false)))
          (initial_rows Scenario.two_transactions)).
Proof.
  apply (proj1 (categorize_lowest_priority_wins sre_engine
                  (add_keyword Scenario.store 2 "LULU" false)
                  Scenario.two_transactions eq_refl)).
Defined.

(* ===================================================================== *)
(** * Keywords learnt and the rules they give                             *)
(* ===================================================================== *)

Lemma string_app_assoc (a b c : string) :
  ((a ++ b) ++ c)%string = (a ++ b ++ c)%string.
Proof. induction a; simpl; congruence. Qed.

Lemma Words_In_infix s ws :
  Words s ws -> forall w, In w ws -> exists a b, s = (a ++ w ++ b)%string.
Proof.
  induction 1 as [sp Hb | sp w0 rest ws Hb Nw Hw Hr HW IH]; intros w Hin.
  - contradiction.
  - destruct Hin as [<- | Hin].
    + now exists sp, rest.
    + destruct (IH w Hin) as (a & b & ->).
      exists (sp ++ w0 ++ a)%string, b. now rewrite !string_app_assoc.
Qed.

Lemma upper_char_idem c : upper_char (upper_char c) = upper_char c.
Proof. by_cases_on_char c. Qed.

Lemma upper_idem s : upper (upper s) = upper s.
Proof.
  unfold upper. rewrite map_chars_map_chars.
  apply map_chars_ext, upper_char_idem.
Qed.

Lemma map_chars_length f s : String.length (map_chars f s) = String.length s.
Proof. induction s; simpl; congruence. Qed.

(** The word a keyword was made of. *)
Lemma extract_keyword_word details keyword :
  extract_keyword_from_details details = Some keyword ->
  exists ws w, Words details ws /\ In w ws /\ is_candidate w = true /\
               keyword = upper w.
Proof.
  destruct (Words_total details) as [ws HW].
  rewrite (extract_keyword_words HW).
  destruct (filter is_candidate ws) as [|c cs] eqn:F; [discriminate|].
  intros E. injection E as <-.
  assert (Hin : In (max_by_len c cs) (filter is_candidate ws)).
  { rewrite F. apply max_by_len_In. }
  apply filter_In in Hin as [Hin Hc]. now exists ws, (max_by_len c cs).
Qed.

Lemma upper_char_not_lower_letter c : is_lower_letter (upper_char c) = false.
Proof. by_cases_on_char c. Qed.

Lemma upper_no_lower_letter s :
  all_chars (fun c => negb (is_lower_letter c)) (upper s) = true.
Proof.
  unfold upper. induction s as [|c s IH]; simpl; auto.
  now rewrite upper_char_not_lower_letter.
Qed.

(** On ASCII details, a keyword that is extracted is a word of the details
    put in upper case: the word stands in the details as it is, so the
    keyword occurs there when case is ignored; the keyword has none of the
    letters a to z, is at least three characters long and free of
    whitespace. *)
Theorem extract_keyword_occurs_in_details :
  forall details keyword,
    is_ascii details ->
    extract_keyword_from_details details = Some keyword ->
    (exists before word after,
       details = (before ++ word ++ after)%string /\ keyword = upper word) /\
    contains_nocase keyword details /\
    all_chars (fun c => negb (is_lower_letter c)) keyword = true /\
    3 <= String.length keyword /\
    solid keyword.
Proof.
  intros details keyword _ E.
  destruct (extract_keyword_word _ E) as (ws & w & HW & Hin & Hc & ->).
  destruct (Words_In_infix HW w Hin) as (a & b & ->).
  split; [|split; [|split; [|split]]].
  - now exists a, w, b.
  - exists (lower a), (lower b). rewrite lower_upper. unfold lower.
    now rewrite !map_chars_app.
  - apply upper_no_lower_letter.
  - unfold upper. rewrite map_chars_length.
    apply is_candidate_spec in Hc. apply Hc.
  - apply solid_upper.
    apply (proj1 (Forall_forall _ ws) (Words_solid HW) w Hin).
Qed.

Lemma extract_keyword_occurs_in_details_witness :
  (exists before word after,
     "Compra Carrefour Express" = (before ++ word ++ after)%string /\
     "CARREFOUR" = upper word) /\
  contains_nocase "CARREFOUR" "Compra Carrefour Express" /\
  all_chars (fun c => negb (is_lower_letter c)) "CARREFOUR" = true /\
  3 <= String.length "CARREFOUR" /\
  solid "CARREFOUR".
Proof.
  apply (@extract_keyword_occurs_in_details "Compra Carrefour Express" "CARREFOUR");
    reflexivity.
Defined.

Lemma combine_map_same (A B C : Type) (f : A -> B) (g : A -> C) l :
  combine (map f l) (map g l) = map (fun x => (f x, g x)) l.
Proof. induction l; simpl; congruence. Qed.

Section RulesOfStore.
Context {engine : RegexEngine}.

(** The rule of a category matches when one of its enabled keywords does. *)
Lemma rule_of_category_matches cat x :
  rule_matches (rule_of_category cat) x = true <->
  exists k, In k (category_keywords cat) /\ enabled k = true /\
            pattern_matches x (pattern k, is_regex k) = true.
Proof.
  unfold rule_matches, rule_of_category. cbn [patterns is_regex_flags].
  rewrite combine_map_same, existsb_exists. split.
  - intros (p & Hp & M). apply in_map_iff in Hp as (k & <- & Hk).
    apply filter_In in Hk as [Hk Ek]. now exists k.
  - intros (k & Hk & Ek & M). exists (pattern k, is_regex k). split; auto.
    apply in_map_iff. exists k. split; auto. now apply filter_In.
Qed.

Lemma category_entry_in_snapshot db row :
  In row (categories db) ->
  In (category_entry db row) (get_categories_with_keywords db).
Proof.
  intros H. rewrite get_categories_with_keywords_entries.
  apply in_map. now apply stable_sort_In.
Qed.

Lemma keyword_row_in_entry db row k :
  In k (keywords db) -> kw_category_id k = cat_id row ->
  In (keyword_of_row k) (category_keywords (category_entry db row)).
Proof.
  intros Hk E. cbn [category_entry category_keywords]. apply in_map.
  unfold keyword_rows_of. apply filter_In. split.
  - now apply stable_sort_In.
  - now apply Z.eqb_eq.
Qed.

Lemma plain_pattern_matches p d :
  p <> "" -> contains_nocase p d ->
  pattern_matches (lower d) (p, false) = true.
Proof.
  intros N H. unfold pattern_matches.
  apply is_empty_false in N. rewrite N. simpl.
  now apply is_infix_nocase.
Qed.

Lemma stored_keyword_rule db row kw details :
  In row (categories db) ->
  cat_name row <> "Uncategorized" ->
  strip kw <> "" ->
  contains_nocase (strip kw) details ->
  exists rule,
    In rule (build_rules_from_storage (add_keyword db (cat_id row) kw false)) /\
    name rule = cat_name row /\ priority rule = cat_priority row /\
    rule_matches rule (lower details) = true.
Proof.
  intros Hrow Nn Np Hc.
  set (db' := add_keyword db (cat_id row) kw false).
  assert (Hk : In {| kw_id := (keywords_seq db + 1)%Z; kw_category_id := cat_id row;
                     kw_pattern := strip kw; kw_is_regex := false;
                     kw_enabled := true |} (keywords db')).
  { unfold db', add_keyword. apply is_empty_false in Np. rewrite Np.
    cbn [keywords]. apply in_or_app. right. now left. }
  assert (Hrow' : In row (categories db')).
  { unfold db', add_keyword. now destruct (is_empty (strip kw)). }
  assert (M : rule_matches (rule_of_category (category_entry db' row))
                           (lower details) = true).
  { apply rule_of_category_matches. eexists. split; [|split].
    - apply (keyword_row_in_entry db' row _ Hk). reflexivity.
    - reflexivity.
    - now apply plain_pattern_matches. }
  exists (rule_of_category (category_entry db' row)).
  split; [|repeat split; exact M].
  rewrite build_rules_from_storage_eq. apply in_map. apply filter_In. split.
  - now apply category_entry_in_snapshot.
  - unfold survives. apply andb_true_iff. split.
    + apply negb_true_iff. now apply String.eqb_neq.
    + apply existsb_exists. eexists. split.
      * apply (keyword_row_in_entry db' row _ Hk). reflexivity.
      * reflexivity.
Qed.

End RulesOfStore.

(** A plain keyword stored under a category other than "Uncategorized"
    shows in the rules built next: the rule of that category is there, with
    the name and the priority of the category, and it matches every details
    text in which the trimmed keyword occurs, case ignored. *)
Theorem stored_keyword_gives_matching_rule :
  forall (engine : RegexEngine) db row pattern details,
    In row (categories db) ->
    cat_name row <> "Uncategorized" ->
    strip pattern <> "" ->
    contains_nocase (strip pattern) details ->
    exists rule,
      In rule (build_rules_from_storage (add_keyword db (cat_id row) pattern false)) /\
      name rule = cat_name row /\ priority rule = cat_priority row /\
      rule_matches rule (lower details) = true.
Proof. intros. now apply stored_keyword_rule. Qed.

Lemma stored_keyword_gives_matching_rule_witness :
  exists rule,
    In rule (build_rules_from_storage (add_keyword Scenario.store 2 " lulu " false)) /\
    name rule = "Supermercado" /\ priority rule = 10%Z /\
    rule_matches (engine := sre_engine) rule (lower "COMPRA LULU HYPERMARKET") = true.
Proof.
  apply (@stored_keyword_gives_matching_rule sre_engine Scenario.store
           {| cat_id := 2; cat_name := "Supermercado"; cat_priority := 10 |}
           " lulu " "COMPRA LULU HYPERMARKET").
  - simpl. auto.
  - discriminate.
  - discriminate.
  - exists "compra ", " hypermarket". reflexivity.
Defined.

(** The correction of the user is learnt: after the learning step for a row
    moved to a category of the store other than "Uncategorized", the rules
    hold a rule of that category that matches the details of the row. *)
Theorem learnt_keyword_matches_edited_row :
  forall (engine : RegexEngine) db row keyword cid,
    m_Category row <> m_NewCategory row ->
    extract_keyword_from_details (m_Details row) = Some keyword ->
    get_category_id_by_name db (m_NewCategory row) = Some cid ->
    strip (m_NewCategory row) <> "Uncategorized" ->
    exists rule,
      In rule (build_rules_from_storage (learn_keywords db [row])) /\
      name rule = strip (m_NewCategory row) /\
      rule_matches rule (lower (m_Details row)) = true.
Proof.
  intros engine db row keyword cid N E G NU.
  rewrite (@learn_keywords_changed db row N). unfold learn_row. rewrite E, G.
  destruct (extract_keyword_solid _ E) as [S NE].
  apply is_empty_false in NE. rewrite NE. apply is_empty_false in NE.
  destruct (get_category_id_by_name_Some _ _ G) as (crow & Hin & <- & En).
  destruct (@stored_keyword_rule engine db crow keyword (m_Details row))
    as (rule & Hr & Hn & _ & M); auto.
  - now rewrite En.
  - now rewrite strip_solid.
  - rewrite strip_solid by assumption.
    destruct (extract_keyword_word _ E) as (ws & w' & HW' & Hin' & _ & ->).
    destruct (Words_In_infix HW' w' Hin') as (a & b & ->).
    exists (lower a), (lower b). rewrite lower_upper. unfold lower.
    now rewrite !map_chars_app.
  - exists rule. rewrite Hn, En. auto.
Qed.

Lemma learnt_keyword_matches_edited_row_witness :
  exists rule,
    In rule (build_rules_from_storage
               (learn_keywords Scenario.store [Scenario.edit_known])) /\
    name rule = strip "Supermercado" /\
    rule_matches (engine := sre_engine) rule (lower "COMPRA CARREFOUR EXPRESS") = true.
Proof.
  apply (@learnt_keyword_matches_edited_row sre_engine Scenario.store
           Scenario.edit_known "CARREFOUR" 2%Z).
  - discriminate.
  - reflexivity.
  - reflexivity.
  - discriminate.
Defined.

Lemma collect_rules_ignores_default cats1 cats2 :
  Forall2 (fun c1 c2 =>
             category_name c1 = category_name c2 /\
             category_priority c1 = category_priority c2 /\
             (category_name c1 <> "Uncategorized" ->
              filter enabled (category_keywords c1) =
              filter enabled (category_keywords c2))) cats1 cats2 ->
  collect_rules cats1 = collect_rules cats2.
Proof.
  induction 1 as [|c1 c2 l1 l2 (En & Ep & Ek) F IH]; [reflexivity|].
  cbn [collect_rules]. rewrite <- En, <- Ep, IH.
  destruct (String.eqb_spec (category_name c1) "Uncategorized") as [E | N];
    [reflexivity|].
  now rewrite (Ek N).
Qed.

Lemma keyword_rows_of_add_keyword db cid pattern is_regex other :
  other <> cid ->
  keyword_rows_of (add_keyword db cid pattern is_regex) other =
  keyword_rows_of db other.
Proof.
  intros N. unfold keyword_rows_of, add_keyword.
  destruct (is_empty (strip pattern)); [reflexivity|]. cbn [keywords].
  rewrite <- !(@stable_sort_filter_comm _ keyword_row_le keyword_row_le_total
                 keyword_row_le_trans).
  f_equal. rewrite filter_app. cbn [filter kw_category_id].
  rewrite (proj2 (Z.eqb_neq cid other)) by congruence. apply app_nil_r.
Qed.

(** A keyword stored under the id of the default category gives no rule:
    the rules built afterwards are the rules built before. *)
Theorem keyword_of_default_category_gives_no_rule :
  forall db cid pattern is_regex,
    In cid (map cat_id (categories db)) ->
    (forall row, In row (categories db) -> cat_id row = cid ->
                 cat_name row = "Uncategorized") ->
    build_rules_from_storage (add_keyword db cid pattern is_regex) =
    build_rules_from_storage db.
Proof.
  intros db cid pattern is_regex _ H.
  unfold build_rules_from_storage, build_rules. f_equal.
  rewrite !get_categories_with_keywords_entries.
  assert (Ec : categories (add_keyword db cid pattern is_regex) = categories db).
  { unfold add_keyword. now destruct (is_empty (strip pattern)). }
  rewrite Ec. apply collect_rules_ignores_default.
  apply Forall2_map_same. intros row Hrow.
  apply stable_sort_In in Hrow.
  cbn [category_entry category_name category_priority category_keywords].
  repeat split. intros N.
  rewrite keyword_rows_of_add_keyword; [reflexivity|].
  intros E. apply N. now apply H.
Qed.

Lemma keyword_of_default_category_gives_no_rule_witness :
  build_rules_from_storage (add_keyword Scenario.store 1 "VARIOS" false) =
  build_rules_from_storage Scenario.store.
Proof.
  apply (@keyword_of_default_category_gives_no_rule Scenario.store 1%Z "VARIOS" false).
  - simpl. auto.
  - intros row [<- | [<- | []]]; [reflexivity | discriminate].
Defined.

Lemma get_category_id_by_name_categories db db' name :
  categories db' = categories db ->
  get_category_id_by_name db' name = get_category_id_by_name db name.
Proof. intros E. unfold get_category_id_by_name. now rewrite E. Qed.

Lemma add_keyword_categories db cid pattern is_regex :
  categories (add_keyword db cid pattern is_regex) = categories db.
Proof. unfold add_keyword. now destruct (is_empty (strip pattern)). Qed.

Lemma learn_row_categories db row : categories (learn_row db row) = categories db.
Proof.
  unfold learn_row.
  destruct (extract_keyword_from_details _); auto.
  destruct (is_empty _); auto.
  destruct (get_category_id_by_name _ _); auto.
  apply add_keyword_categories.
Qed.

Lemma learn_row_keywords db row :
  keywords (learn_row db row) = keywords db \/
  exists keyword cid,
    extract_keyword_from_details (m_Details row) = Some keyword /\
    get_category_id_by_name db (m_NewCategory row) = Some cid /\
    keywords (learn_row db row) =
      keywords db ++
      [{| kw_id := (keywords_seq db + 1)%Z; kw_category_id := cid;
          kw_pattern := keyword; kw_is_regex := false; kw_enabled := true |}].
Proof.
  unfold learn_row.
  destruct (extract_keyword_from_details (m_Details row)) as [keyword|] eqn:E;
    [|now left].
  destruct (extract_keyword_solid _ E) as [S NE].
  apply is_empty_false in NE. rewrite NE. apply is_empty_false in NE.
  destruct (get_category_id_by_name db (m_NewCategory row)) as [cid|] eqn:G;
    [|now left].
  right. exists keyword, cid. repeat split.
  now rewrite add_keyword_solid.
Qed.

Lemma fold_learn_row db merged rows : forall db0,
  categories db0 = categories db ->
  (forall r, In r rows -> In r merged /\ m_Category r <> m_NewCategory r) ->
  categories (fold_left learn_row rows db0) = categories db /\
  exists added,
    keywords (fold_left learn_row rows db0) = keywords db0 ++ added /\
    Forall (learnt_from db merged) added /\
    List.length added <= List.length rows.
Proof.
  induction rows as [|row rows IH]; intros db0 Ec H.
  - split; [exact Ec|]. exists []. simpl. rewrite app_nil_r. auto.
  - cbn [fold_left].
    assert (Ec' : categories (learn_row db0 row) = categories db)
      by now rewrite learn_row_categories.
    destruct (IH (learn_row db0 row) Ec' (fun r Hr => H r (or_intror Hr)))
      as (E1 & added & E2 & F & L).
    split; [exact E1|].
    destruct (learn_row_keywords db0 row) as [K | (keyword & cid & Ex & G & K)];
      rewrite K in E2.
    + exists added. repeat split; auto. simpl. lia.
    + eexists (_ :: added). split; [|split].
      * rewrite E2, <- app_assoc. reflexivity.
      * constructor; [|exact F]. repeat split. exists row.
        destruct (H row (or_introl eq_refl)) as [Hin N].
        repeat split; auto. cbn [kw_category_id].
        now rewrite <- (@get_category_id_by_name_categories db db0 _ Ec).
      * simpl. lia.
Qed.

(** The learning loop only adds keywords: whatever the batch of edits, the
    categories are left as they were, the keywords that were there stay in
    place, and every keyword added, at most one for each row, is enabled,
    plain, extracted from a changed row and filed under the category that
    the row was moved to. *)
Theorem learn_keywords_only_adds :
  forall db merged,
    categories (learn_keywords db merged) = categories db /\
    exists added,
      keywords (learn_keywords db merged) = keywords db ++ added /\
      Forall (learnt_from db merged) added /\
      List.length added <= List.length merged.
Proof.
  intros db merged. unfold learn_keywords.
  destruct (fold_learn_row db merged
              (filter (fun row => negb (m_Category row =? m_NewCategory row)%string) merged)
              db eq_refl) as (Ec & added & Ek & F & L).
  - intros r Hr. apply filter_In in Hr as [Hin N]. split; auto.
    apply negb_true_iff in N. now apply String.eqb_neq.
  - split; [exact Ec|]. exists added. repeat split; auto.
    etransitivity; [exact L|]. apply filter_length_le.
Qed.

(* ===================================================================== *)
(** * Creating categories and initialising the store                      *)
(* ===================================================================== *)

Lemma find_app_l (A : Type) (f : A -> bool) l more x :
  find f l = Some x -> find f (l ++ more) = Some x.
Proof.
  induction l as [|y l IH]; [discriminate|]. simpl.
  destruct (f y); auto.
Qed.

Lemma find_app_r (A : Type) (f : A -> bool) l more :
  existsb f l = false -> find f (l ++ more) = find f more.
Proof.
  induction l as [|y l IH]; [reflexivity|]. simpl.
  destruct (f y); [discriminate | auto].
Qed.

Lemma find_existsb (A : Type) (f : A -> bool) l :
  existsb f l = match find f l with Some _ => true | None => false end.
Proof.
  induction l as [|y l IH]; [reflexivity|]. simpl. now destruct (f y).
Qed.

Lemma extends_refl db : extends db db.
Proof. split; exists []; now rewrite app_nil_r. Qed.

Lemma extends_trans a b c : extends a b -> extends b c -> extends a c.
Proof.
  intros [[m1 E1] [n1 F1]] [[m2 E2] [n2 F2]]. split.
  - exists (m1 ++ m2). now rewrite E2, E1, app_assoc.
  - exists (n1 ++ n2). now rewrite F2, F1, app_assoc.
Qed.

Lemma insert_or_ignore_category_extends st name priority :
  extends (tables st) (tables (insert_or_ignore_category st name priority)).
Proof.
  unfold insert_or_ignore_category. cbv zeta.
  destruct (existsb _ _); [apply extends_refl|].
  split; simpl; [eauto | exists []; now rewrite app_nil_r].
Qed.

Lemma insert_or_ignore_category_ok st name priority :
  store_ok st -> store_ok (insert_or_ignore_category st name priority).
Proof.
  intros (Hn & Hi & Hs). unfold insert_or_ignore_category. cbv zeta.
  destruct (existsb _ _) eqn:E.
  { unfold store_ok. cbn [tables categories_seq]. repeat split; auto.
    eapply Forall_impl; [|exact Hs]. simpl. intros; lia. }
  unfold store_ok. cbn [tables categories categories_seq].
  rewrite !map_app. cbn [map cat_name cat_id]. repeat split.
  - apply (Permutation_NoDup (Permutation_cons_append _ _)).
    constructor; [|exact Hn]. intros Hin.
    apply in_map_iff in Hin as (row & En & Hin).
    assert (existsb (fun row => (cat_name row =? name)%string)
                    (categories (tables st)) = true).
    { apply existsb_exists. exists row. split; auto. now apply String.eqb_eq. }
    congruence.
  - apply (Permutation_NoDup (Permutation_cons_append _ _)).
    constructor; [|exact Hi]. intros Hin.
    apply in_map_iff in Hin as (row & En & Hin).
    apply (proj1 (Forall_forall _ _) Hs) in Hin. lia.
  - apply Forall_app. split.
    + eapply Forall_impl; [|exact Hs]. simpl. intros; lia.
    + constructor; [simpl; lia | constructor].
Qed.

Lemma insert_or_ignore_category_found st name priority :
  exists row,
    find (fun row => (cat_name row =? name)%string)
         (categories (tables (insert_or_ignore_category st name priority)))
      = Some row.
Proof.
  unfold insert_or_ignore_category. cbv zeta.
  destruct (existsb _ _) eqn:E.
  - cbn [tables]. rewrite find_existsb in E.
    destruct (find _ _) as [row|]; [eauto | discriminate].
  - cbn [tables categories]. rewrite find_app_r by assumption.
    simpl. rewrite String.eqb_refl. eauto.
Qed.

Lemma fits_int64_spec n :
  fits_int64 n = true <-> (- 2 ^ 63 <= n < 2 ^ 63)%Z.
Proof.
  unfold fits_int64. rewrite andb_true_iff, Z.leb_le, Z.ltb_lt. reflexivity.
Qed.

(** [add_category]: a blank name is refused; otherwise a priority outside
    64 bits makes the call raise, with the store as it was. With a
    priority that fits, the row of a name that is there is left alone,
    priority included, as are the other rows; any other name gets one new
    row, with the trimmed name, the given priority and a fresh id, after
    the rows that were there. The keywords are not touched, the
    constraints of the schema are kept, and the name resolves afterwards. *)
Theorem add_category_spec :
  forall st name priority,
    store_ok st ->
    (strip name = "" -> add_category st name priority = Some st) /\
    (strip name <> "" -> ~ (- 2 ^ 63 <= priority < 2 ^ 63)%Z ->
     add_category st name priority = None) /\
    (strip name <> "" -> (- 2 ^ 63 <= priority < 2 ^ 63)%Z ->
     exists st',
       add_category st name priority = Some st' /\
       store_ok st' /\
       keywords (tables st') = keywords (tables st) /\
       (forall id, get_category_id_by_name (tables st) name = Some id ->
                   tables st' = tables st) /\
       (get_category_id_by_name (tables st) name = None ->
        exists id,
          ~ In id (map cat_id (categories (tables st))) /\
          categories (tables st') =
            categories (tables st) ++
            [{| cat_id := id; cat_name := strip name; cat_priority := priority |}] /\
          get_category_id_by_name (tables st') name = Some id)).
Proof.
  intros st name priority OK. unfold add_category.
  split; [|split].
  - intros E. now rewrite E.
  - intros N F. apply is_empty_false in N. rewrite N.
    destruct (fits_int64 priority) eqn:Fp; [|reflexivity].
    now apply fits_int64_spec in Fp.
  - intros N F. apply is_empty_false in N. rewrite N.
    apply fits_int64_spec in F. rewrite F.
    eexists. split; [reflexivity|].
    split; [now apply insert_or_ignore_category_ok|].
    split; [|split].
    + unfold insert_or_ignore_category. cbv zeta. now destruct (existsb _ _).
    + intros id G. unfold get_category_id_by_name in G. rewrite N in G.
      unfold insert_or_ignore_category. cbv zeta. rewrite find_existsb.
      now destruct (find _ _).
    + intros G. unfold get_category_id_by_name in *. rewrite N in *.
      unfold insert_or_ignore_category. cbv zeta.
      assert (E : existsb (fun row => (cat_name row =? strip name)%string)
                          (categories (tables st)) = false).
      { rewrite find_existsb. now destruct (find _ _). }
      rewrite E. cbn [tables categories].
      exists (categories_seq st + 1)%Z. split; [|split; [reflexivity|]].
      * destruct OK as (_ & _ & Hs). intros Hin.
        apply in_map_iff in Hin as (row & En & Hin).
        apply (proj1 (Forall_forall _ _) Hs) in Hin. lia.
      * rewrite find_app_r by assumption. simpl. now rewrite String.eqb_refl.
Qed.

Lemma store_ok_scenario :
  store_ok {| tables := Scenario.store; categories_seq := 2 |}.
Proof.
  unfold store_ok. simpl. repeat split.
  - repeat constructor; simpl; intuition discriminate.
  - repeat constructor; simpl; intuition discriminate.
  - repeat constructor; simpl; lia.
Defined.

Lemma add_category_spec_witness :
  add_category {| tables := Scenario.store; categories_seq := 2 |}
    " Farmacia " (2 ^ 63) = None /\
  exists st',
    add_category {| tables := Scenario.store; categories_seq := 2 |}
      " Farmacia " 50 = Some st' /\
    store_ok st'.
Proof.
  split.
  - apply (proj1 (proj2 (add_category_spec " Farmacia " (2 ^ 63)
                           store_ok_scenario))).
    + discriminate.
    + lia.
  - destruct (proj2 (proj2 (add_category_spec " Farmacia " 50 store_ok_scenario)))
      as (st' & E & OK' & _).
    + discriminate.
    + lia.
    + exists st'. split; assumption.
Defined.

Lemma add_category_Some st name priority st' :
  add_category st name priority = Some st' ->
  extends (tables st) (tables st') /\ (store_ok st -> store_ok st').
Proof.
  unfold add_category. destruct (is_empty (strip name)).
  - intros E. injection E as <-. split; [apply extends_refl | auto].
  - destruct (fits_int64 priority); [|discriminate].
    intros E. injection E as <-. split.
    + apply insert_or_ignore_category_extends.
    + apply insert_or_ignore_category_ok.
Qed.

(** The default priority fits, so that [add_category(name)] returns. *)
Lemma add_category_default_returns st name :
  add_category_default st name =
  Some (if is_empty (strip name) then st
        else insert_or_ignore_category st (strip name) 100).
Proof.
  unfold add_category_default, add_category.
  now destruct (is_empty (strip name)).
Qed.

Lemma store_add_keyword_extends st cid pattern is_regex :
  extends (tables st) (tables (store_add_keyword st cid pattern is_regex)).
Proof.
  unfold store_add_keyword, add_keyword. cbn [tables].
  destruct (is_empty (strip pattern)); [apply extends_refl|].
  split; simpl; [exists []; now rewrite app_nil_r | eauto].
Qed.

Lemma store_add_keyword_categories st cid pattern is_regex :
  categories (tables (store_add_keyword st cid pattern is_regex)) =
  categories (tables st) /\
  categories_seq (store_add_keyword st cid pattern is_regex) = categories_seq st.
Proof.
  unfold store_add_keyword. cbn [tables categories_seq].
  now rewrite add_keyword_categories.
Qed.

Lemma migrate_keywords_spec kws : forall st cid,
  extends (tables st) (tables (migrate_keywords st cid kws)) /\
  categories (tables (migrate_keywords st cid kws)) = categories (tables st) /\
  categories_seq (migrate_keywords st cid kws) = categories_seq st.
Proof.
  unfold migrate_keywords.
  induction kws as [|kw kws IH]; intros st cid; cbn [fold_left].
  - split; [apply extends_refl | auto].
  - destruct (is_empty (strip kw)); [apply IH|].
    destruct (IH (store_add_keyword st cid (strip kw) false) cid) as (E & C & S).
    destruct (store_add_keyword_categories st cid (strip kw) false) as [C' S'].
    split; [|split; congruence].
    eapply extends_trans; [apply store_add_keyword_extends | exact E].
Qed.

Lemma store_ok_same_categories st st' :
  categories (tables st') = categories (tables st) ->
  categories_seq st' = categories_seq st ->
  store_ok st -> store_ok st'.
Proof. unfold store_ok. intros -> ->. auto. Qed.

(** The body of the migration loop returns. *)
Lemma migrate_item_spec st item :
  exists st',
    migrate_item st item = Some st' /\
    extends (tables st) (tables st') /\
    (store_ok st -> store_ok st').
Proof.
  destruct item as [name kws]. unfold migrate_item.
  destruct (is_empty (strip name) || (strip name =? "Uncategorized")%string).
  { exists st. split; [reflexivity|]. split; [apply extends_refl | auto]. }
  destruct (add_category_default st (strip name)) as [st1|] eqn:A;
    [|now rewrite add_category_default_returns in A].
  destruct (add_category_Some _ _ _ A) as [E1 O1].
  destruct (get_category_id_by_name (tables st1) (strip name)) as [cid|];
    [|now exists st1].
  destruct kws as [kws|]; [|now exists st1].
  destruct (migrate_keywords_spec kws st1 cid) as (E & C & S).
  eexists. split; [reflexivity|]. split.
  - eapply extends_trans; eauto.
  - intros OK. apply (store_ok_same_categories _ C S). auto.
Qed.

Lemma has_user_category_extends db db' :
  extends db db' -> has_user_category db = true -> has_user_category db' = true.
Proof.
  intros [[more E] _]. unfold has_user_category. rewrite E, existsb_app.
  now intros ->.
Qed.

(** An entry of the file with a usable name leaves a user category in the
    store; any other entry leaves every store as it is. *)
Lemma migrate_item_cases st name kws :
  (forall s, migrate_item s (name, kws) = Some s) \/
  (exists st', migrate_item st (name, kws) = Some st' /\
               has_user_category (tables st') = true).
Proof.
  unfold migrate_item.
  destruct (is_empty (strip name) || (strip name =? "Uncategorized")%string) eqn:V;
    [now left|right].
  apply orb_false_iff in V as [V1 V2].
  rewrite add_category_default_returns, strip_idem, V1.
  set (st1 := insert_or_ignore_category st (strip name) 100).
  assert (U : has_user_category (tables st1) = true).
  { destruct (insert_or_ignore_category_found st (strip name) 100) as [row F].
    apply find_some in F as [Hin En]. apply String.eqb_eq in En.
    unfold has_user_category. apply existsb_exists. exists row. split; auto.
    rewrite En. now rewrite V2. }
  destruct (get_category_id_by_name (tables st1) (strip name)) as [cid|];
    [|now exists st1].
  destruct kws as [kws|]; [|now exists st1].
  eexists. split; [reflexivity|].
  destruct (migrate_keywords_spec kws st1 cid) as (_ & C & _).
  unfold has_user_category in *. now rewrite C.
Qed.

(** The migration loop returns; it leaves no user category only if every
    entry of the file is one that the loop skips, and then it does nothing
    on any store. *)
Lemma migrate_items_spec items : forall st,
  exists st',
    migrate_items st items = Some st' /\
    extends (tables st) (tables st') /\
    (store_ok st -> store_ok st') /\
    (has_user_category (tables st') = false ->
     forall st0, migrate_items st0 items = Some st0).
Proof.
  induction items as [|[name kws] items IH]; intros st; cbn [migrate_items].
  - exists st. split; [reflexivity|]. split; [apply extends_refl | auto].
  - destruct (migrate_item_spec st (name, kws)) as (st1 & M & E1 & O1).
    rewrite M. destruct (IH st1) as (st' & M' & E & O & U).
    exists st'. split; [exact M'|].
    split; [eapply extends_trans; eauto|]. split; [auto|].
    intros H st0. destruct (migrate_item_cases st name kws) as [Skip | (st2 & M2 & Hu)].
    + rewrite Skip. apply U. exact H.
    + rewrite M in M2. injection M2 as <-.
      apply (has_user_category_extends E) in Hu. congruence.
Qed.

(** A migration that returned leaves a store on whose tables the migration
    does nothing more, whatever the counter. *)
Lemma migrate_spec file st st' :
  migrate_from_json_if_present file st = Some st' ->
  extends (tables st) (tables st') /\
  (store_ok st -> store_ok st') /\
  forall st2, tables st2 = tables st' ->
              migrate_from_json_if_present file st2 = Some st2.
Proof.
  unfold migrate_from_json_if_present.
  destruct file as [| | |items].
  - intros E. injection E as <-. split; [apply extends_refl | auto].
  - destruct (has_user_category (tables st)) eqn:U; intros E; injection E as <-;
      (split; [apply extends_refl | split; [auto|]]);
      intros st2 ->; now rewrite U.
  - destruct (has_user_category (tables st)) eqn:U; [|discriminate].
    intros E; injection E as <-. split; [apply extends_refl | split; [auto|]].
    intros st2 ->. now rewrite U.
  - destruct (has_user_category (tables st)) eqn:U; intros E.
    + injection E as <-. split; [apply extends_refl | split; [auto|]].
      intros st2 ->. now rewrite U.
    + destruct (migrate_items_spec items st) as (st1 & M & Ex & O & Fix).
      rewrite M in E. injection E as <-.
      split; [exact Ex|]. split; [exact O|].
      intros st2 ->.
      destruct (has_user_category (tables st1)) eqn:U'; [reflexivity|].
      now apply Fix.
Qed.

Lemma default_category_found db :
  (exists row, find (fun row => (cat_name row =? "Uncategorized")%string)
                    (categories db) = Some row) ->
  get_category_id_by_name db "Uncategorized" <> None.
Proof.
  intros [row F]. unfold get_category_id_by_name.
  change (strip "Uncategorized") with "Uncategorized". simpl is_empty. cbv iota.
  now rewrite F.
Qed.

(** [init_db] leaves a store that has the category "Uncategorized" and
    keeps the constraints of the schema; the rows that were there are still
    there, in place; and it raises only for a file holding a JSON value
    that is not an object, met while the store has no user category. *)
Theorem init_db_establishes_default :
  forall file st,
    (init_db file st = None ->
     file = NotAnObject /\ has_user_category (tables st) = false) /\
    forall st',
      init_db file st = Some st' ->
      get_category_id_by_name (tables st') "Uncategorized" <> None /\
      extends (tables st) (tables st') /\
      (store_ok st -> store_ok st').
Proof.
  intros file st. unfold init_db.
  set (st1 := insert_or_ignore_category st "Uncategorized" 999).
  assert (E1 : extends (tables st) (tables st1))
    by apply insert_or_ignore_category_extends.
  split.
  - unfold migrate_from_json_if_present.
    destruct file as [| | |items]; try discriminate;
      destruct (has_user_category (tables st1)) eqn:U; try discriminate.
    + intros _. split; [reflexivity|].
      destruct (has_user_category (tables st)) eqn:U0; [|reflexivity].
      rewrite (has_user_category_extends E1 U0) in U. discriminate.
    + destruct (migrate_items_spec items st1) as (st2 & M & _).
      rewrite M. discriminate.
  - intros st' M. destruct (migrate_spec _ _ M) as (E & O & _).
    split; [|split].
    + apply default_category_found.
      destruct (insert_or_ignore_category_found st "Uncategorized" 999) as [row F].
      destruct E as [[more Ec] _]. exists row. rewrite Ec.
      now apply find_app_l.
    + eapply extends_trans; eauto.
    + intros OK. apply O. now apply insert_or_ignore_category_ok.
Qed.

(** Initialising twice is initialising once: on the store that [init_db]
    left, [init_db] with the same file returns and leaves the two tables as
    they are (only the counter of ids moves). *)
Theorem init_db_idempotent :
  forall file st st',
    init_db file st = Some st' ->
    exists st'', init_db file st' = Some st'' /\ tables st'' = tables st'.
Proof.
  intros file st st' M. unfold init_db in *.
  destruct (migrate_spec _ _ M) as (E & _ & Again).
  assert (Same : tables (insert_or_ignore_category st' "Uncategorized" 999)
                 = tables st').
  { unfold insert_or_ignore_category. cbv zeta. rewrite find_existsb.
    destruct (insert_or_ignore_category_found st "Uncategorized" 999) as [row F].
    destruct E as [[more Ec] _]. rewrite Ec, (find_app_l _ _ more F). reflexivity. }
  exists (insert_or_ignore_category st' "Uncategorized" 999).
  split; [now apply Again | exact Same].
Qed.

Lemma init_db_idempotent_witness :
  exists st'',
    init_db (JsonObject [(" Ocio ", Some ["CINE"; " "; "NETFLIX "])])
      {| tables :=
           {| categories :=
                [ {| cat_id := 1; cat_name := "Uncategorized"; cat_priority := 999 |};
                  {| cat_id := 2; cat_name := "Ocio"; cat_priority := 100 |} ];
              keywords :=
                [ {| kw_id := 1; kw_category_id := 2; kw_pattern := "CINE";
                     kw_is_regex := false; kw_enabled := true |};
                  {| kw_id := 2; kw_category_id := 2; kw_pattern := "NETFLIX";
                     kw_is_regex := false; kw_enabled := true |} ];
              keywords_seq := 2 |};
         categories_seq := 2 |} = Some st'' /\
    tables st'' =
      {| categories :=
           [ {| cat_id := 1; cat_name := "Uncategorized"; cat_priority := 999 |};
             {| cat_id := 2; cat_name := "Ocio"; cat_priority := 100 |} ];
         keywords :=
           [ {| kw_id := 1; kw_category_id := 2; kw_pattern := "CINE";
                kw_is_regex := false; kw_enabled := true |};
             {| kw_id := 2; kw_category_id := 2; kw_pattern := "NETFLIX";
                kw_is_regex := false; kw_enabled := true |} ];
         keywords_seq := 2 |}.
Proof.
  apply (@init_db_idempotent
           (JsonObject [(" Ocio ", Some ["CINE"; " "; "NETFLIX "])]) empty_store).
  reflexivity.
Defined.

Lemma init_db_establishes_default_witness :
  get_category_id_by_name
    (tables (insert_or_ignore_category empty_store "Uncategorized" 999))
    "Uncategorized" <> None.
Proof.
  apply (proj2 (init_db_establishes_default Corrupt empty_store)
           (insert_or_ignore_category empty_store "Uncategorized" 999) eq_refl).
Defined.


(* ===================================================================== *)
(** * The snapshot, priorities and name lookup                            *)
(* ===================================================================== *)

Lemma Permutation_filter_same (A : Type) (f : A -> bool) l l' :
  Permutation l l' -> Permutation (filter f l) (filter f l').
Proof.
  induction 1 as [|x l l' P IH|x y l|l l' l'' P1 IH1 P2 IH2]; simpl.
  - constructor.
  - destruct (f x); auto.
  - destruct (f x), (f y); auto. apply perm_swap.
  - etransitivity; eauto.
Qed.

Lemma keyword_rows_sorted db cid :
  StronglySorted (fun a b => (kw_id a <= kw_id b)%Z) (keyword_rows_of db cid).
Proof.
  unfold keyword_rows_of. apply StronglySorted_filter.
  apply StronglySorted_weaken with (R := fun a b => keyword_row_le a b = true).
  - intros a b. unfold keyword_row_le, key_le. apply Z.leb_le.
  - apply stable_sort_StronglySorted.
    + apply keyword_row_le_total.
    + apply keyword_row_le_trans.
Qed.

(** The snapshot has one dictionary for each category row, in order of
    priority and then of name; the keywords of a dictionary are the keyword
    rows that carry the id of its category, each one once, in order of id,
    so that a keyword row whose category id is that of no category is in
    none. *)
Theorem get_categories_with_keywords_spec :
  forall db,
    Permutation
      (map (fun c => (category_id c, category_name c, category_priority c))
           (get_categories_with_keywords db))
      (map (fun row => (cat_id row, cat_name row, cat_priority row))
           (categories db)) /\
    StronglySorted entry_before (get_categories_with_keywords db) /\
    forall c,
      In c (get_categories_with_keywords db) ->
      StronglySorted (fun a b => (id a <= id b)%Z) (category_keywords c) /\
      Permutation
        (category_keywords c)
        (map keyword_of_row
             (filter (fun k => (kw_category_id k =? category_id c)%Z)
                     (keywords db))).
Proof.
  intros db. split; [|split].
  - rewrite get_categories_with_keywords_entries, map_map.
    cbn [category_entry category_id category_name category_priority].
    apply Permutation_map. apply stable_sort_permutation.
  - apply snapshot_sorted.
  - intros c Hc. rewrite get_categories_with_keywords_entries in Hc.
    apply in_map_iff in Hc as (row & <- & _).
    cbn [category_entry category_keywords category_id]. split.
    + apply StronglySorted_map with (R := fun a b => (kw_id a <= kw_id b)%Z).
      * intros a b H. exact H.
      * apply keyword_rows_sorted.
    + apply Permutation_map. unfold keyword_rows_of.
      apply Permutation_filter_same. apply stable_sort_permutation.
Qed.

Lemma survives_reprioritized cid p c : survives (reprioritized cid p c) = survives c.
Proof. unfold reprioritized. now destruct (category_id c =? cid)%Z. Qed.

Lemma snapshot_update_category_priority db cid p db' :
  update_category_priority db cid p = Some db' ->
  Permutation
    (get_categories_with_keywords db')
    (map (reprioritized cid p) (get_categories_with_keywords db)).
Proof.
  unfold update_category_priority.
  destruct (fits_int64 p && fits_int64 cid); [|discriminate].
  intros E. injection E as <-.
  rewrite !get_categories_with_keywords_entries, map_map.
  cbn [categories].
  etransitivity.
  - apply Permutation_map. etransitivity.
    + apply stable_sort_permutation.
    + apply Permutation_map. symmetry. apply stable_sort_permutation.
  - rewrite map_map. apply Permutation_refl'. apply map_ext. intros row.
    unfold reprioritized, category_entry. cbn [category_id].
    now destruct (cat_id row =? cid)%Z.
Qed.

(** [update_category_priority] raises, with the store as it was, when the
    priority or the id does not fit in 64 bits. Otherwise it changes the
    priority of the rule of that category and nothing else: the rules built
    afterwards are, up to their order, the rules built before with the new
    priority for that category, and they come in order of priority and
    name. *)
Theorem update_category_priority_rules :
  forall db cid priority,
    (~ ((- 2 ^ 63 <= priority < 2 ^ 63)%Z /\ (- 2 ^ 63 <= cid < 2 ^ 63)%Z) ->
     update_category_priority db cid priority = None) /\
    ((- 2 ^ 63 <= priority < 2 ^ 63)%Z -> (- 2 ^ 63 <= cid < 2 ^ 63)%Z ->
     exists db',
       update_category_priority db cid priority = Some db' /\
       keywords db' = keywords db /\
       Permutation
         (build_rules_from_storage db')
         (map (fun c => rule_of_category (reprioritized cid priority c))
              (filter survives (get_categories_with_keywords db))) /\
       StronglySorted rule_before (build_rules_from_storage db')).
Proof.
  intros db cid p. split.
  - intros N. unfold update_category_priority.
    destruct (fits_int64 p && fits_int64 cid) eqn:F; [|reflexivity].
    apply andb_true_iff in F as [Fp Fc].
    apply fits_int64_spec in Fp, Fc. tauto.
  - intros Fp Fc.
    destruct (update_category_priority db cid p) as [db'|] eqn:U.
    + exists db'. split; [reflexivity|]. split; [|split].
      * unfold update_category_priority in U.
        destruct (fits_int64 p && fits_int64 cid); [|discriminate].
        now injection U as <-.
      * rewrite build_rules_from_storage_eq.
        etransitivity.
        -- apply Permutation_map, Permutation_filter_same.
           apply (snapshot_update_category_priority _ _ _ U).
        -- rewrite filter_map_comm, map_map. apply Permutation_refl'.
           f_equal. apply filter_ext. intros c. apply survives_reprioritized.
      * apply build_rules_from_storage_sorted.
    + exfalso. unfold update_category_priority in U.
      apply fits_int64_spec in Fp, Fc. rewrite Fp, Fc in U. discriminate.
Qed.

Lemma update_category_priority_rules_witness :
  update_category_priority (add_keyword Scenario.store 2 "LULU" false) 2 (2 ^ 63)
    = None /\
  exists db',
    update_category_priority (add_keyword Scenario.store 2 "LULU" false) 2 5
      = Some db' /\
    Permutation
      (build_rules_from_storage db')
      [Scenario.rule "Supermercado" 5 [("LULU", false)]].
Proof.
  split.
  - apply (proj1 (update_category_priority_rules
                    (add_keyword Scenario.store 2 "LULU" false) 2 (2 ^ 63))).
    lia.
  - destruct (proj2 (update_category_priority_rules
                       (add_keyword Scenario.store 2 "LULU" false) 2 5))
      as (db' & E & _ & P & _).
    + lia.
    + lia.
    + exists db'. split; [exact E | exact P].
Defined.

(** [get_category_id_by_name] does not see the white space around a name
    and finds no blank name; under the UNIQUE constraint it gives an id
    exactly when a category row has the trimmed name, and then the id of
    that row. *)
Theorem get_category_id_by_name_spec :
  forall db name,
    get_category_id_by_name db name = get_category_id_by_name db (strip name) /\
    (strip name = "" -> get_category_id_by_name db name = None) /\
    (NoDup (map cat_name (categories db)) ->
     forall id,
       get_category_id_by_name db name = Some id <->
       strip name <> "" /\
       exists row, In row (categories db) /\ cat_name row = strip name /\
                   cat_id row = id).
Proof.
  intros db name. split; [|split].
  - unfold get_category_id_by_name. now rewrite strip_idem.
  - intros E. unfold get_category_id_by_name. now rewrite E.
  - intros ND id. split.
    + intros G. split.
      * intros E. unfold get_category_id_by_name in G. now rewrite E in G.
      * destruct (get_category_id_by_name_Some _ _ G) as (row & ? & ? & ?).
        now exists row.
    + intros (N & row & Hin & En & Ei). unfold get_category_id_by_name.
      apply is_empty_false in N. rewrite N.
      destruct (find _ (categories db)) as [row'|] eqn:F.
      * apply find_some in F as [Hin' En']. apply String.eqb_eq in En'.
        f_equal. rewrite <- Ei. f_equal.
        clear -ND Hin Hin' En En'. rewrite <- En in En'. clear En.
        induction (categories db) as [|r l IH]; [contradiction|].
        simpl in ND. inversion ND as [|? ? Hnot ND']; subst.
        destruct Hin as [-> | Hin], Hin' as [-> | Hin']; auto.
        -- exfalso. apply Hnot. rewrite <- En'. now apply in_map.
        -- exfalso. apply Hnot. rewrite En'. now apply in_map.
      * exfalso. apply (find_none _ _ F) in Hin.
        apply String.eqb_neq in Hin. congruence.
Qed.

Lemma get_category_id_by_name_spec_witness :
  get_category_id_by_name Scenario.store "  Supermercado " = Some 2%Z <->
  strip "  Supermercado " <> "" /\
  exists row, In row (categories Scenario.store) /\
              cat_name row = strip "  Supermercado " /\ cat_id row = 2%Z.
Proof.
  apply (proj2 (proj2 (get_category_id_by_name_spec Scenario.store "  Supermercado "))).
  repeat constructor; simpl; intuition discriminate.
Defined.


(* ===================================================================== *)
(** * Normalised text, the fuzzy threshold and the required columns       *)
(* ===================================================================== *)

Lemma is_space_lower_char c : is_space (lower_char c) = is_space c.
Proof. by_cases_on_char c. Qed.

Lemma lstrip_map_chars f s :
  (forall c, is_space (f c) = is_space c) ->
  lstrip (map_chars f s) = map_chars f (lstrip s).
Proof.
  intros E. induction s as [|c s IH]; simpl; auto.
  rewrite E. now destruct (is_space c).
Qed.

Lemma rstrip_map_chars f s :
  (forall c, is_space (f c) = is_space c) ->
  rstrip (map_chars f s) = map_chars f (rstrip s).
Proof.
  intros E. induction s as [|c s IH]; simpl; auto.
  rewrite IH, E, is_empty_map_chars.
  now destruct (is_space c && is_empty (rstrip s)).
Qed.

Lemma strip_map_chars f s :
  (forall c, is_space (f c) = is_space c) ->
  strip (map_chars f s) = map_chars f (strip s).
Proof.
  intros E. unfold strip.
  now rewrite lstrip_map_chars, rstrip_map_chars.
Qed.

Lemma lower_idem s : lower (lower s) = lower s.
Proof.
  unfold lower. rewrite map_chars_map_chars.
  apply map_chars_ext, lower_char_idem.
Qed.

Lemma rstrip_app_blank x sp : blank sp -> rstrip (x ++ sp) = rstrip x.
Proof.
  intros B. induction x as [|c x IH]; simpl.
  - now apply rstrip_blank.
  - now rewrite IH.
Qed.

Lemma strip_app_blank x sp : blank sp -> strip (x ++ sp) = strip x.
Proof.
  intros B. unfold strip. induction x as [|c x IH]; simpl.
  - rewrite <- (app_empty_r sp), lstrip_blank_app by assumption. reflexivity.
  - destruct (is_space c); [exact IH|].
    apply (rstrip_app_blank (String c x) B).
Qed.

Lemma strip_blank_app sp x : blank sp -> strip (sp ++ x) = strip x.
Proof. intros B. unfold strip. now rewrite lstrip_blank_app. Qed.

Lemma lower_char_not_upper_letter c : is_upper_letter (lower_char c) = false.
Proof. by_cases_on_char c. Qed.

Lemma lower_no_upper_letter s :
  all_chars (fun c => negb (is_upper_letter c)) (lower s) = true.
Proof.
  unfold lower. induction s as [|c s IH]; simpl; auto.
  now rewrite lower_char_not_upper_letter.
Qed.

(** On ASCII text [normalize_text] gives a normal form: normalising twice
    is normalising once, the result has no white space around it and none
    of the letters A to Z, and the case of the text and the white space
    around it make no difference to the result. *)
Theorem normalize_text_normal_form :
  forall text,
    is_ascii text ->
    normalize_text (normalize_text text) = normalize_text text /\
    strip (normalize_text text) = normalize_text text /\
    starts_space (normalize_text text) = false /\
    all_chars (fun c => negb (is_upper_letter c)) (normalize_text text) = true /\
    normalize_text (upper text) = normalize_text text /\
    forall before after,
      blank before -> blank after ->
      normalize_text (before ++ text ++ after) = normalize_text text.
Proof.
  intros text _. unfold normalize_text.
  assert (S : strip (lower (strip text)) = lower (strip text)).
  { unfold lower. rewrite strip_map_chars by apply is_space_lower_char.
    now rewrite strip_idem. }
  repeat split.
  - now rewrite S, lower_idem.
  - exact S.
  - rewrite <- S. unfold strip. apply starts_space_rstrip, starts_space_lstrip.
  - apply lower_no_upper_letter.
  - unfold upper. rewrite strip_map_chars by apply is_space_upper_char.
    apply lower_upper.
  - intros before after B A.
    now rewrite strip_blank_app, strip_app_blank.
Qed.

Section FuzzyThreshold.
Context {rapidfuzz : Rapidfuzz}.

(** A lower threshold accepts whatever a higher one accepts, with the same
    answer: the threshold decides whether the best candidate is returned,
    never which candidate it is. *)
Theorem fuzzy_threshold_monotone :
  forall details candidate_categories threshold threshold' best,
    (threshold <= threshold')%Z ->
    fuzzy_categorize_single_details details candidate_categories threshold'
      = Some best ->
    fuzzy_categorize_single_details details candidate_categories threshold
      = Some best.
Proof.
  intros details cands t t' best L.
  unfold fuzzy_categorize_single_details.
  destruct (negb HAS_RAPIDFUZZ); [discriminate|].
  destruct (is_empty (normalize_text details) ||
            match cands with [] => true | _ :: _ => false end);
    [discriminate|].
  destruct (extractOne (normalize_text details) cands) as [[[m score] i]|];
    [|discriminate].
  destruct (Qle_bool (inject_Z t') score) eqn:E; [|discriminate].
  intros H. apply Qle_bool_iff in E.
  assert (E' : Qle_bool (inject_Z t) score = true).
  { apply Qle_bool_iff. apply Qle_trans with (inject_Z t'); [|exact E].
    rewrite <- Zle_Qle. exact L. }
  now rewrite E'.
Qed.

End FuzzyThreshold.

Lemma fuzzy_threshold_monotone_witness :
  fuzzy_categorize_single_details (rapidfuzz := Scenario.exact_scorer true)
    " Supermercado " ["ocio"; "supermercado"] 50 = Some "supermercado".
Proof.
  apply (@fuzzy_threshold_monotone (Scenario.exact_scorer true)
           " Supermercado " ["ocio"; "supermercado"] 50%Z 80%Z "supermercado").
  - lia.
  - reflexivity.
Defined.

Lemma existsb_eqb_In c columns :
  existsb (String.eqb c) columns = true <-> In c columns.
Proof.
  rewrite existsb_exists. split.
  - intros (x & Hx & E). apply String.eqb_eq in E. now subst.
  - intros H. exists c. split; [exact H | apply String.eqb_refl].
Qed.

(** [validate_columns] returns exactly when the four required columns are
    among the columns of the frame; otherwise it raises [ValueError] with a
    message that names the required columns that are missing, and only
    those, in the order Amount, Date, Debit/Credit, Details.  As
    [load_transactions] strips the names first, white space around a name
    in the header does not make a column missing. *)
Theorem validate_columns_spec :
  forall columns,
    (validate_columns columns = Valid <->
     forall c, In c REQUIRED_COLUMNS -> In c columns) /\
    (forall message,
       validate_columns columns = ValueError message ->
       message =
       (missing_message ++
        join_comma (filter (fun c => negb (existsb (String.eqb c) columns))
                           sorted_required))%string) /\
    (forall header,
       validate_header header = Valid <->
       forall c, In c REQUIRED_COLUMNS ->
                 exists h, In h header /\ strip h = c).
Proof.
  assert (V : forall columns,
             validate_columns columns = Valid <->
             forall c, In c REQUIRED_COLUMNS -> In c columns).
  { intros columns.
    unfold validate_columns, REQUIRED_COLUMNS. cbn [filter].
    split.
    + intros H c Hc.
      destruct (existsb (String.eqb "Date") columns) eqn:E1;
        [|discriminate H].
      destruct (existsb (String.eqb "Amount") columns) eqn:E2;
        [|discriminate H].
      destruct (existsb (String.eqb "Details") columns) eqn:E3;
        [|discriminate H].
      destruct (existsb (String.eqb "Debit/Credit") columns) eqn:E4;
        [|discriminate H].
      destruct Hc as [<- | [<- | [<- | [<- | []]]]];
        now apply existsb_eqb_In.
    + intros H.
      rewrite (proj2 (existsb_eqb_In "Date" columns)) by (apply H; simpl; auto).
      rewrite (proj2 (existsb_eqb_In "Amount" columns)) by (apply H; simpl; auto).
      rewrite (proj2 (existsb_eqb_In "Details" columns)) by (apply H; simpl; auto).
      rewrite (proj2 (existsb_eqb_In "Debit/Credit" columns))
        by (apply H; simpl; auto 6).
      reflexivity. }
  intros columns. split; [apply V | split].
  - intros message.
    unfold validate_columns, REQUIRED_COLUMNS, sorted_required, missing_message.
    cbn [filter].
    destruct (existsb (String.eqb "Date") columns),
             (existsb (String.eqb "Amount") columns),
             (existsb (String.eqb "Details") columns),
             (existsb (String.eqb "Debit/Credit") columns);
      cbn [negb]; intros H; try discriminate H;
      injection H as <-; reflexivity.
  - intros header. unfold validate_header. rewrite V.
    split; intros H c Hc.
    + apply H, in_map_iff in Hc as (h & E & Hh). now exists h.
    + destruct (H c Hc) as (h & Hh & <-). now apply in_map.
Qed.


(* ===================================================================== *)
(** * Adding and deleting a keyword                                       *)
(* ===================================================================== *)

Lemma filter_all_true (A : Type) (f : A -> bool) l :
  Forall (fun x => f x = true) l -> filter f l = l.
Proof.
  induction 1 as [|x l Hx _ IH]; simpl; auto. now rewrite Hx, IH.
Qed.

(** The id given to a new keyword is one more than the greatest id given
    so far, so that deleting the keyword with that id undoes [add_keyword]
    for a category of the store: the two tables are as they were, whether
    or not the pattern was blank and stored at all. *)
Theorem delete_added_keyword :
  forall db cid pattern is_regex,
    In cid (map cat_id (categories db)) ->
    Forall (fun k => (kw_id k <= keywords_seq db)%Z) (keywords db) ->
    let db' := delete_keyword (add_keyword db cid pattern is_regex)
                              (keywords_seq db + 1) in
    categories db' = categories db /\
    keywords db' = keywords db /\
    get_categories_with_keywords db' = get_categories_with_keywords db.
Proof.
  intros db cid pattern r _ F db'.
  assert (K : filter (fun k => negb (kw_id k =? keywords_seq db + 1)%Z)
                     (keywords db) = keywords db).
  { apply filter_all_true. eapply Forall_impl; [|exact F].
    intros k Hk. cbn beta in *. apply negb_true_iff, Z.eqb_neq. lia. }
  assert (E : categories db' = categories db /\ keywords db' = keywords db).
  { subst db'. unfold add_keyword, delete_keyword.
    destruct (is_empty (strip pattern)); cbn [categories keywords kw_id].
    - split; [reflexivity | exact K].
    - split; [reflexivity|].
      rewrite filter_app, K. cbn [filter kw_id].
      rewrite Z.eqb_refl. cbn [negb]. apply app_nil_r. }
  destruct E as [Ec Ek]. repeat split; auto.
  unfold get_categories_with_keywords. now rewrite Ec, Ek.
Qed.

Lemma delete_added_keyword_witness :
  let db' := delete_keyword (add_keyword Scenario.store 2 " LULU " false)
                            (keywords_seq Scenario.store + 1) in
  categories db' = categories Scenario.store /\
  keywords db' = keywords Scenario.store /\
  get_categories_with_keywords db' = get_categories_with_keywords Scenario.store.
Proof.
  apply (delete_added_keyword Scenario.store 2 " LULU " false).
  - simpl. auto.
  - repeat constructor; simpl; lia.
Defined.


(* ===================================================================== *)
(** * The properties above on concrete inputs                             *)
(* ===================================================================== *)

Lemma normalize_text_normal_form_witness :
  normalize_text ("  " ++ "Compra LULU" ++ " ") = normalize_text "Compra LULU".
Proof.
  apply (proj2 (proj2 (proj2 (proj2 (proj2
           (@normalize_text_normal_form "Compra LULU" eq_refl)))))
           "  " " ");
    reflexivity.
Defined.

Lemma validate_columns_spec_witness :
  "El CSV no contiene las columnas obligatorias: Amount, Debit/Credit" =
  (missing_message ++
   join_comma (filter (fun c => negb (existsb (String.eqb c) ["Date"; "Details"]))
                      sorted_required))%string.
Proof.
  apply (proj1 (proj2 (validate_columns_spec ["Date"; "Details"]))).
  reflexivity.
Defined.

Lemma get_categories_with_keywords_spec_witness :
  Permutation
    (category_keywords
       (category_entry (add_keyword Scenario.store 2 "LULU" false)
          {| cat_id := 2; cat_name := "Supermercado"; cat_priority := 10 |}))
    [ {| id := 1; pattern := "LULU"; is_regex := false; enabled := true |} ].
Proof.
  apply (proj2 (proj2 (proj2 (get_categories_with_keywords_spec
                                (add_keyword Scenario.store 2 "LULU" false)))
                  (category_entry (add_keyword Scenario.store 2 "LULU" false)
                     {| cat_id := 2; cat_name := "Supermercado";
                        cat_priority := 10 |})
                  (or_introl eq_refl))).
Defined.

(* ===================================================================== *)
(** * Keyword extraction on any text                                      *)
(* ===================================================================== *)

Module UnicodeFacts.
Import Unicode UnicodeSpec.

Section Facts.
Context {ucd : UnicodeData}.

Lemma is_nil_true_u (s : str) : is_nil s = true <-> s = [].
Proof. destruct s; simpl; split; congruence. Qed.




















(** ** Numeric tokens *)




(** ** The longest candidate *)




End Facts.
End UnicodeFacts.



(* ===================================================================== *)
(** * The byte strings of [Text] as ASCII text                            *)
(* ===================================================================== *)

Module AsciiText.

Lemma isspace_code c : Unicode.isspace (UnicodeData := Unicode.ascii_data) (N_of_ascii c) = is_space c.
Proof. by_cases_on_char c. Qed.

Lemma isdecimal_code c :
  Unicode.isdecimal (UnicodeData := Unicode.ascii_data) (N_of_ascii c) = is_digit c.
Proof. by_cases_on_char c. Qed.

Lemma upper_code c :
  (if ((97 <=? N_of_ascii c) && (N_of_ascii c <=? 122))%N
   then (N_of_ascii c - 32)%N else N_of_ascii c) = N_of_ascii (upper_char c).
Proof. by_cases_on_char c. Qed.

Lemma full_stop_code c : (N_of_ascii c =? Unicode.full_stop)%N = Ascii.eqb c ".".
Proof. by_cases_on_char c. Qed.

Lemma codes_cons c s : Unicode.codes (String c s) = N_of_ascii c :: Unicode.codes s.
Proof. reflexivity. Qed.

Lemma codes_length s : List.length (Unicode.codes s) = String.length s.
Proof. induction s; simpl; auto. Qed.

Lemma is_nil_codes s : Unicode.is_nil (Unicode.codes s) = is_empty s.
Proof. now destruct s. Qed.

Lemma str_upper_codes s :
  Unicode.str_upper (UnicodeData := Unicode.ascii_data) (Unicode.codes s) = Unicode.codes (upper s).
Proof.
  unfold upper. induction s as [|c s IH]; [reflexivity|].
  rewrite codes_cons. cbn [map_chars]. rewrite codes_cons, <- IH.
  cbn [Unicode.str_upper Unicode.ascii_data map]. now rewrite upper_code.
Qed.

Lemma lstrip_codes s :
  Unicode.lstrip (ucd := Unicode.ascii_data) (Unicode.codes s) = Unicode.codes (Text.lstrip s).
Proof.
  induction s as [|c s IH]; [reflexivity|].
  rewrite codes_cons. cbn [Unicode.lstrip Text.lstrip]. rewrite isspace_code.
  destruct (is_space c); [exact IH | reflexivity].
Qed.

Lemma rstrip_codes s :
  Unicode.rstrip (ucd := Unicode.ascii_data) (Unicode.codes s) = Unicode.codes (Text.rstrip s).
Proof.
  induction s as [|c s IH]; [reflexivity|].
  rewrite codes_cons. cbn [Unicode.rstrip Text.rstrip].
  rewrite isspace_code, IH, is_nil_codes.
  now destruct (is_space c && is_empty (Text.rstrip s)).
Qed.

Lemma strip_codes s :
  Unicode.strip (ucd := Unicode.ascii_data) (Unicode.codes s) = Unicode.codes (Text.strip s).
Proof. unfold Unicode.strip, Text.strip. now rewrite lstrip_codes, rstrip_codes. Qed.

Lemma re_split_ws_codes s :
  Unicode.re_split_ws (ucd := Unicode.ascii_data) (Unicode.codes s) = map Unicode.codes (Text.re_split_ws s).
Proof.
  induction s as [|c s IH]; [reflexivity|].
  rewrite codes_cons. cbn [Unicode.re_split_ws Text.re_split_ws].
  rewrite isspace_code. destruct (is_space c).
  - destruct s as [|c' s']; [reflexivity|].
    rewrite codes_cons in *. rewrite isspace_code.
    destruct (is_space c'); [exact IH|]. cbn [map]. now rewrite <- IH.
  - rewrite IH. now destruct (Text.re_split_ws s).
Qed.

Lemma forallb_isdecimal_codes s :
  forallb (Unicode.isdecimal (UnicodeData := Unicode.ascii_data)) (Unicode.codes s) = all_chars is_digit s.
Proof.
  induction s as [|c s IH]; [reflexivity|].
  rewrite codes_cons. cbn [forallb all_chars]. now rewrite isdecimal_code, IH.
Qed.

(** What follows the leading digits of a token. *)
Lemma fraction_codes s :
  Unicode.fraction (ucd := Unicode.ascii_data) (Unicode.codes s) =
  let (d, r) := span_digits s in
  match r with
  | EmptyString => true
  | String c r' =>
      Ascii.eqb c "." && negb (is_empty r') && all_chars is_digit r'
  end.
Proof.
  induction s as [|c s IH]; [reflexivity|].
  rewrite codes_cons. cbn [Unicode.fraction span_digits].
  rewrite isdecimal_code, full_stop_code, is_nil_codes, forallb_isdecimal_codes, IH.
  destruct (is_digit c) eqn:Hc.
  - destruct (span_digits s) as [d r]. cbn [andb orb].
    destruct r as [|c' r']; [reflexivity|].
    destruct (Ascii.eqb c "." && negb (is_empty s) && all_chars is_digit s) eqn:E;
      [|now rewrite orb_false_r].
    apply andb_true_iff in E as [E _]. apply andb_true_iff in E as [E _].
    apply Ascii.eqb_eq in E. subst c. discriminate.
  - reflexivity.
Qed.

Lemma span_digits_all s :
  all_chars is_digit s = (let (d, r) := span_digits s in is_empty r).
Proof.
  induction s as [|c s IH]; [reflexivity|]. cbn [all_chars span_digits].
  destruct (is_digit c); [|reflexivity]. rewrite IH.
  now destruct (span_digits s).
Qed.

Lemma fullmatch_number_codes s :
  Unicode.fullmatch_number (ucd := Unicode.ascii_data) (Unicode.codes s) = Text.fullmatch_number s.
Proof.
  unfold Text.fullmatch_number. destruct s as [|c s]; [reflexivity|].
  rewrite codes_cons. cbn [Unicode.fullmatch_number span_digits].
  rewrite isdecimal_code, fraction_codes.
  destruct (is_digit c); [|reflexivity].
  destruct (span_digits s) as [d r]. cbn [is_empty negb andb].
  destruct r as [|c' r']; [reflexivity|].
  destruct (Ascii.eqb c' "."); [|reflexivity]. cbn [andb].
  rewrite span_digits_all.
  destruct r' as [|c'' r']; [reflexivity|]. cbn [is_empty negb andb span_digits].
  destruct (is_digit c''); [|reflexivity].
  now destruct (span_digits r').
Qed.

Lemma is_candidate_codes s :
  Unicode.is_candidate (ucd := Unicode.ascii_data) (Unicode.codes s) = is_candidate s.
Proof.
  unfold Unicode.is_candidate, is_candidate.
  now rewrite codes_length, fullmatch_number_codes.
Qed.

Lemma filter_codes l :
  filter (Unicode.is_candidate (ucd := Unicode.ascii_data)) (map Unicode.codes l) =
  map Unicode.codes (filter is_candidate l).
Proof.
  induction l as [|x l IH]; [reflexivity|]. cbn [map filter].
  rewrite is_candidate_codes, IH. now destruct (is_candidate x).
Qed.

Lemma max_by_len_codes rest : forall best,
  Unicode.max_by_len (Unicode.codes best) (map Unicode.codes rest) = Unicode.codes (max_by_len best rest).
Proof.
  induction rest as [|x rest IH]; intros best; [reflexivity|].
  cbn [map Unicode.max_by_len max_by_len]. rewrite !codes_length.
  destruct (String.length best <? String.length x); apply IH.
Qed.

(** On the byte strings of [Text], the extraction of the store and of the
    learning loop is the extraction on code points with the ASCII tables. *)
Lemma extract_keyword_codes details :
  Unicode.extract_keyword_from_details (ucd := Unicode.ascii_data) (Unicode.codes details) =
  option_map Unicode.codes (extract_keyword_from_details details).
Proof.
  unfold Unicode.extract_keyword_from_details, extract_keyword_from_details.
  rewrite is_nil_codes. destruct (is_empty details); [reflexivity|].
  rewrite strip_codes, re_split_ws_codes, filter_codes.
  destruct (filter is_candidate _) as [|c cs]; [reflexivity|].
  cbn [map option_map]. now rewrite max_by_len_codes, str_upper_codes.
Qed.

End AsciiText.
